(** * gitLore: the repository enrichment pipeline

    A shallow embedding of the Go program that lists the repositories a
    GitHub token can see, enriches every record with four further API
    calls and folds the enriched records into a summary. The program
    exists in two revisions; the development follows the later one (four
    enrichers) and carries the two enrichers of the earlier one
    (fetch_repos.go) in [Rev1]. The page that draws the result
    (renderer/app.js) contributes its validation of the file and its
    colour function, in [JS].

    - Go's [int] is the 64-bit two's-complement integer of the platforms
      the tool is built for; it is a [Z] kept in range by [wrap].
    - Go strings are byte strings: [String.length] and [substring] count
      bytes exactly as [len(s)] and [s[:n]] do.
    - A slice is a list ([nil] is the empty list: the program only ever
      takes [len] of its slices), a [map[string]int] is a [gmap string Z].
    - The network, the clock of [time.Sleep] and the terminal are a
      [World] threaded through every effectful function.
    - The standard library's JSON decoder and RFC 3339 parser/printer are
      not part of the program: they are the fields of [Library]. *)

From Stdlib Require Import ZArith.
From stdpp Require Import gmap strings list fin_maps pretty.

Local Open Scope Z_scope.

(** ** Machine integers *)

Definition wrap (z : Z) : Z := (z + 2 ^ 63) `mod` 2 ^ 64 - 2 ^ 63.

Definition MaxInt : Z := 2 ^ 63 - 1.
Definition MinInt : Z := - 2 ^ 63.

Definition inRange (z : Z) : Prop := MinInt ≤ z ≤ MaxInt.

(** [a + b] and [a++] on Go ints. *)
Definition add (a b : Z) : Z := wrap (a + b).
Definition incr (a : Z) : Z := add a 1.

(** [len(x)] of a slice or a string, as a Go int. *)
Definition len {A} (l : list A) : Z := Z.of_nat (length l).
Definition strlen (s : string) : Z := Z.of_nat (String.length s).

(** ** Errors

    A Go [error] value; [nil] is [None] in an [option error]. *)

Inductive error : Type :=
  | TransportError (msg : string)          (* net/http, io.ReadAll *)
  | Errorf (format : string) (status : Z)  (* fmt.Errorf(format, status) *)
  | ErrorfBody (format : string) (status : Z) (body : string)
                                           (* fmt.Errorf(format, status, body) *)
  | UnmarshalError (msg : string).         (* encoding/json *)

(** ** The data model *)

Module GH.
(** One element of the [/user/repos] listing. *)
Record ghRepo : Type := {
  Name : string;
  FullName : string;
  Description : string;
  Private : bool;
  Fork : bool;
  Archived : bool;
  Disabled : bool;
  Language : string;
  SizeKB : Z;
  StargazersCount : Z;
  WatchersCount : Z;
  ForksCount : Z;
  OpenIssuesCount : Z;
  DefaultBranch : string;
  CreatedAt : string;
  UpdatedAt : string;
  PushedAt : string;
  HTMLURL : string;
  Homepage : string;
  Topics : list string;
  HasIssues : bool;
  HasProjects : bool;
  HasWiki : bool;
  HasPages : bool;
  HasDownloads : bool;
  Owner_Login : string;
  Owner_Type : string;
  License_Key : string;
  License_Name : string;
  License_SPDX : string
}.
End GH.

Record commitListItem : Type := {
  SHA : string;
  Commit_Author_Date : string;
  Commit_Message : string
}.

Record weeklyStat : Type := {
  Total : Z;
  Week : Z;
  Days : list Z
}.

Record contributor : Type := {
  Login : string;
  Contributions : Z
}.

Record outRepo : Type := {
  Name : string;
  FullName : string;
  Description : string;
  Private : bool;
  Fork : bool;
  Archived : bool;
  Disabled : bool;
  Language : string;
  Topics : list string;
  Homepage : string;
  DefaultBranch : string;
  (* Size *)
  SizeKB : Z;
  SizeReadable : string;
  (* Engagement *)
  Stars : Z;
  Forks : Z;
  Watchers : Z;
  OpenIssues : Z;
  (* Timestamps *)
  CreatedAt : string;
  UpdatedAt : string;
  PushedAt : string;
  (* URLs *)
  HTMLURL : string;
  (* Owner *)
  OwnerLogin : string;
  OwnerType : string;
  (* License *)
  License : string;
  (* Features *)
  HasIssues : bool;
  HasProjects : bool;
  HasWiki : bool;
  HasPages : bool;
  HasDownloads : bool;
  (* Enrichment data *)
  LastCommitAt : string;
  LastCommitMessage : string;
  WeeklyCommits52W : list Z;
  WeeklyStats52W : list weeklyStat;
  LanguageBreakdown : gmap string Z;
  TopContributors : list contributor;
  ContributorCount : Z;
  TotalCommits : Z;
  StatsCachePending : bool
}.

(** The nine enrichment fields are the only ones a job assigns. *)
Definition withEnrichment (r : outRepo)
    (lastAt lastMsg : string) (weekly : list Z) (stats : list weeklyStat)
    (langs : gmap string Z) (top : list contributor) (count commits : Z)
    (pending : bool) : outRepo :=
  {| Name := Name r; FullName := FullName r; Description := Description r;
     Private := Private r; Fork := Fork r; Archived := Archived r;
     Disabled := Disabled r; Language := Language r; Topics := Topics r;
     Homepage := Homepage r; DefaultBranch := DefaultBranch r;
     SizeKB := SizeKB r; SizeReadable := SizeReadable r;
     Stars := Stars r; Forks := Forks r; Watchers := Watchers r;
     OpenIssues := OpenIssues r;
     CreatedAt := CreatedAt r; UpdatedAt := UpdatedAt r; PushedAt := PushedAt r;
     HTMLURL := HTMLURL r;
     OwnerLogin := OwnerLogin r; OwnerType := OwnerType r;
     License := License r;
     HasIssues := HasIssues r; HasProjects := HasProjects r;
     HasWiki := HasWiki r; HasPages := HasPages r;
     HasDownloads := HasDownloads r;
     LastCommitAt := lastAt; LastCommitMessage := lastMsg;
     WeeklyCommits52W := weekly; WeeklyStats52W := stats;
     LanguageBreakdown := langs; TopContributors := top;
     ContributorCount := count; TotalCommits := commits;
     StatsCachePending := pending |}.

Module Sum.
Record RepoCountsT : Type := {
  Total : Z; Public : Z; Private : Z; Archived : Z; Forks : Z;
  Org : Z; User : Z
}.
Record SizeT : Type := { TotalKB : Z; Human : string }.
Record EngagementT : Type := {
  TotalStars : Z; TotalForks : Z; TotalWatchers : Z; TotalCommits : Z
}.
Record ActivityT : Type := {
  MostRecentUpdate : string; MostRecentPush : string;
  OldestCreated : string; OldestUpdate : string
}.
Record EnrichmentT : Type := {
  ReposWithLastCommit : Z; ReposWithStats52W : Z; ReposWithLanguages : Z;
  ReposWithContributors : Z; ReposStatsPending : Z
}.
Record summary : Type := {
  GeneratedAt : string;
  RepoCounts : RepoCountsT;
  Size : SizeT;
  Engagement : EngagementT;
  Languages : gmap string Z;
  Topics : gmap string Z;
  Licenses : gmap string Z;
  Activity : ActivityT;
  Enrichment : EnrichmentT
}.
End Sum.

(** ** What the program takes from outside its own source

    [encoding/json] and [time] belong to Go's standard library; an
    instant ([time.Time] up to its location, which [After], [Before] and
    [UTC().Format] ignore) is an integer. [humanSizeFromKB] is the
    program's own but works on floats and is display only. *)

Class Library : Type := {
  unmarshalCommits : string → error + list commitListItem;
  unmarshalWeeks : string → error + list weeklyStat;
  unmarshalLanguages : string → error + gmap string Z;
  unmarshalContributors : string → error + list contributor;
  parseRFC3339 : string → option Z;
  formatRFC3339 : Z → string;
  humanSizeFromKB : Z → string
}.

(** ** The world: remote API, clock and terminal *)

(** What one call of [doGET] can meet: [http.NewRequest] fails (the URL
    does not parse) and nothing is sent; the request is handed to
    [client.Do], which fails; the response arrives but [io.ReadAll] of
    its body fails; or a status and a body arrive. *)
Inductive Response : Type :=
  | NewRequestFails (e : error)
  | DoFails (e : error)
  | ReadFails (status : Z) (e : error)
  | Answer (status : Z) (body : string).

Record Request : Type := {
  req_url : string;
  req_Authorization : string;
  req_Accept : string;
  req_UserAgent : string
}.

(** A line written by [fmt.Printf(format, args...)]. *)
Record Printed : Type := { fmt_format : string; fmt_args : list Z }.

Record World : Type := {
  (** what the successive calls of [doGET] for each URL will meet *)
  server : string → list Response;
  (** the calls of [doGET] so far, oldest first, each written as the
      request it is for *)
  requests : list Request;
  (** the requests handed to [client.Do] so far, oldest first *)
  sent : list Request;
  (** the durations slept so far, in nanoseconds, oldest first *)
  slept : list Z;
  (** the lines printed so far, oldest first *)
  stdout : list Printed;
  (** the progress counter shared by the workers *)
  completed : Z
}.

Definition M (A : Type) : Type := World → A * World.

#[global] Instance M_ret : MRet M := λ A a w, (a, w).
#[global] Instance M_bind : MBind M := λ A B k m w,
  let '(a, w') := m w in k a w'.

Definition Millisecond : Z := 1000000.

Definition Sleep (d : Z) : M unit := fun w =>
  (tt, {| server := server w; requests := requests w; sent := sent w;
          slept := slept w ++ [d]; stdout := stdout w;
          completed := completed w |}).

Definition Printf (format : string) (args : list Z) : M unit := fun w =>
  (tt, {| server := server w; requests := requests w; sent := sent w;
          slept := slept w;
          stdout := stdout w ++ [{| fmt_format := format; fmt_args := args |}];
          completed := completed w |}).

(** [completed++] under the mutex; the new value is returned. *)
Definition bumpCompleted : M Z := fun w =>
  let c := incr (completed w) in
  (c, {| server := server w; requests := requests w; sent := sent w;
         slept := slept w; stdout := stdout w; completed := c |}).

(** [doGET(client, url, token)]. The call is noted in [requests]. When
    [http.NewRequest] fails the function returns at once: nothing is
    sent and the endpoint is left as it was. Otherwise the request, with
    its three headers, goes to [client.Do] and takes the endpoint's next
    answer; a world with no answer left for [url] refuses the
    connection. *)
Definition doGET (url token : string) : M (Z * string * option error) := fun w =>
  let req :=
    {| req_url := url;
       req_Authorization := "Bearer " +:+ token;
       req_Accept := "application/vnd.github+json";
       req_UserAgent := "gitlore-enricher" |} in
  let w' :=
    {| server := fun u => if String.eqb u url then tail (server w u)
                          else server w u;
       requests := requests w ++ [req];
       sent := sent w ++ [req];
       slept := slept w; stdout := stdout w; completed := completed w |} in
  match server w url with
  | NewRequestFails e :: _ =>
    ((0, "", Some e),
     {| server := server w; requests := requests w ++ [req]; sent := sent w;
        slept := slept w; stdout := stdout w; completed := completed w |})
  | [] => ((0, "", Some (TransportError "connection failed")), w')
  | DoFails e :: _ => ((0, "", Some e), w')
  | ReadFails status e :: _ => ((status, "", Some e), w')
  | Answer status body :: _ => ((status, body, None), w')
  end.

(** ** The four field enrichers *)

Section Enrichers.
Context `{Library}.

Definition fetchLastCommit (token fullName : string)
    : M (string * string * option error) :=
  let url := "https://api.github.com/repos/" +:+ fullName
             +:+ "/commits?per_page=1" in
  '(status, body, err) ← doGET url token;
  match err with
  | Some e => mret ("", "", Some e)
  | None =>
    if (status <? 200) || (status >=? 300) then
      mret ("", "", Some (Errorf "commits list error %d" status))
    else
      match unmarshalCommits body with
      | inl e => mret ("", "", Some e)
      | inr [] => mret ("", "", None)
      | inr (c0 :: _) =>
        let msg := Commit_Message c0 in
        let msg := if strlen msg >? 100
                   then String.substring 0 100 msg +:+ "..." else msg in
        mret (Commit_Author_Date c0, msg, None)
      end
  end.

Definition backoffs : list Z :=
  [700 * Millisecond; 1200 * Millisecond; 2000 * Millisecond;
   3000 * Millisecond].

(** The [for attempt := 0; attempt <= len(backoffs); attempt++] loop of
    [fetchCommitActivity52W], entered at [attempt]. [fuel] bounds the
    iterations still to run; the branch of exhausted fuel and the
    failed loop test both fall through to the function's last line. *)
Fixpoint activityLoop (fuel : nat) (url token : string) (attempt : Z)
    : M (list weeklyStat * bool * option error) :=
  match fuel with
  | O => mret ([], true, None)
  | S fuel' =>
    if attempt <=? len backoffs then
      '(status, body, e) ← doGET url token;
      match e with
      | Some e => mret ([], false, Some e)
      | None =>
        if status =? 202 then
          if attempt =? len backoffs then mret ([], true, None)
          else
            Sleep (nth (Z.to_nat attempt) backoffs 0);;
            activityLoop fuel' url token (attempt + 1)
        else if (status <? 200) || (status >=? 300) then
          mret ([], false, Some (Errorf "commit_activity error %d" status))
        else
          match unmarshalWeeks body with
          | inl err => mret ([], false, Some err)
          | inr weeks => mret (weeks, false, None)
          end
      end
    else mret ([], true, None)
  end.

Definition fetchCommitActivity52W (token fullName : string)
    : M (list weeklyStat * bool * option error) :=
  let url := "https://api.github.com/repos/" +:+ fullName
             +:+ "/stats/commit_activity" in
  activityLoop (S (length backoffs)) url token 0.

Definition fetchLanguages (token fullName : string)
    : M (gmap string Z * option error) :=
  let url := "https://api.github.com/repos/" +:+ fullName
             +:+ "/languages" in
  '(status, body, err) ← doGET url token;
  match err with
  | Some e => mret (∅, Some e)
  | None =>
    if (status <? 200) || (status >=? 300) then
      mret (∅, Some (Errorf "languages error %d" status))
    else
      match unmarshalLanguages body with
      | inl e => mret (∅, Some e)
      | inr langs => mret (langs, None)
      end
  end.

Definition fetchContributors (token fullName : string)
    : M (list contributor * Z * option error) :=
  let url := "https://api.github.com/repos/" +:+ fullName
             +:+ "/contributors?per_page=10" in
  '(status, body, err) ← doGET url token;
  match err with
  | Some e => mret ([], 0, Some e)
  | None =>
    if (status <? 200) || (status >=? 300) then
      mret ([], 0, Some (Errorf "contributors error %d" status))
    else
      match unmarshalContributors body with
      | inl e => mret ([], 0, Some e)
      | inr contribs =>
        let total := len contribs in
        let total := if len contribs =? 10 then 10 else total in
        mret (contribs, total, None)
      end
  end.

End Enrichers.

(** ** The earlier revision (fetch_repos.go)

    It enriches with the last commit date and the weekly totals only;
    its two enrichers follow the same course as their successors. Its
    structs have fewer fields, so its decoders are its own. *)

Module Rev1.

Record commitListItem : Type := {
  SHA : string;
  Commit_Author_Date : string
}.

Record weeklyStat : Type := { Total : Z }.

Section Enrichers.
Variable unmarshalCommits : string → error + list commitListItem.
Variable unmarshalWeeks : string → error + list weeklyStat.

Definition fetchLastCommitAt (token fullName : string)
    : M (string * option error) :=
  let url := "https://api.github.com/repos/" +:+ fullName
             +:+ "/commits?per_page=1" in
  '(status, body, err) ← doGET url token;
  match err with
  | Some e => mret ("", Some e)
  | None =>
    if (status <? 200) || (status >=? 300) then
      mret ("", Some (ErrorfBody "commits list error %d: %s" status body))
    else
      match unmarshalCommits body with
      | inl e => mret ("", Some e)
      | inr [] => mret ("", None)
      | inr (c0 :: _) => mret (Commit_Author_Date c0, None)
      end
  end.

Fixpoint activityLoop (fuel : nat) (url token : string) (attempt : Z)
    : M (list Z * bool * option error) :=
  match fuel with
  | O => mret ([], true, None)
  | S fuel' =>
    if attempt <=? len backoffs then
      '(status, body, e) ← doGET url token;
      match e with
      | Some e => mret ([], false, Some e)
      | None =>
        if status =? 202 then
          if attempt =? len backoffs then mret ([], true, None)
          else
            Sleep (nth (Z.to_nat attempt) backoffs 0);;
            activityLoop fuel' url token (attempt + 1)
        else if (status <? 200) || (status >=? 300) then
          mret ([], false,
                Some (ErrorfBody "commit_activity error %d: %s" status body))
        else
          match unmarshalWeeks body with
          | inl err => mret ([], false, Some err)
          | inr weeks =>
            let out := fold_left (λ out w, out ++ [Total w]) weeks [] in
            mret (out, false, None)
          end
      end
    else mret ([], true, None)
  end.

Definition fetchCommitActivity52W (token fullName : string)
    : M (list Z * bool * option error) :=
  let url := "https://api.github.com/repos/" +:+ fullName
             +:+ "/stats/commit_activity" in
  activityLoop (S (length backoffs)) url token 0.

End Enrichers.

End Rev1.

(** ** The enrichment job *)

Section Job.
Context `{Library}.

(** The base record [main] builds from one listed repository; every
    enrichment field starts at its zero value. *)
Definition baseRecord (r : GH.ghRepo) : outRepo :=
  let license := "" in
  let license := if negb (String.eqb (GH.License_Key r) "")
                 then GH.License_Name r else license in
  {| Name := GH.Name r; FullName := GH.FullName r;
     Description := GH.Description r; Private := GH.Private r;
     Fork := GH.Fork r; Archived := GH.Archived r;
     Disabled := GH.Disabled r; Language := GH.Language r;
     Topics := GH.Topics r; Homepage := GH.Homepage r;
     DefaultBranch := GH.DefaultBranch r;
     SizeKB := GH.SizeKB r; SizeReadable := humanSizeFromKB (GH.SizeKB r);
     Stars := GH.StargazersCount r; Forks := GH.ForksCount r;
     Watchers := GH.WatchersCount r; OpenIssues := GH.OpenIssuesCount r;
     CreatedAt := GH.CreatedAt r; UpdatedAt := GH.UpdatedAt r;
     PushedAt := GH.PushedAt r; HTMLURL := GH.HTMLURL r;
     OwnerLogin := GH.Owner_Login r; OwnerType := GH.Owner_Type r;
     License := license;
     HasIssues := GH.HasIssues r; HasProjects := GH.HasProjects r;
     HasWiki := GH.HasWiki r; HasPages := GH.HasPages r;
     HasDownloads := GH.HasDownloads r;
     LastCommitAt := ""; LastCommitMessage := "";
     WeeklyCommits52W := []; WeeklyStats52W := [];
     LanguageBreakdown := ∅; TopContributors := [];
     ContributorCount := 0; TotalCommits := 0;
     StatsCachePending := false |}.

(** 1) what the job does with the answer of [fetchLastCommit] *)
Definition storeLastCommit (res : string * string * option error)
    (r : outRepo) : outRepo :=
  let '(lastDate, lastMsg, e) := res in
  match e with
  | None =>
    withEnrichment r lastDate lastMsg (WeeklyCommits52W r)
      (WeeklyStats52W r) (LanguageBreakdown r) (TopContributors r)
      (ContributorCount r) (TotalCommits r) (StatsCachePending r)
  | Some _ => r
  end.

(** The loop [for idx, w := range weeks] filling [totals] and
    [totalCommits]; the state is [(totals, totalCommits)], [idx] is the
    position of [w]. *)
Fixpoint extractTotals (idx : nat) (weeks : list weeklyStat)
    (st : list Z * Z) : list Z * Z :=
  match weeks with
  | [] => st
  | w :: rest =>
    extractTotals (S idx) rest (<[idx := Total w]> (fst st), add (snd st) (Total w))
  end.

(** 2) what the job does with the answer of [fetchCommitActivity52W] *)
Definition storeActivity (res : list weeklyStat * bool * option error)
    (r : outRepo) : outRepo :=
  let '(weeks, pending, e2) := res in
  match e2 with
  | None =>
    let '(totals, totalCommits) :=
      extractTotals 0 weeks (replicate (length weeks) 0, 0) in
    withEnrichment r (LastCommitAt r) (LastCommitMessage r) totals weeks
      (LanguageBreakdown r) (TopContributors r) (ContributorCount r)
      totalCommits pending
  | Some _ => r
  end.

(** 3) what the job does with the answer of [fetchLanguages] *)
Definition storeLanguages (res : gmap string Z * option error)
    (r : outRepo) : outRepo :=
  let '(langs, e3) := res in
  match e3 with
  | None =>
    if Z.of_nat (size langs) >? 0 then
      withEnrichment r (LastCommitAt r) (LastCommitMessage r)
        (WeeklyCommits52W r) (WeeklyStats52W r) langs (TopContributors r)
        (ContributorCount r) (TotalCommits r) (StatsCachePending r)
    else r
  | Some _ => r
  end.

(** 4) what the job does with the answer of [fetchContributors] *)
Definition storeContributors (res : list contributor * Z * option error)
    (r : outRepo) : outRepo :=
  let '(contribs, count, e4) := res in
  match e4 with
  | None =>
    withEnrichment r (LastCommitAt r) (LastCommitMessage r)
      (WeeklyCommits52W r) (WeeklyStats52W r) (LanguageBreakdown r)
      contribs count (TotalCommits r) (StatsCachePending r)
  | Some _ => r
  end.

(** The body of the worker's [for i := range jobs] loop, on the record
    [out[i]] it owns; [total] is [len(out)]. *)
Definition enrichJob (token : string) (total : Z) (r : outRepo)
    : M outRepo :=
  let full := FullName r in
  res1 ← fetchLastCommit token full;
  let r := storeLastCommit res1 r in
  res2 ← fetchCommitActivity52W token full;
  let r := storeActivity res2 r in
  res3 ← fetchLanguages token full;
  let r := storeLanguages res3 r in
  res4 ← fetchContributors token full;
  let r := storeContributors res4 r in
  c ← bumpCompleted;
  (if (Z.rem c 5 =? 0) || (c =? total)
   then Printf "  Progress: %d/%d repositories enriched\n" [c; total]
   else mret tt);;
  Sleep (100 * Millisecond);;
  mret r.

(** The jobs as a single worker runs them: one after the other, in the
    order of the channel. *)
Fixpoint enrichInOrder (token : string) (total : Z) (records : list outRepo)
    : M (list outRepo) :=
  match records with
  | [] => mret []
  | r :: rest =>
    r' ← enrichJob token total r;
    rest' ← enrichInOrder token total rest;
    mret (r' :: rest')
  end.

End Job.

(** ** The worker pool

    [main] starts [workers] goroutines that take indices from the channel
    [jobs] and write to [out[i]]. What the four enrichers answer for
    record [i] is given ([res i]); a schedule chooses which worker moves
    next, and a move is one of: take the next index from the channel,
    or perform the next of the four writes of the job in hand. *)

Record JobResults : Type := {
  resLastCommit : string * string * option error;
  resActivity : list weeklyStat * bool * option error;
  resLanguages : gmap string Z * option error;
  resContributors : list contributor * Z * option error
}.

Inductive Worker : Type :=
  | Idle
  | Busy (i : nat) (pc : nat).

Record Pool : Type := {
  jobs : list nat;
  workers : list Worker;
  out : list outRepo
}.

Section Pool.
Variable res : nat → JobResults.

Definition storeStep (pc : nat) (i : nat) (r : outRepo) : outRepo :=
  match pc with
  | 0%nat => storeLastCommit (resLastCommit (res i)) r
  | 1%nat => storeActivity (resActivity (res i)) r
  | 2%nat => storeLanguages (resLanguages (res i)) r
  | _ => storeContributors (resContributors (res i)) r
  end.

(** All four writes of job [i], in program order. *)
Definition storeAll (i : nat) (r : outRepo) : outRepo :=
  storeStep 3 i (storeStep 2 i (storeStep 1 i (storeStep 0 i r))).

Definition workerStep (p : Pool) (w : nat) : Pool :=
  match workers p !! w with
  | None => p
  | Some Idle =>
    match jobs p with
    | [] => p
    | i :: rest =>
      {| jobs := rest; workers := <[w := Busy i 0]> (workers p);
         out := out p |}
    end
  | Some (Busy i pc) =>
    match out p !! i with
    | None => p
    | Some r =>
      {| jobs := jobs p;
         workers := <[w := if (pc <? 3)%nat then Busy i (S pc) else Idle]>
                      (workers p);
         out := <[i := storeStep pc i r]> (out p) |}
    end
  end.

Definition runPool (sched : list nat) (p : Pool) : Pool :=
  fold_left workerStep sched p.

(** [jobs <- i] for every index, then [close(jobs)]. *)
Definition startPool (nworkers : nat) (out0 : list outRepo) : Pool :=
  {| jobs := seq 0 (length out0); workers := replicate nworkers Idle;
     out := out0 |}.

Definition isIdle (w : Worker) : bool :=
  match w with Idle => true | Busy _ _ => false end.

(** [wg.Wait()] returns: the channel is drained and every worker idle. *)
Definition finished (p : Pool) : bool :=
  match jobs p with [] => forallb isIdle (workers p) | _ :: _ => false end.

End Pool.

(** ** The aggregator *)

(** [m[k]++] on a map whose missing keys read as zero. *)
Definition bump (k : string) (m : gmap string Z) : gmap string Z :=
  <[k := incr (default 0 (m !! k))]> m.

(** The zero [time.Time]: January 1, year 1, 00:00 UTC, in nanoseconds
    since the Unix epoch. *)
Definition zeroTime : Z := -62135596800 * 1000000000.

(** The summary under construction together with the locals of [main]
    that the loop over [out] updates. *)
Record AggState : Type := {
  sum : Sum.summary;
  newestUpdate : Z; newestPush : Z; oldestCreated : Z; oldestUpdate : Z;
  hasUpdate : bool; hasPush : bool; hasCreated : bool; hasOldUpdate : bool
}.

Section Aggregator.
Context `{Library}.

(** [var sum summary] with [GeneratedAt] and the three maps set;
    [now] is the instant [time.Now()] returns. *)
Definition aggInit (now : Z) : AggState :=
  {| sum :=
       {| Sum.GeneratedAt := formatRFC3339 now;
          Sum.RepoCounts :=
            {| Sum.Total := 0; Sum.Public := 0; Sum.Private := 0;
               Sum.Archived := 0; Sum.Forks := 0; Sum.Org := 0;
               Sum.User := 0 |};
          Sum.Size := {| Sum.TotalKB := 0; Sum.Human := "" |};
          Sum.Engagement :=
            {| Sum.TotalStars := 0; Sum.TotalForks := 0;
               Sum.TotalWatchers := 0; Sum.TotalCommits := 0 |};
          Sum.Languages := ∅; Sum.Topics := ∅; Sum.Licenses := ∅;
          Sum.Activity :=
            {| Sum.MostRecentUpdate := ""; Sum.MostRecentPush := "";
               Sum.OldestCreated := ""; Sum.OldestUpdate := "" |};
          Sum.Enrichment :=
            {| Sum.ReposWithLastCommit := 0; Sum.ReposWithStats52W := 0;
               Sum.ReposWithLanguages := 0; Sum.ReposWithContributors := 0;
               Sum.ReposStatsPending := 0 |} |};
     newestUpdate := zeroTime; newestPush := zeroTime;
     oldestCreated := zeroTime; oldestUpdate := zeroTime;
     hasUpdate := false; hasPush := false; hasCreated := false;
     hasOldUpdate := false |}.

(** [if cond { x++ }] *)
Definition incrIf (cond : bool) (x : Z) : Z := if cond then incr x else x.

(** [if t, err := time.Parse(...); err == nil { if !has || t.After(cur)
    { cur = t; has = true } }] on the pair [(cur, has)]; [p] is the
    outcome of the parse. *)
Definition newer (has : bool) (cur : Z) (p : option Z) : Z * bool :=
  match p with
  | Some t => if negb has || (t >? cur) then (t, true) else (cur, has)
  | None => (cur, has)
  end.

(** The same with [t.Before(cur)]. *)
Definition older (has : bool) (cur : Z) (p : option Z) : Z * bool :=
  match p with
  | Some t => if negb has || (t <? cur) then (t, true) else (cur, has)
  | None => (cur, has)
  end.

(** One iteration of [for _, r := range out]. *)
Definition aggStep (a : AggState) (r : outRepo) : AggState :=
  let s := sum a in
  let rc := Sum.RepoCounts s in
  let en := Sum.Engagement s in
  let ec := Sum.Enrichment s in
  let isOrg := String.eqb (OwnerType r) "Organization" in
  let upd := parseRFC3339 (UpdatedAt r) in
  let psh := parseRFC3339 (PushedAt r) in
  let crt := parseRFC3339 (CreatedAt r) in
  {| sum :=
       {| Sum.GeneratedAt := Sum.GeneratedAt s;
          Sum.RepoCounts :=
            {| Sum.Total := incr (Sum.Total rc);
               Sum.Public := incrIf (negb (Private r)) (Sum.Public rc);
               Sum.Private := incrIf (Private r) (Sum.Private rc);
               Sum.Archived := incrIf (Archived r) (Sum.Archived rc);
               Sum.Forks := incrIf (Fork r) (Sum.Forks rc);
               Sum.Org := incrIf isOrg (Sum.Org rc);
               Sum.User := incrIf (negb isOrg) (Sum.User rc) |};
          Sum.Size :=
            {| Sum.TotalKB := add (Sum.TotalKB (Sum.Size s)) (SizeKB r);
               Sum.Human := Sum.Human (Sum.Size s) |};
          Sum.Engagement :=
            {| Sum.TotalStars := add (Sum.TotalStars en) (Stars r);
               Sum.TotalForks := add (Sum.TotalForks en) (Forks r);
               Sum.TotalWatchers := add (Sum.TotalWatchers en) (Watchers r);
               Sum.TotalCommits := add (Sum.TotalCommits en) (TotalCommits r) |};
          Sum.Languages :=
            if negb (String.eqb (Language r) "")
            then bump (Language r) (Sum.Languages s) else Sum.Languages s;
          Sum.Topics :=
            fold_left (fun m topic => bump topic m) (Topics r) (Sum.Topics s);
          Sum.Licenses :=
            if negb (String.eqb (License r) "")
            then bump (License r) (Sum.Licenses s) else Sum.Licenses s;
          Sum.Activity := Sum.Activity s;
          Sum.Enrichment :=
            {| Sum.ReposWithLastCommit :=
                 incrIf (negb (String.eqb (LastCommitAt r) ""))
                   (Sum.ReposWithLastCommit ec);
               Sum.ReposWithStats52W :=
                 incrIf (len (WeeklyCommits52W r) >? 0)
                   (Sum.ReposWithStats52W ec);
               Sum.ReposWithLanguages :=
                 incrIf (Z.of_nat (size (LanguageBreakdown r)) >? 0)
                   (Sum.ReposWithLanguages ec);
               Sum.ReposWithContributors :=
                 incrIf (len (TopContributors r) >? 0)
                   (Sum.ReposWithContributors ec);
               Sum.ReposStatsPending :=
                 incrIf (StatsCachePending r) (Sum.ReposStatsPending ec) |} |};
     newestUpdate := fst (newer (hasUpdate a) (newestUpdate a) upd);
     newestPush := fst (newer (hasPush a) (newestPush a) psh);
     oldestCreated := fst (older (hasCreated a) (oldestCreated a) crt);
     oldestUpdate := fst (older (hasOldUpdate a) (oldestUpdate a) upd);
     hasUpdate := snd (newer (hasUpdate a) (newestUpdate a) upd);
     hasPush := snd (newer (hasPush a) (newestPush a) psh);
     hasCreated := snd (older (hasCreated a) (oldestCreated a) crt);
     hasOldUpdate := snd (older (hasOldUpdate a) (oldestUpdate a) upd) |}.

(** The summary [main] writes: the fold over [out], then the size and
    the four activity stamps. *)
Definition buildSummary (now : Z) (out : list outRepo) : Sum.summary :=
  let a := fold_left aggStep out (aggInit now) in
  let s := sum a in
  let stamp (has : bool) (t : Z) : string :=
    if has then formatRFC3339 t else "" in
  {| Sum.GeneratedAt := Sum.GeneratedAt s;
     Sum.RepoCounts := Sum.RepoCounts s;
     Sum.Size :=
       {| Sum.TotalKB := Sum.TotalKB (Sum.Size s);
          Sum.Human := humanSizeFromKB (Sum.TotalKB (Sum.Size s)) |};
     Sum.Engagement := Sum.Engagement s;
     Sum.Languages := Sum.Languages s;
     Sum.Topics := Sum.Topics s;
     Sum.Licenses := Sum.Licenses s;
     Sum.Activity :=
       {| Sum.MostRecentUpdate := stamp (hasUpdate a) (newestUpdate a);
          Sum.MostRecentPush := stamp (hasPush a) (newestPush a);
          Sum.OldestCreated := stamp (hasCreated a) (oldestCreated a);
          Sum.OldestUpdate := stamp (hasOldUpdate a) (oldestUpdate a) |};
     Sum.Enrichment := Sum.Enrichment s |}.

End Aggregator.

(** ** The listing of the repositories

    [fetchAllAccessibleRepos] is the same text in both revisions, up to
    the fields of [ghRepo]; it is embedded once, over any record type
    with its decoder. The loop [for { ... }] has no bound of its own:
    [fuel] bounds the pages asked for, and [None] is the loop still
    running when the fuel is spent. *)

Section Listing.
Context {Repo : Type}.
Variable unmarshalRepos : string → error + list Repo.

Fixpoint listPages (fuel : nat) (token : string) (page : Z) (all : list Repo)
    : M (option (list Repo * option error)) :=
  match fuel with
  | O => mret None
  | S fuel' =>
    let perPage := 100 in
    let aff := "owner,collaborator,organization_member" in
    let url := "https://api.github.com/user/repos?per_page=" +:+ pretty perPage
               +:+ "&page=" +:+ pretty page
               +:+ "&sort=updated&affiliation=" +:+ aff in
    '(status, body, err) ← doGET url token;
    match err with
    | Some e => mret (Some ([], Some e))
    | None =>
      if (status <? 200) || (status >=? 300) then
        mret (Some ([], Some (ErrorfBody "github api error %d: %s" status body)))
      else
        match unmarshalRepos body with
        | inl e => mret (Some ([], Some e))
        | inr pageRepos =>
          if len pageRepos =? 0 then mret (Some (all, None))
          else listPages fuel' token (incr page) (all ++ pageRepos)
        end
    end
  end.

Definition fetchAllAccessibleRepos (fuel : nat) (token : string)
    : M (option (list Repo * option error)) :=
  listPages fuel token 1 [].

End Listing.

(** ** A test double of the library

    [formatRFC3339] is the real thing for UTC (days to civil date, then
    [2006-01-02T15:04:05Z]); the decoders know the few bodies the
    examples below send. *)

Module Demo.

Definition digit (n : Z) : string :=
  String (Ascii.ascii_of_nat (48 + Z.to_nat (n `mod` 10))) "".

Definition pad2 (n : Z) : string := digit (n `div` 10) +:+ digit n.
Definition pad4 (n : Z) : string := pad2 (n `div` 100) +:+ pad2 n.

Definition civil (days : Z) : Z * Z * Z :=
  let z := days + 719468 in
  let era := z `div` 146097 in
  let doe := z - era * 146097 in
  let yoe := (doe - doe `div` 1460 + doe `div` 36524 - doe `div` 146096)
             `div` 365 in
  let doy := doe - (365 * yoe + yoe `div` 4 - yoe `div` 100) in
  let mp := (5 * doy + 2) `div` 153 in
  let d := doy - (153 * mp + 2) `div` 5 + 1 in
  let m := if mp <? 10 then mp + 3 else mp - 9 in
  let y := yoe + era * 400 + (if m <=? 2 then 1 else 0) in
  (y, m, d).

Definition format (t : Z) : string :=
  let secs := t `div` 1000000000 in
  let '(y, m, d) := civil (secs `div` 86400) in
  let sod := secs `mod` 86400 in
  pad4 y +:+ "-" +:+ pad2 m +:+ "-" +:+ pad2 d +:+ "T" +:+
  pad2 (sod `div` 3600) +:+ ":" +:+ pad2 ((sod `div` 60) `mod` 60) +:+ ":" +:+
  pad2 (sod `mod` 60) +:+ "Z".

Definition week (n : Z) : weeklyStat := {| Total := n; Week := 0; Days := [] |}.

Definition commit (date msg : string) : commitListItem :=
  {| SHA := "c0ffee"; Commit_Author_Date := date; Commit_Message := msg |}.

Definition longMessage : string :=
  "0123456789012345678901234567890123456789012345678901234567890123456789012345678901234567890123456789tail".

(** A message of 61 characters in 121 bytes: an [a], then sixty times
    the two bytes [0xC3 0xA9] of an e with acute accent. *)
Definition eAcute : string :=
  String (Ascii.ascii_of_nat 195) (String (Ascii.ascii_of_nat 169) "").

Definition accented : string := "a" +:+ Nat.iter 60 (String.append eAcute) "".

Definition people (n : nat) : list contributor :=
  map (fun i => {| Login := "dev"; Contributions := Z.of_nat (n - i) |}) (seq 0 n).

#[export] Instance library : Library := {|
  unmarshalCommits body :=
    if String.eqb body "[]" then inr []
    else if String.eqb body "[short]" then
      inr [commit "2025-03-01T10:00:00Z" "fix typo"]
    else if String.eqb body "[long]" then
      inr [commit "2025-03-02T10:00:00Z" longMessage]
    else if String.eqb body "[accents]" then
      inr [commit "2025-03-02T10:00:00Z" accented]
    else inl (UnmarshalError "invalid character");
  unmarshalWeeks body :=
    if String.eqb body "[]" then inr []
    else if String.eqb body "[3,0,4]" then inr [week 3; week 0; week 4]
    else if String.eqb body "" then
      inl (UnmarshalError "unexpected end of JSON input")
    else inl (UnmarshalError "invalid character");
  unmarshalLanguages body :=
    if String.eqb body "{}" then inr ∅
    else if String.eqb body "{Go:1200}" then inr {[ "Go" := 1200 ]}
    else inl (UnmarshalError "invalid character");
  unmarshalContributors body :=
    if String.eqb body "[]" then inr []
    else if String.eqb body "[3]" then inr (people 3)
    else if String.eqb body "[10]" then inr (people 10)
    else inl (UnmarshalError "invalid character");
  parseRFC3339 s :=
    if String.eqb s "2025-03-01T10:00:00Z" then Some 1740823200000000000
    else if String.eqb s "2024-01-01T00:00:00Z" then Some 1704067200000000000
    else None;
  formatRFC3339 := format;
  humanSizeFromKB kb := if kb <=? 0 then "0 B" else "some"
|}.

Definition world (answers : list (string * list Response)) : World :=
  {| server := fun u =>
       match find (fun p => String.eqb (fst p) u) answers with
       | Some p => snd p
       | None => []
       end;
     requests := []; sent := []; slept := []; stdout := []; completed := 0 |}.

Definition repo (full lang : string) : GH.ghRepo :=
  {| GH.Name := full; GH.FullName := full; GH.Description := "";
     GH.Private := false; GH.Fork := false; GH.Archived := false;
     GH.Disabled := false; GH.Language := lang; GH.SizeKB := 12;
     GH.StargazersCount := 1; GH.WatchersCount := 1; GH.ForksCount := 0;
     GH.OpenIssuesCount := 0; GH.DefaultBranch := "main";
     GH.CreatedAt := "2024-01-01T00:00:00Z";
     GH.UpdatedAt := "2025-03-01T10:00:00Z";
     GH.PushedAt := "yesterday";
     GH.HTMLURL := ""; GH.Homepage := ""; GH.Topics := ["tool"];
     GH.HasIssues := true; GH.HasProjects := false; GH.HasWiki := false;
     GH.HasPages := false; GH.HasDownloads := true;
     GH.Owner_Login := "o"; GH.Owner_Type := "User";
     GH.License_Key := "mit"; GH.License_Name := "MIT License";
     GH.License_SPDX := "MIT" |}.

End Demo.

(** ** Vocabulary of the statements *)

Definition commitsURL (fullName : string) : string :=
  "https://api.github.com/repos/" +:+ fullName +:+ "/commits?per_page=1".
Definition activityURL (fullName : string) : string :=
  "https://api.github.com/repos/" +:+ fullName +:+ "/stats/commit_activity".
Definition languagesURL (fullName : string) : string :=
  "https://api.github.com/repos/" +:+ fullName +:+ "/languages".
Definition contributorsURL (fullName : string) : string :=
  "https://api.github.com/repos/" +:+ fullName +:+ "/contributors?per_page=10".

(** The request [doGET] sends. *)
Definition request (url token : string) : Request :=
  {| req_url := url; req_Authorization := "Bearer " +:+ token;
     req_Accept := "application/vnd.github+json";
     req_UserAgent := "gitlore-enricher" |}.

(** What a call of [doGET] for [url] hands to [client.Do], given what
    the call meets: the request, or nothing when [http.NewRequest]
    fails. *)
Definition outgoing (url token : string) (answers : list Response)
    : list Request :=
  match answers with
  | NewRequestFails _ :: _ => []
  | _ => [request url token]
  end.

(** What a call of [doGET] leaves of what the endpoint held: all of it
    when [http.NewRequest] fails, all but the answer taken otherwise. *)
Definition leftBy (answers : list Response) : list Response :=
  match answers with
  | NewRequestFails _ :: _ => answers
  | _ => tail answers
  end.

(** The next [n] answers of an endpoint all carry status 202. *)
Fixpoint computingFor (n : nat) (rs : list Response) : bool :=
  match n with
  | O => true
  | S n' =>
    match rs with
    | Answer status _ :: rs' => (status =? 202) && computingFor n' rs'
    | _ => false
    end
  end.

(** The HTTP status an answer carries, if it carries one. *)
Definition statusOf (r : Response) : option Z :=
  match r with
  | NewRequestFails _ => None
  | DoFails _ => None
  | ReadFails status _ => Some status
  | Answer status _ => Some status
  end.

(** The world after [n] rounds of "request, 202, sleep" that began at
    attempt [attempt]. *)
Fixpoint retried (n : nat) (url token : string) (attempt : Z) (w : World)
    : World :=
  match n with
  | O => w
  | S n' =>
    retried n' url token (attempt + 1)
      (Sleep (nth (Z.to_nat attempt) backoffs 0) (doGET url token w).2).2
  end.

(** Exact sum of a list of integers, and its largest and smallest
    element. *)
Definition total (l : list Z) : Z := foldr Z.add 0 l.

Definition latest (l : list Z) : option Z :=
  match l with [] => None | t :: ts => Some (fold_left Z.max ts t) end.
Definition earliest (l : list Z) : option Z :=
  match l with [] => None | t :: ts => Some (fold_left Z.min ts t) end.

(** The stamp the summary shows for an instant that may be missing. *)
Definition stampOf `{Library} (t : option Z) : string :=
  match t with Some t => formatRFC3339 t | None => "" end.

(** The instants a timestamp field of the records parses to. *)
Definition parsed `{Library} (field : outRepo → string) (out : list outRepo)
    : list Z :=
  omap (λ r, parseRFC3339 (field r)) out.

(** How many elements of a list satisfy a test. *)
Definition count {A} (f : A → bool) (l : list A) : Z :=
  Z.of_nat (length (filter (fun x => f x = true) l)).

(** A summary without its [GeneratedAt] stamp. *)
Definition figures (s : Sum.summary) :=
  (Sum.RepoCounts s, Sum.Size s, Sum.Engagement s, Sum.Languages s,
   Sum.Topics s, Sum.Licenses s, Sum.Activity s, Sum.Enrichment s).

(** A summary without its [Activity] stamps. *)
Definition untimed (s : Sum.summary) :=
  (Sum.GeneratedAt s, Sum.RepoCounts s, Sum.Size s, Sum.Engagement s,
   Sum.Languages s, Sum.Topics s, Sum.Licenses s, Sum.Enrichment s).

(** A record with other timestamp strings. *)
Definition withTimestamps (created updated pushed : string) (r : outRepo)
    : outRepo :=
  {| Name := Name r; FullName := FullName r; Description := Description r;
     Private := Private r; Fork := Fork r; Archived := Archived r;
     Disabled := Disabled r; Language := Language r; Topics := Topics r;
     Homepage := Homepage r; DefaultBranch := DefaultBranch r;
     SizeKB := SizeKB r; SizeReadable := SizeReadable r;
     Stars := Stars r; Forks := Forks r; Watchers := Watchers r;
     OpenIssues := OpenIssues r;
     CreatedAt := created; UpdatedAt := updated; PushedAt := pushed;
     HTMLURL := HTMLURL r;
     OwnerLogin := OwnerLogin r; OwnerType := OwnerType r;
     License := License r;
     HasIssues := HasIssues r; HasProjects := HasProjects r;
     HasWiki := HasWiki r; HasPages := HasPages r;
     HasDownloads := HasDownloads r;
     LastCommitAt := LastCommitAt r; LastCommitMessage := LastCommitMessage r;
     WeeklyCommits52W := WeeklyCommits52W r; WeeklyStats52W := WeeklyStats52W r;
     LanguageBreakdown := LanguageBreakdown r;
     TopContributors := TopContributors r;
     ContributorCount := ContributorCount r; TotalCommits := TotalCommits r;
     StatsCachePending := StatsCachePending r |}.

(** The tests behind two of the coverage counters. *)
Definition hasStats52W (r : outRepo) : bool := len (WeeklyCommits52W r) >? 0.
Definition isPending (r : outRepo) : bool := StatsCachePending r.

(** The first [k] writes of job [i], in program order. *)
Fixpoint storeUpTo (res : nat → JobResults) (k i : nat) (r : outRepo)
    : outRepo :=
  match k with
  | O => r
  | S k' => storeStep res k' i (storeUpTo res k' i r)
  end.

(** The record list once every job has made its four writes. *)
Definition enriched (res : nat → JobResults) (out0 : list outRepo)
    : list outRepo :=
  imap (storeAll res) out0.

(** What holds of the pool between two moves; [prog i] is the number of
    writes job [i] has made. *)
Record PoolInv (res : nat → JobResults) (out0 : list outRepo) (p : Pool)
    (prog : nat → nat) : Prop := {
  inv_out : ∀ i r0, out0 !! i = Some r0 →
            out p !! i = Some (storeUpTo res (prog i) i r0);
  inv_len : length (out p) = length out0;
  inv_jobs : ∀ i, i ∈ jobs p →
             prog i = 0%nat ∧ (i < length out0)%nat
             ∧ ∀ w pc, workers p !! w ≠ Some (Busy i pc);
  inv_nodup : NoDup (jobs p);
  inv_busy : ∀ w i pc, workers p !! w = Some (Busy i pc) →
             prog i = pc ∧ (pc ≤ 3)%nat ∧ (i < length out0)%nat;
  inv_owner : ∀ w1 w2 i pc1 pc2,
              workers p !! w1 = Some (Busy i pc1) →
              workers p !! w2 = Some (Busy i pc2) → w1 = w2;
  inv_done : ∀ i, (i < length out0)%nat → i ∉ jobs p →
             (∀ w pc, workers p !! w ≠ Some (Busy i pc)) → prog i = 4%nat
}.

(** An aggregation state whose summary carries another [GeneratedAt]. *)
Definition restamp (generatedAt : string) (a : AggState) : AggState :=
  {| sum :=
       {| Sum.GeneratedAt := generatedAt;
          Sum.RepoCounts := Sum.RepoCounts (sum a);
          Sum.Size := Sum.Size (sum a);
          Sum.Engagement := Sum.Engagement (sum a);
          Sum.Languages := Sum.Languages (sum a);
          Sum.Topics := Sum.Topics (sum a);
          Sum.Licenses := Sum.Licenses (sum a);
          Sum.Activity := Sum.Activity (sum a);
          Sum.Enrichment := Sum.Enrichment (sum a) |};
     newestUpdate := newestUpdate a; newestPush := newestPush a;
     oldestCreated := oldestCreated a; oldestUpdate := oldestUpdate a;
     hasUpdate := hasUpdate a; hasPush := hasPush a;
     hasCreated := hasCreated a; hasOldUpdate := hasOldUpdate a |}.

(** The one line a job may print. *)
Definition progressLine (c total : Z) : Printed :=
  {| fmt_format := "  Progress: %d/%d repositories enriched\n";
     fmt_args := [c; total] |}.

(** ** Scenarios

    Small worlds and record lists on which the statements below are run. *)

Module Scenario.

Definition full : string := "o/a".

(** The activity endpoint never gets ready. *)
Definition pendingWorld : World :=
  Demo.world [(activityURL full, replicate 5 (Answer 202 ""))].

(** It is ready at the third request. *)
Definition readyWorld : World :=
  Demo.world
    [(activityURL full,
      [Answer 202 ""; Answer 202 ""; Answer 200 "[3,0,4]"])].

(** It breaks at the third request. *)
Definition brokenWorld : World :=
  Demo.world
    [(activityURL full,
      [Answer 202 ""; Answer 202 ""; Answer 500 "server error";
       Answer 200 "[3,0,4]"])].

Definition longWorld : World :=
  Demo.world [(commitsURL full, [Answer 200 "[long]"])].

Definition fullPageWorld : World :=
  Demo.world [(contributorsURL full, [Answer 200 "[10]"])].

(** A repository without commits, and the same repository when the
    commits endpoint fails. *)
Definition others : list (string * list Response) :=
  [(activityURL full, [Answer 200 "[3,0,4]"]);
   (languagesURL full, [Answer 200 "{Go:1200}"]);
   (contributorsURL full, [Answer 200 "[3]"])].

Definition emptyRepoWorld : World :=
  Demo.world ((commitsURL full, [Answer 200 "[]"]) :: others).

Definition failingWorld : World :=
  Demo.world ((commitsURL full, [Answer 500 "server error"]) :: others).

Definition listed : list GH.ghRepo :=
  [Demo.repo "o/a" "Go"; Demo.repo "o/b" "Go"; Demo.repo "o/c" ""].

Definition base : list outRepo := map (@baseRecord Demo.library) listed.

(** What the enrichers answer for each record: the first is left
    pending, the others get their weeks. *)
Definition answers (i : nat) : JobResults :=
  {| resLastCommit := ("2025-03-01T10:00:00Z", "fix typo", None);
     resActivity :=
       match i with
       | O => ([], true, None)
       | _ => ([Demo.week 3; Demo.week 0; Demo.week 4], false, None)
       end;
     resLanguages := ({[ "Go" := 1200 ]}, None);
     resContributors := (Demo.people 3, 3, None) |}.

(** One worker doing everything, and three workers taking turns. *)
Definition alone : list nat := replicate 15 0%nat.
Definition inTurns : list nat :=
  [0; 1; 2; 2; 1; 0; 0; 1; 2; 2; 1; 0; 1; 0; 2]%nat.

Definition enrichedRecords : list outRepo := enriched answers base.

(** Three repositories: the activity of [o/a] never gets ready, that of
    [o/b] is ready at the second request, [o/c] has no commits. *)
Definition threeRepos : World :=
  Demo.world
    [(commitsURL "o/a", [Answer 200 "[short]"]);
     (activityURL "o/a", replicate 5 (Answer 202 ""));
     (languagesURL "o/a", [Answer 200 "{Go:1200}"]);
     (contributorsURL "o/a", [Answer 200 "[3]"]);
     (commitsURL "o/b", [Answer 200 "[long]"]);
     (activityURL "o/b", [Answer 202 ""; Answer 200 "[3,0,4]"]);
     (languagesURL "o/b", [Answer 200 "{}"]);
     (contributorsURL "o/b", [Answer 200 "[10]"]);
     (commitsURL "o/c", [Answer 200 "[]"]);
     (activityURL "o/c", [Answer 200 "[3,0,4]"]);
     (languagesURL "o/c", [Answer 404 "not found"]);
     (contributorsURL "o/c", [Answer 200 "[]"])].

Definition oneRun : list outRepo :=
  (@enrichInOrder Demo.library "t" 3 base threeRepos).1.

End Scenario.

(** ** Vocabulary of the further statements *)

(** The URL of the [page]-th page of the listing. *)
Definition listURL (page : Z) : string :=
  "https://api.github.com/user/repos?per_page=" +:+ pretty 100
  +:+ "&page=" +:+ pretty page
  +:+ "&sort=updated&affiliation=" +:+ "owner,collaborator,organization_member".

(** The listing's page [k + 1] is there, with a success status, and
    decodes to [page]. *)
Definition goodPage {Repo} (unmarshalRepos : string → error + list Repo)
    (w : World) (k : nat) (page : list Repo) : Prop :=
  ∃ status body rest,
    server w (listURL (Z.of_nat k + 1)) = Answer status body :: rest
    ∧ 200 ≤ status < 300
    ∧ unmarshalRepos body = inr page.

(** The error [doGET] and the checks after it make of an answer that is
    no good page; [None] when the answer is a good page. *)
Definition pageError {Repo} (unmarshalRepos : string → error + list Repo)
    (answers : list Response) : option error :=
  match answers with
  | [] => Some (TransportError "connection failed")
  | NewRequestFails e :: _ => Some e
  | DoFails e :: _ => Some e
  | ReadFails _ e :: _ => Some e
  | Answer status body :: _ =>
    if (status <? 200) || (status >=? 300)
    then Some (ErrorfBody "github api error %d: %s" status body)
    else match unmarshalRepos body with inl e => Some e | inr _ => None end
  end.

(** The attributes of a record that come from the listing. *)
Definition baseOf (r : outRepo) :=
  (Name r, FullName r, Description r, Private r, Fork r, Archived r,
   Disabled r, Language r, Topics r, Homepage r, DefaultBranch r,
   SizeKB r, SizeReadable r, Stars r, Forks r, Watchers r, OpenIssues r,
   CreatedAt r, UpdatedAt r, PushedAt r, HTMLURL r, OwnerLogin r,
   OwnerType r, License r, HasIssues r, HasProjects r, HasWiki r,
   HasPages r, HasDownloads r).

(** The test of the job's progress line, on the new value of the
    counter. *)
Definition reported (total c : Z) : bool := (Z.rem c 5 =? 0) || (c =? total).

(** The part of the aggregation state that the listed attributes of the
    records decide: everything but [Engagement.TotalCommits] and the
    [Enrichment] counters. *)
Definition aggBase (a : AggState) :=
  (Sum.GeneratedAt (sum a), Sum.RepoCounts (sum a), Sum.Size (sum a),
   Sum.TotalStars (Sum.Engagement (sum a)),
   Sum.TotalForks (Sum.Engagement (sum a)),
   Sum.TotalWatchers (Sum.Engagement (sum a)),
   Sum.Languages (sum a), Sum.Topics (sum a), Sum.Licenses (sum a),
   Sum.Activity (sum a),
   (newestUpdate a, hasUpdate a), (newestPush a, hasPush a),
   (oldestCreated a, hasCreated a), (oldestUpdate a, hasOldUpdate a)).

(** The same part of a finished summary. *)
Definition summaryBase (s : Sum.summary) :=
  (Sum.GeneratedAt s, Sum.RepoCounts s, Sum.Size s,
   Sum.TotalStars (Sum.Engagement s), Sum.TotalForks (Sum.Engagement s),
   Sum.TotalWatchers (Sum.Engagement s),
   Sum.Languages s, Sum.Topics s, Sum.Licenses s, Sum.Activity s).

(** ** A listing in three pages *)

Module Pages.

(** The decoder of the listing's bodies, for the few bodies the worlds
    below send. *)
Definition unmarshalRepos (body : string) : error + list GH.ghRepo :=
  if String.eqb body "[]" then inr []
  else if String.eqb body "[a,b]" then
    inr [Demo.repo "o/a" "Go"; Demo.repo "o/b" "Go"]
  else if String.eqb body "[c]" then inr [Demo.repo "o/c" ""]
  else inl (UnmarshalError "invalid character").

Definition pages : list (list GH.ghRepo) :=
  [[Demo.repo "o/a" "Go"; Demo.repo "o/b" "Go"]; [Demo.repo "o/c" ""]].

(** Two pages, then the empty page that ends the listing. *)
Definition complete : World :=
  Demo.world [(listURL 1, [Answer 200 "[a,b]"]);
              (listURL 2, [Answer 200 "[c]"]);
              (listURL 3, [Answer 200 "[]"])].

(** The same listing when the third page is refused. *)
Definition refused : World :=
  Demo.world [(listURL 1, [Answer 200 "[a,b]"]);
              (listURL 2, [Answer 200 "[c]"]);
              (listURL 3, [Answer 403 "rate limited"])].

(** The record of [o/a] and that of [o/c], before any job. *)
Definition recordA : outRepo := @baseRecord Demo.library (Demo.repo "o/a" "Go").
Definition recordC : outRepo := @baseRecord Demo.library (Demo.repo "o/c" "").

End Pages.

(** * The viewer: [renderer/app.js]

    The page reads [repos_index_enriched.json], validates it and draws a
    district per repository. Embedded here are the validation of the
    file and the colour of a language; the rest of the script is
    floating point, random numbers and the scene graph. *)

Module JS.

(** A value as [JSON.parse] returns it. The functions embedded here
    never look at the payload of a number. *)
#[warnings="-register-all"]
Inductive value : Type :=
| Null
| Boolean (b : bool)
| Number (x : Z)
| Str (s : string)
| Array (items : list value)
| Object (props : gmap string value).

(** [typeof v]; [None] is [undefined]. *)
Definition typeof (v : option value) : string :=
  match v with
  | None => "undefined"
  | Some Null => "object"
  | Some (Boolean _) => "boolean"
  | Some (Number _) => "number"
  | Some (Str _) => "string"
  | Some (Array _) => "object"
  | Some (Object _) => "object"
  end.

(** [Array.isArray(v)] *)
Definition isArray (v : option value) : bool :=
  match v with Some (Array _) => true | _ => false end.

(** [r[k]] for [r] an object or an array read from JSON and [k] one of
    the names the validation asks for: the own property of an object,
    [undefined] on an array. *)
Definition get (r : value) (k : string) : option value :=
  match r with Object props => props !! k | _ => None end.

(** [k in r], for the same [r] and [k]. *)
Definition has (k : string) (r : value) : bool :=
  match get r k with Some _ => true | None => false end.

Record validation : Type := { ok : bool; errors : list string }.

(** [errors.push(msg)] *)
Definition push (msg : string) (errors : list string) : list string :=
  errors ++ [msg].

Definition required : list string :=
  ["name"; "full_name"; "size_kb"; "size_readable"; "updated_at"; "html_url"].

(** The body of [data.forEach((r, i) => { ... })]. *)
Definition checkRepo (errors : list string) (i : nat) (r : value) : list string :=
  let here := "Repo[" +:+ pretty i +:+ "]" in
  if negb (String.eqb (typeof (Some r)) "object")
     || match r with Null => true | _ => false end
  then push (here +:+ " must be an object.") errors
  else
    let errors :=
      fold_left (fun errors k =>
                   if negb (has k r)
                   then push (here +:+ " missing required field: " +:+ k) errors
                   else errors)
                required errors in
    let errors :=
      if negb (String.eqb (typeof (get r "name")) "string")
      then push (here +:+ ".name must be string") errors else errors in
    let errors :=
      if negb (String.eqb (typeof (get r "full_name")) "string")
      then push (here +:+ ".full_name must be string") errors else errors in
    let errors :=
      if negb (String.eqb (typeof (get r "size_kb")) "number")
      then push (here +:+ ".size_kb must be number") errors else errors in
    let errors :=
      if negb (String.eqb (typeof (get r "size_readable")) "string")
      then push (here +:+ ".size_readable must be string") errors else errors in
    let errors :=
      if negb (String.eqb (typeof (get r "updated_at")) "string")
      then push (here +:+ ".updated_at must be string") errors else errors in
    let errors :=
      if negb (String.eqb (typeof (get r "html_url")) "string")
      then push (here +:+ ".html_url must be string") errors else errors in
    let errors :=
      if has "weekly_commits_52w" r
         && negb (isArray (get r "weekly_commits_52w"))
      then push (here +:+ ".weekly_commits_52w must be array if present") errors
      else errors in
    errors.

Definition validateRepos (data : value) : validation :=
  let errors := [] in
  if negb (isArray (Some data)) then
    {| ok := false; errors := push "Root must be an array of repos." errors |}
  else
    let items := match data with Array items => items | _ => [] end in
    let errors :=
      fold_left (fun errors ir => checkRepo errors (fst ir) (snd ir))
                (imap pair items) errors in
    {| ok := (length errors =? 0)%nat; errors := errors |}.

(** The 32-bit integer operators: [x >>> 0], the conversion to a signed
    32-bit integer that [>>], [<<], [&] and [|] apply to their operands,
    and these four. *)
Definition toUint32 (x : Z) : Z := x `mod` 2 ^ 32.
Definition toInt32 (x : Z) : Z := (x + 2 ^ 31) `mod` 2 ^ 32 - 2 ^ 31.
Definition sar (a n : Z) : Z := Z.shiftr (toInt32 a) n.
Definition shl (a n : Z) : Z := toInt32 (Z.shiftl (toInt32 a) n).
Definition band (a b : Z) : Z := Z.land (toInt32 a) (toInt32 b).
Definition bor (a b : Z) : Z := Z.lor (toInt32 a) (toInt32 b).

(** A string of the script is the list of its UTF-16 code units; this
    is the list of an ASCII literal. *)
Definition codeUnits (s : string) : list Z :=
  map (fun c => Z.of_nat (Ascii.nat_of_ascii c)) (String.list_ascii_of_string s).

Definition languagePalette : list (list Z * Z) :=
  [(codeUnits "TypeScript", 0x4da3ff);
   (codeUnits "JavaScript", 0xffd166);
   (codeUnits "Go", 0x00d4ff);
   (codeUnits "Rust", 0xff6b6b);
   (codeUnits "Python", 0x9b5de5);
   (codeUnits "C++", 0x5ef38c);
   (codeUnits "C", 0x7bdff2);
   (codeUnits "HTML", 0xff5ea8);
   (codeUnits "CSS", 0x6ee7ff);
   (codeUnits "Shell", 0xd0f4de);
   (codeUnits "Kotlin", 0xff8fab);
   (codeUnits "Swift", 0xffc6ff)].

(** [languagePalette.get(lang)], [None] when [languagePalette.has(lang)]
    is false. *)
Definition paletteGet (lang : list Z) : option Z :=
  match find (fun entry => bool_decide (fst entry = lang)) languagePalette with
  | Some entry => Some (snd entry)
  | None => None
  end.

(** The loop [for (let i = 0; i < lang.length; i++)
    h = (h * 31 + lang.charCodeAt(i)) >>> 0], from [h]. *)
Definition hashFrom (h : Z) (lang : list Z) : Z :=
  fold_left (fun h c => toUint32 (h * 31 + c)) lang h.

(** [colorForLanguage(lang)] for [lang] a string, or [null] or
    [undefined] ([None]). *)
Definition colorForLanguage (lang : option (list Z)) : Z :=
  match lang with
  | None => 0x9aa4ff
  | Some units =>
    if bool_decide (units = []) then 0x9aa4ff
    else
      match paletteGet units with
      | Some color => color
      | None =>
        let h := hashFrom 0 units in
        let r := 80 + band h 0x7f in
        let g := 80 + band (sar h 7) 0x7f in
        let b := 120 + band (sar h 14) 0x7f in
        bor (bor (shl r 16) (shl g 8)) b
      end
  end.

End JS.

(** A record the validation has nothing to say about: an object whose
    six required fields are there with their types, and whose
    [weekly_commits_52w], if there, is an array. *)
Definition wellFormed (r : JS.value) : Prop :=
  ∃ props, r = JS.Object props
    ∧ (∀ k, k ∈ ["name"; "full_name"; "size_readable"; "updated_at";
                 "html_url"] → ∃ s, props !! k = Some (JS.Str s))
    ∧ (∃ x, props !! "size_kb" = Some (JS.Number x))
    ∧ (∀ v, props !! "weekly_commits_52w" = Some v → ∃ items, v = JS.Array items).

(** The red, green and blue bytes of a colour [0xRRGGBB]. *)
Definition channels (c : Z) : Z * Z * Z :=
  (Z.land (Z.shiftr c 16) 255, Z.land (Z.shiftr c 8) 255, Z.land c 255).

(** A file of two records, the second one without its size. *)
Definition sampleRecord (size : option JS.value) : JS.value :=
  JS.Object
    (let props : gmap string JS.value :=
       {[ "name" := JS.Str "a"; "full_name" := JS.Str "o/a";
          "size_readable" := JS.Str "12 KB";
          "updated_at" := JS.Str "2025-03-01T10:00:00Z";
          "html_url" := JS.Str "https://github.com/o/a";
          "weekly_commits_52w" := JS.Array [JS.Number 3; JS.Number 0] ]} in
     match size with
     | Some v => <["size_kb" := v]> props
     | None => props
     end).

(** ** The two revisions side by side *)

(** Two decoders agree on a body: both fail, or both succeed and the
    items they decode show the same values under [f] and [g]. *)
Definition sameDecoding {A B C} (f : A → C) (g : B → C)
    (x : error + list A) (y : error + list B) : Prop :=
  match x, y with
  | inr a, inr b => map f a = map g b
  | inl _, inl _ => True
  | _, _ => False
  end.

(** Decoders for the structs of the earlier revision, for the same few
    bodies as the test double. The earlier structs have no [days]: a
    body whose [days] is ill-typed decodes here and fails there. *)
Module Earlier.

Definition unmarshalCommits (body : string) : error + list Rev1.commitListItem :=
  if String.eqb body "[]" then inr []
  else if String.eqb body "[short]" then
    inr [{| Rev1.SHA := "c0ffee";
            Rev1.Commit_Author_Date := "2025-03-01T10:00:00Z" |}]
  else inl (UnmarshalError "invalid character").

Definition unmarshalWeeks (body : string) : error + list Rev1.weeklyStat :=
  if String.eqb body "[]" then inr []
  else if String.eqb body "[3,0,4]" then
    inr [{| Rev1.Total := 3 |}; {| Rev1.Total := 0 |}; {| Rev1.Total := 4 |}]
  else if String.eqb body "[{total:3,days:x}]" then inr [{| Rev1.Total := 3 |}]
  else inl (UnmarshalError "invalid character").

(** The activity endpoint is ready at the second call, and the same
    endpoint sending a week with ill-typed [days]. *)
Definition world : World :=
  Demo.world
    [(commitsURL "o/a", [Answer 200 "[short]"]);
     (activityURL "o/a", [Answer 202 "{}"; Answer 200 "[3,0,4]"])].

Definition illTyped : World :=
  Demo.world [(activityURL "o/a", [Answer 200 "[{total:3,days:x}]"])].

End Earlier.

(** ** Characters and bytes *)

(** A byte [10xxxxxx], which continues a character of UTF-8 text. *)
Definition isContinuation (b : Ascii.ascii) : bool :=
  let n := Ascii.nat_of_ascii b in (128 <=? n)%nat && (n <? 192)%nat.

(** The number of characters of a UTF-8 string: its bytes that begin a
    character. *)
Fixpoint characters (s : string) : nat :=
  match s with
  | EmptyString => 0%nat
  | String b rest =>
    ((if isContinuation b then 0 else 1) + characters rest)%nat
  end.

Module Edge.

(** The last commit has the accented message. *)
Definition accentsWorld : World :=
  Demo.world [(commitsURL "o/a", [Answer 200 "[accents]"])].

(** The activity endpoint of a repository without content: 204 and no
    body. *)
Definition noContentWorld : World :=
  Demo.world [(activityURL "o/a", [Answer 204 ""])].

End Edge.

(** ** A full name whose URLs do not parse *)

Module Malformed.

(** [%zz] is no percent escape: [http.NewRequest] refuses every URL
    made with this name, at every call. *)
Definition full : string := "o/%zz".

Definition refusal : error := TransportError "invalid URL escape".

Definition world : World :=
  Demo.world
    [(commitsURL full, [NewRequestFails refusal]);
     (activityURL full, [NewRequestFails refusal]);
     (languagesURL full, [NewRequestFails refusal]);
     (contributorsURL full, [NewRequestFails refusal])].

Definition record : outRepo := @baseRecord Demo.library (Demo.repo full "Go").

End Malformed.

(** ** The test double: checks *)

Example format_epoch : Demo.format 0 = "1970-01-01T00:00:00Z".
Proof. reflexivity. Qed.

Example format_2025 : Demo.format 1740823200000000000 = "2025-03-01T10:00:00Z".
Proof. vm_compute. reflexivity. Qed.

Example format_zeroTime : Demo.format zeroTime = "0001-01-01T00:00:00Z".
Proof. vm_compute. reflexivity. Qed.

Example one_run_records :
  map (λ r, (StatsCachePending r, WeeklyCommits52W r, LastCommitAt r,
             ContributorCount r))
      Scenario.oneRun
  = [(true, [], "2025-03-01T10:00:00Z", 3);
     (false, [3; 0; 4], "2025-03-02T10:00:00Z", 10);
     (false, [3; 0; 4], "", 0)].
Proof. vm_compute. reflexivity. Qed.

Example one_run_summary :
  let s := @buildSummary Demo.library 0 Scenario.oneRun in
  Sum.ReposStatsPending (Sum.Enrichment s) = 1
  ∧ Sum.ReposWithLastCommit (Sum.Enrichment s) = 2
  ∧ Sum.ReposWithStats52W (Sum.Enrichment s) = 2
  ∧ Sum.ReposWithLanguages (Sum.Enrichment s) = 1
  ∧ Sum.TotalCommits (Sum.Engagement s) = 14
  ∧ Sum.Languages s = {[ "Go" := 2 ]}.
Proof. vm_compute. repeat split; reflexivity. Qed.

(** ** Machine integers: facts *)

Lemma wrap_id z : inRange z → wrap z = z.
Proof.
  unfold inRange, MinInt, MaxInt, wrap. intros Hz.
  change (2 ^ 64) with (2 * 2 ^ 63). rewrite Z.mod_small; lia.
Qed.

Lemma wrap_range z : inRange (wrap z).
Proof.
  unfold inRange, MinInt, MaxInt, wrap.
  pose proof (Z.mod_pos_bound (z + 2 ^ 63) (2 ^ 64)).
  change (2 ^ 64) with (2 * 2 ^ 63) in *. lia.
Qed.

Lemma wrap_add_l a b : wrap (wrap a + b) = wrap (a + b).
Proof.
  unfold wrap.
  replace ((a + 2 ^ 63) `mod` 2 ^ 64 - 2 ^ 63 + b + 2 ^ 63)
    with ((a + 2 ^ 63) `mod` 2 ^ 64 + b) by lia.
  rewrite Zplus_mod_idemp_l. do 2 f_equal. lia.
Qed.

Lemma add_wrap_l a b : add (wrap a) b = wrap (a + b).
Proof. apply wrap_add_l. Qed.

Lemma wrap_wrap a : wrap (wrap a) = wrap a.
Proof. apply wrap_id, wrap_range. Qed.

(** ** Strings: facts *)

Lemma substring_head n s :
  (n ≤ String.length s)%nat →
  ∃ rest, s = String.substring 0 n s +:+ rest
          ∧ String.length (String.substring 0 n s) = n.
Proof.
  revert s. induction n as [|n IH]; intros s Hn.
  - exists s. destruct s; simpl; auto.
  - destruct s as [|c s]; simpl in Hn; [lia|].
    destruct (IH s) as [rest [Hs Hl]]; [lia|].
    exists rest. split.
    + change (String c s = String c (String.substring 0 n s +:+ rest)).
      f_equal. exact Hs.
    + simpl. by rewrite Hl.
Qed.

Lemma append_inj_l p a b : p +:+ a = p +:+ b → a = b.
Proof.
  induction p as [|c p IH]; [done|].
  change (String c (p +:+ a) = String c (p +:+ b) → a = b).
  intros [=]. auto.
Qed.

(** ** The transport: facts *)

Section Transport.
Variables url token : string.
Variable w : World.

Lemma doGET_requests :
  requests (doGET url token w).2 = requests w ++ [request url token].
Proof. unfold doGET. by destruct (server w url) as [|[]]. Qed.

Lemma doGET_sent :
  sent (doGET url token w).2 = sent w ++ outgoing url token (server w url).
Proof.
  unfold doGET, outgoing.
  destruct (server w url) as [|[]]; simpl; by rewrite ?app_nil_r.
Qed.

Lemma doGET_server u :
  server (doGET url token w).2 u =
  if String.eqb u url then leftBy (server w u) else server w u.
Proof.
  unfold doGET, leftBy. destruct (String.eqb_spec u url) as [->|Hu].
  - destruct (server w url) as [|[]] eqn:Hhead; simpl;
      by rewrite ?String.eqb_refl, ?Hhead.
  - destruct (server w url) as [|[]]; simpl; try done;
      by destruct (String.eqb_spec u url).
Qed.

Lemma doGET_server_same :
  server (doGET url token w).2 url = leftBy (server w url).
Proof. by rewrite doGET_server, String.eqb_refl. Qed.

Lemma doGET_server_other u :
  u ≠ url → server (doGET url token w).2 u = server w u.
Proof.
  intros Hu. rewrite doGET_server.
  destruct (String.eqb_spec u url); congruence.
Qed.

Lemma doGET_quiet :
  slept (doGET url token w).2 = slept w
  ∧ stdout (doGET url token w).2 = stdout w
  ∧ completed (doGET url token w).2 = completed w.
Proof. unfold doGET. by destruct (server w url) as [|[]]. Qed.

Lemma doGET_answer status body rest :
  server w url = Answer status body :: rest →
  (doGET url token w).1 = (status, body, None).
Proof. unfold doGET. by intros ->. Qed.

(** The outcome of a request is decided by the endpoint's next answer. *)
Lemma doGET_ext w' :
  server w url = server w' url → (doGET url token w).1 = (doGET url token w').1.
Proof. unfold doGET. intros <-. by destruct (server w url) as [|[]]. Qed.

End Transport.

Lemma doGET_answered url token w status body rest :
  server w url = Answer status body :: rest →
  doGET url token w = ((status, body, None), (doGET url token w).2).
Proof. unfold doGET. by intros ->. Qed.

Lemma status_ok status :
  200 ≤ status < 300 → (status <? 200) || (status >=? 300) = false.
Proof. intros Hs. apply orb_false_iff. lia. Qed.

Lemma status_bad status :
  ¬ 200 ≤ status < 300 → (status <? 200) || (status >=? 300) = true.
Proof. intros Hs. apply orb_true_iff. lia. Qed.

(** ** The last commit *)

Section LastCommit.
Context `{Library}.
Variables token fullName : string.

Lemma fetchLastCommit_requests w :
  requests (fetchLastCommit token fullName w).2 =
  requests w ++ [request (commitsURL fullName) token].
Proof.
  unfold fetchLastCommit. fold (commitsURL fullName).
  unfold mbind, M_bind.
  rewrite <- (doGET_requests (commitsURL fullName) token w).
  destruct (doGET (commitsURL fullName) token w) as [[[status body] [e|]] w'];
    [done|].
  destruct ((status <? 200) || (status >=? 300)); [done|].
  by destruct (unmarshalCommits body) as [|[|]].
Qed.

(** C7. When the commits endpoint answers with a success status and an
    empty list of commits, [fetchLastCommit] returns an empty date, an
    empty message and a nil error. *)
Theorem fetchLastCommit_no_commits w status body rest :
  server w (commitsURL fullName) = Answer status body :: rest →
  200 ≤ status < 300 →
  unmarshalCommits body = inr [] →
  (fetchLastCommit token fullName w).1 = ("", "", None).
Proof.
  intros Hserver Hstatus Hbody.
  unfold fetchLastCommit. fold (commitsURL fullName).
  unfold mbind, M_bind. rewrite (doGET_answered _ _ _ _ _ _ Hserver).
  by rewrite status_ok, Hbody.
Qed.

(** C6. When the commits endpoint answers with a success status and at
    least one commit, [fetchLastCommit] returns the first commit's date,
    a nil error, and as message: the first 100 bytes of the commit's
    message followed by ["..."] if the message is longer than 100 bytes,
    the message itself otherwise. Lengths are Go's [len] and the cut is
    Go's [msg[:100]]: they count the bytes of the string, not its
    characters. *)
Theorem fetchLastCommit_truncates w status body rest c cs :
  server w (commitsURL fullName) = Answer status body :: rest →
  200 ≤ status < 300 →
  unmarshalCommits body = inr (c :: cs) →
  ∃ msg,
    (fetchLastCommit token fullName w).1 = (Commit_Author_Date c, msg, None)
    ∧ ((String.length (Commit_Message c) > 100)%nat →
       ∃ head dropped,
         Commit_Message c = head +:+ dropped
         ∧ String.length head = 100%nat
         ∧ msg = head +:+ "...")
    ∧ ((String.length (Commit_Message c) ≤ 100)%nat →
       msg = Commit_Message c).
Proof.
  intros Hserver Hstatus Hbody.
  unfold fetchLastCommit. fold (commitsURL fullName).
  unfold mbind, M_bind. rewrite (doGET_answered _ _ _ _ _ _ Hserver).
  rewrite status_ok, Hbody by done. unfold strlen.
  eexists. split; [reflexivity|]. split; intros Hlen.
  - destruct (Z.gtb_spec (Z.of_nat (String.length (Commit_Message c))) 100);
      [|lia].
    destruct (substring_head 100 (Commit_Message c)) as [dropped [Hm Hl]];
      [lia|].
    by exists (String.substring 0 100 (Commit_Message c)), dropped.
  - destruct (Z.gtb_spec (Z.of_nat (String.length (Commit_Message c))) 100);
      [lia|done].
Qed.

End LastCommit.

(** ** The contributors *)

Section Contributors.
Context `{Library}.
Variables token fullName : string.

(** C9. [fetchContributors] calls [doGET] once, for a page of at most 10
    contributors; when it is answered with a success status and a list
    that decodes, the function returns that list, a nil error, and as
    count the number of contributors on the page: 10 for a full page,
    whatever the repository's true total. *)
Theorem fetchContributors_counts_the_page :
  (∀ w, requests (fetchContributors token fullName w).2 =
        requests w ++ [request (contributorsURL fullName) token])
  ∧ (∃ base, contributorsURL fullName = base +:+ "?per_page=10")
  ∧ (∀ w status body rest contribs,
       server w (contributorsURL fullName) = Answer status body :: rest →
       200 ≤ status < 300 →
       unmarshalContributors body = inr contribs →
       (fetchContributors token fullName w).1 =
         (contribs, len contribs, None)
       ∧ (length contribs = 10%nat →
          (fetchContributors token fullName w).1 = (contribs, 10, None))).
Proof.
  split; [|split].
  - intros w. unfold fetchContributors. fold (contributorsURL fullName).
    unfold mbind, M_bind.
    rewrite <- (doGET_requests (contributorsURL fullName) token w).
    destruct (doGET (contributorsURL fullName) token w)
      as [[[status body] [e|]] w']; [done|].
    destruct ((status <? 200) || (status >=? 300)); [done|].
    by destruct (unmarshalContributors body).
  - exists ("https://api.github.com/repos/" +:+ fullName +:+ "/contributors").
    unfold contributorsURL.
    generalize "https://api.github.com/repos/" as base.
    intros base. induction base as [|a base IH].
    + induction fullName as [|b full IH]; [done|].
      change (String b (full +:+ "/contributors?per_page=10") =
              String b ((full +:+ "/contributors") +:+ "?per_page=10")).
      f_equal. exact IH.
    + change (String a (base +:+ fullName +:+ "/contributors?per_page=10") =
              String a ((base +:+ fullName +:+ "/contributors")
                        +:+ "?per_page=10")).
      f_equal. exact IH.
  - intros w status body rest contribs Hserver Hstatus Hbody.
    unfold fetchContributors. fold (contributorsURL fullName).
    unfold mbind, M_bind. rewrite (doGET_answered _ _ _ _ _ _ Hserver).
    rewrite status_ok, Hbody by done. unfold len.
    destruct (Z.eqb_spec (Z.of_nat (length contribs)) 10) as [->|Hne].
    + done.
    + split; [done|]. lia.
Qed.

End Contributors.

(** ** The commit activity and its retries *)

Lemma computingFor_next n status body rs :
  computingFor (S n) (Answer status body :: rs) = true →
  status = 202 ∧ computingFor n rs = true.
Proof. simpl. intros [Hs Hn]%andb_true_iff. split; [lia|done]. Qed.

Lemma computingFor_cons n rs :
  computingFor (S n) rs = true →
  ∃ body rs', rs = Answer 202 body :: rs' ∧ computingFor n rs' = true.
Proof.
  destruct rs as [|[e|e|status e|status body] rs']; try done.
  intros [-> Hn]%computingFor_next. eauto.
Qed.

Lemma computingFor_drop n m rs :
  computingFor (n + m) rs = true →
  computingFor n rs = true ∧ computingFor m (drop n rs) = true.
Proof.
  revert rs. induction n as [|n IH]; intros rs; [done|].
  intros (body & rs' & -> & Hn)%computingFor_cons.
  destruct (IH _ Hn) as [H1 H2]. split; [|done].
  simpl. by rewrite H1.
Qed.

Lemma naps_0 k :
  (k ≤ 4)%nat → map (λ i, nth i backoffs 0) (seq 0 k) = take k backoffs.
Proof. intros Hk. do 5 (destruct k as [|k]; [done|]). lia. Qed.

Section Activity.
Context `{Library}.
Variables url token : string.

Lemma retried_server n : ∀ attempt w u,
  computingFor n (server w url) = true →
  server (retried n url token attempt w) u =
  if String.eqb u url then drop n (server w u) else server w u.
Proof.
  induction n as [|n IH]; intros attempt w u Hcomp; simpl.
  - by destruct (String.eqb u url).
  - apply computingFor_cons in Hcomp as (body & rs & Hw & Hcomp).
    rewrite IH; simpl; rewrite ?doGET_server_same, ?Hw; [|done].
    rewrite doGET_server.
    destruct (String.eqb_spec u url) as [->|Hu]; [|done].
    by rewrite Hw.
Qed.

Lemma retried_requests n : ∀ attempt w,
  requests (retried n url token attempt w) =
  requests w ++ replicate n (request url token).
Proof.
  induction n as [|n IH]; intros attempt w; simpl.
  - by rewrite app_nil_r.
  - rewrite IH. simpl. rewrite doGET_requests. by rewrite <- app_assoc.
Qed.

Lemma retried_slept n : ∀ attempt w,
  0 ≤ attempt →
  slept (retried n url token attempt w) =
  slept w ++ map (λ i, nth i backoffs 0) (seq (Z.to_nat attempt) n).
Proof.
  induction n as [|n IH]; intros attempt w Ha; simpl.
  - by rewrite app_nil_r.
  - rewrite IH by lia. simpl.
    destruct (doGET_quiet url token w) as (-> & _ & _).
    rewrite <- app_assoc. simpl.
    by replace (Z.to_nat (attempt + 1)) with (S (Z.to_nat attempt)) by lia.
Qed.

Lemma retried_quiet n : ∀ attempt w,
  stdout (retried n url token attempt w) = stdout w
  ∧ completed (retried n url token attempt w) = completed w.
Proof.
  induction n as [|n IH]; intros attempt w; [done|]. cbn [retried].
  destruct (IH (attempt + 1)
    (Sleep (nth (Z.to_nat attempt) backoffs 0) (doGET url token w).2).2)
    as [-> ->].
  simpl. by destruct (doGET_quiet url token w) as (_ & -> & ->).
Qed.

(** While the endpoint answers 202 and the table is not exhausted, the
    loop sleeps and asks again. *)
Lemma activityLoop_retry n : ∀ fuel attempt w,
  computingFor n (server w url) = true →
  0 ≤ attempt → attempt + Z.of_nat n ≤ 4 →
  activityLoop (n + fuel) url token attempt w =
  activityLoop fuel url token (attempt + Z.of_nat n)
    (retried n url token attempt w).
Proof.
  induction n as [|n IH]; intros fuel attempt w Hn Ha Hle.
  - simpl. by rewrite Z.add_0_r.
  - apply computingFor_cons in Hn as (body & rs & Hrs & Hn).
    change (S n + fuel)%nat with (S (n + fuel)).
    cbn [activityLoop retried].
    replace (attempt <=? len backoffs) with true
      by (symmetry; apply Z.leb_le; unfold len; simpl; lia).
    unfold mbind at 1, M_bind at 1.
    rewrite (doGET_answered _ _ _ _ _ _ Hrs).
    change (202 =? 202) with true. cbv iota.
    replace (attempt =? len backoffs) with false
      by (symmetry; apply Z.eqb_neq; unfold len; simpl; lia).
    unfold mbind, M_bind. cbn [Sleep].
    rewrite IH.
    + f_equal. lia.
    + simpl. by rewrite doGET_server_same, Hrs.
    + lia.
    + lia.
Qed.

(** Whatever the endpoint answers, the result of the loop is one of the
    three terminal shapes. *)
Lemma activityLoop_terminal fuel : ∀ attempt w,
  let '(weeks, pending, err) := (activityLoop fuel url token attempt w).1 in
  (pending = true → weeks = [] ∧ err = None)
  ∧ (err ≠ None → pending = false).
Proof.
  induction fuel as [|fuel IH]; intros attempt w; simpl; [done|].
  destruct (attempt <=? len backoffs); [|done].
  unfold mbind, M_bind.
  destruct (doGET url token w) as [[[status body] [e|]] w']; [done|].
  destruct (status =? 202).
  - destruct (attempt =? len backoffs); [done|]. simpl. apply IH.
  - destruct ((status <? 200) || (status >=? 300)); [done|].
    by destruct (unmarshalWeeks body).
Qed.

(** The loop touches nothing but its own endpoint, the request log and
    the clock, and asks at least once and at most [fuel] times. *)
Lemma activityLoop_footprint fuel : ∀ attempt w,
  fuel ≠ 0%nat → attempt ≤ 4 →
  let w' := (activityLoop fuel url token attempt w).2 in
  (∀ u, u ≠ url → server w' u = server w u)
  ∧ stdout w' = stdout w
  ∧ completed w' = completed w
  ∧ ∃ n, (1 ≤ n ≤ fuel)%nat
         ∧ requests w' = requests w ++ replicate n (request url token).
Proof.
  induction fuel as [|fuel IH]; intros attempt w Hfuel Ha; [done|].
  cbn [activityLoop].
  replace (attempt <=? len backoffs) with true
    by (symmetry; apply Z.leb_le; unfold len; simpl; lia).
  unfold mbind, M_bind.
  pose proof (doGET_requests url token w) as Hreq.
  pose proof (doGET_quiet url token w) as (_ & Hout & Hdone).
  pose proof (doGET_server_other url token w) as Hsrv.
  destruct (doGET url token w) as [[[status body] e] w1]. simpl in *.
  assert (Hstop :
    (∀ u, u ≠ url → server w1 u = server w u)
    ∧ stdout w1 = stdout w ∧ completed w1 = completed w
    ∧ ∃ n, (1 ≤ n ≤ S fuel)%nat
           ∧ requests w1 = requests w ++ replicate n (request url token)).
  { repeat split; try done. exists 1%nat. split; [lia|done]. }
  destruct e as [e|]; [done|].
  destruct (status =? 202).
  - destruct (Z.eqb_spec attempt (len backoffs)) as [Hlast|Hmore]; [done|].
    destruct fuel as [|fuel'].
    { simpl. repeat split; try done. exists 1%nat. split; [lia|done]. }
    unfold len in Hmore. simpl in Hmore.
    pose proof (IH (attempt + 1)
      (Sleep (nth (Z.to_nat attempt) backoffs 0) w1).2) as IH'.
    simpl in IH'. simpl.
    destruct IH' as (Hs & Ho & Hc & n & Hn & Hr); [done|lia|].
    split; [|split; [|split]].
    + intros u Hu. rewrite Hs by done. auto.
    + by rewrite Ho.
    + by rewrite Hc.
    + exists (S n). split; [lia|]. rewrite Hr, Hreq. simpl.
      by rewrite <- app_assoc.
  - destruct ((status <? 200) || (status >=? 300)); [done|].
    by destruct (unmarshalWeeks body).
Qed.

(** The result of the loop is decided by the answers its own endpoint
    holds in store. *)
Lemma activityLoop_ext fuel : ∀ attempt w1 w2,
  server w1 url = server w2 url →
  (activityLoop fuel url token attempt w1).1 =
  (activityLoop fuel url token attempt w2).1.
Proof.
  induction fuel as [|fuel IH]; intros attempt w1 w2 Hsame; [done|].
  cbn [activityLoop].
  destruct (attempt <=? len backoffs); [|done].
  unfold mbind, M_bind.
  pose proof (doGET_ext url token w1 w2 Hsame) as Hres.
  pose proof (doGET_server_same url token w1) as H1.
  pose proof (doGET_server_same url token w2) as H2.
  destruct (doGET url token w1) as [[[status body] e] w1'].
  destruct (doGET url token w2) as [[[status2 body2] e2] w2'].
  simpl in Hres, H1, H2. injection Hres as <- <- <-.
  destruct e as [e|]; [done|].
  destruct (status =? 202).
  - destruct (attempt =? len backoffs); [done|].
    apply IH. simpl. by rewrite H1, H2, Hsame.
  - destruct ((status <? 200) || (status >=? 300)); [done|].
    by destruct (unmarshalWeeks body).
Qed.

End Activity.

(** ** What the job stores of the commit activity *)

Lemma extractTotals_spec weeks : ∀ pre acc,
  inRange acc →
  extractTotals (length pre) weeks (pre ++ replicate (length weeks) 0, acc) =
  (pre ++ map Total weeks, wrap (acc + total (map Total weeks))).
Proof.
  induction weeks as [|w rest IH]; intros pre acc Hacc.
  - simpl. by rewrite Z.add_0_r, wrap_id.
  - cbn [extractTotals length replicate map fst snd].
    replace (<[length pre := Total w]> (pre ++ 0 :: replicate (length rest) 0))
      with ((pre ++ [Total w]) ++ replicate (length rest) 0).
    2:{ rewrite <- (Nat.add_0_r (length pre)) at 1.
        rewrite insert_app_r. simpl. by rewrite <- app_assoc. }
    replace (S (length pre)) with (length (pre ++ [Total w]))
      by (rewrite length_app; simpl; lia).
    rewrite IH by apply wrap_range.
    rewrite <- app_assoc. simpl. f_equal.
    unfold add, total. simpl. rewrite wrap_add_l. f_equal. lia.
Qed.

Lemma extractTotals_0 weeks :
  extractTotals 0 weeks (replicate (length weeks) 0, 0) =
  (map Total weeks, wrap (total (map Total weeks))).
Proof.
  apply (extractTotals_spec weeks [] 0).
  unfold inRange, MinInt, MaxInt. lia.
Qed.

Lemma storeActivity_ok weeks pending r :
  let r' := storeActivity (weeks, pending, None) r in
  WeeklyStats52W r' = weeks
  ∧ StatsCachePending r' = pending
  ∧ WeeklyCommits52W r' = map Total weeks
  ∧ TotalCommits r' = wrap (total (map Total weeks)).
Proof. unfold storeActivity. by rewrite extractTotals_0. Qed.

Lemma storeActivity_failed weeks pending e r :
  storeActivity (weeks, pending, Some e) r = r.
Proof. done. Qed.

Section ActivityResults.
Context `{Library}.
Variables token fullName : string.

Lemma activityLoop_stop fuel attempt w :
  attempt ≤ 4 →
  (∀ body rest,
     server w (activityURL fullName) = Answer 202 body :: rest → attempt = 4) →
  (activityLoop (S fuel) (activityURL fullName) token attempt w).2 =
  (doGET (activityURL fullName) token w).2.
Proof.
  intros Ha Hlast. cbn [activityLoop].
  replace (attempt <=? len backoffs) with true
    by (symmetry; apply Z.leb_le; unfold len; simpl; lia).
  unfold mbind, M_bind, doGET.
  destruct (server w (activityURL fullName)) as [|[e|e|status e|status body] rest];
    try done.
  destruct (Z.eqb_spec status 202) as [->|Hs].
  - rewrite (Hlast body rest eq_refl). done.
  - destruct ((status <? 200) || (status >=? 300)); [done|].
    by destruct (unmarshalWeeks body).
Qed.

Lemma fetch_after_retries k w :
  (k ≤ 4)%nat →
  computingFor k (server w (activityURL fullName)) = true →
  fetchCommitActivity52W token fullName w =
  activityLoop (S (4 - k)) (activityURL fullName) token (Z.of_nat k)
    (retried k (activityURL fullName) token 0 w).
Proof.
  intros Hk Hcomp. unfold fetchCommitActivity52W.
  fold (activityURL fullName).
  replace (S (length backoffs)) with (k + S (4 - k))%nat by (simpl; lia).
  by rewrite activityLoop_retry by (done || lia).
Qed.

Lemma retried_next k w resp :
  computingFor k (server w (activityURL fullName)) = true →
  server w (activityURL fullName) !! k = Some resp →
  ∃ rest,
    server (retried k (activityURL fullName) token 0 w) (activityURL fullName)
    = resp :: rest.
Proof.
  intros Hcomp Hk. rewrite retried_server, String.eqb_refl by done.
  exists (drop (S k) (server w (activityURL fullName))).
  by apply drop_S.
Qed.

(** C1. If the commit-activity endpoint answers 202 to all five
    requests (one per entry of the four-entry backoff table, plus the
    last), [fetchCommitActivity52W] returns an empty weekly sequence,
    pending true and a nil error, after exactly five requests and the
    four sleeps of the table, and the job marks the record pending with
    no weekly data. If, after [k ≤ 4] answers of 202, the endpoint
    answers with another success status, the function returns at that
    request, after [k] sleeps, with pending false, whatever the body: a
    body that decodes gives the decoded weeks, as many as the body
    holds, and a nil error, and the job stores them with one weekly
    total each; a body that does not decode gives no weeks and the
    decoder's error, and the job leaves the record as it was. *)
Theorem fetchCommitActivity52W_pending_or_ready w :
  let url := activityURL fullName in
  let fetched := fetchCommitActivity52W token fullName w in
  (computingFor 5 (server w url) = true →
     fetched.1 = ([], true, None)
     ∧ requests fetched.2 = requests w ++ replicate 5 (request url token)
     ∧ slept fetched.2 =
         slept w ++ [700 * Millisecond; 1200 * Millisecond;
                     2000 * Millisecond; 3000 * Millisecond]
     ∧ ∀ r, StatsCachePending (storeActivity fetched.1 r) = true
            ∧ WeeklyCommits52W (storeActivity fetched.1 r) = []
            ∧ WeeklyStats52W (storeActivity fetched.1 r) = [])
  ∧ (∀ k status body,
       (k ≤ 4)%nat →
       computingFor k (server w url) = true →
       server w url !! k = Some (Answer status body) →
       200 ≤ status < 300 → status ≠ 202 →
       fetched.1.1.2 = false
       ∧ requests fetched.2 = requests w ++ replicate (S k) (request url token)
       ∧ slept fetched.2 = slept w ++ take k backoffs
       ∧ match unmarshalWeeks body with
         | inr weeks =>
           fetched.1 = (weeks, false, None)
           ∧ ∀ r, StatsCachePending (storeActivity fetched.1 r) = false
                  ∧ WeeklyStats52W (storeActivity fetched.1 r) = weeks
                  ∧ WeeklyCommits52W (storeActivity fetched.1 r)
                    = map Total weeks
                  ∧ length (WeeklyCommits52W (storeActivity fetched.1 r))
                    = length weeks
         | inl err =>
           fetched.1 = ([], false, Some err)
           ∧ ∀ r, storeActivity fetched.1 r = r
         end).
Proof.
  intros url fetched. subst fetched url. split.
  - intros Hcomp.
    destruct (computingFor_drop 4 1 _ Hcomp) as [H4 H1].
    apply computingFor_cons in H1 as (body & rest & Hnext & _).
    rewrite (fetch_after_retries 4 w) by done.
    assert (Hresult :
      (activityLoop (S (4 - 4)) (activityURL fullName) token (Z.of_nat 4)
         (retried 4 (activityURL fullName) token 0 w)).1 = ([], true, None)).
    { assert (Hsrv :
        server (retried 4 (activityURL fullName) token 0 w)
          (activityURL fullName) = Answer 202 body :: rest)
        by (by rewrite retried_server, String.eqb_refl by done).
      cbn [activityLoop Nat.sub].
      change (Z.of_nat 4 <=? len backoffs) with true. cbv iota.
      unfold mbind, M_bind. by rewrite (doGET_answered _ _ _ _ _ _ Hsrv). }
    split; [done|]. rewrite Hresult. split; [|split].
    + rewrite activityLoop_stop by done.
      rewrite doGET_requests, retried_requests, <- app_assoc.
      by rewrite <- (replicate_S_end 4).
    + rewrite activityLoop_stop by done.
      destruct (doGET_quiet (activityURL fullName) token
        (retried 4 (activityURL fullName) token 0 w)) as (-> & _).
      by rewrite retried_slept.
    + intros r. by destruct (storeActivity_ok [] true r) as (-> & -> & -> & _).
  - intros k status body Hk Hcomp Hnext Hstatus H202.
    rewrite (fetch_after_retries k w) by done.
    destruct (retried_next k w _ Hcomp Hnext) as [rest Hrest].
    assert (Hworld :
      (activityLoop (S (4 - k)) (activityURL fullName) token (Z.of_nat k)
         (retried k (activityURL fullName) token 0 w)).2
      = (doGET (activityURL fullName) token
           (retried k (activityURL fullName) token 0 w)).2).
    { apply activityLoop_stop; [lia|].
      intros body' rest' Hr. rewrite Hr in Hrest.
      injection Hrest as <- _ _. done. }
    assert (Hresult :
      (activityLoop (S (4 - k)) (activityURL fullName) token (Z.of_nat k)
         (retried k (activityURL fullName) token 0 w)).1
      = match unmarshalWeeks body with
        | inr weeks => (weeks, false, None)
        | inl err => ([], false, Some err)
        end).
    { cbn [activityLoop].
      replace (Z.of_nat k <=? len backoffs) with true
        by (symmetry; apply Z.leb_le; unfold len; simpl; lia).
      unfold mbind, M_bind. rewrite (doGET_answered _ _ _ _ _ _ Hrest).
      replace (status =? 202) with false by (symmetry; by apply Z.eqb_neq).
      rewrite status_ok by done. by destruct (unmarshalWeeks body). }
    rewrite Hworld, Hresult.
    split; [by destruct (unmarshalWeeks body)|]. split; [|split].
    + rewrite doGET_requests, retried_requests, <- app_assoc.
      by rewrite <- replicate_S_end.
    + destruct (doGET_quiet (activityURL fullName) token
        (retried k (activityURL fullName) token 0 w)) as (-> & _).
      by rewrite retried_slept, naps_0.
    + destruct (unmarshalWeeks body) as [err|weeks].
      * split; [done|]. intros r. apply storeActivity_failed.
      * split; [done|]. intros r.
        destruct (storeActivity_ok weeks false r) as (-> & -> & -> & _).
        by rewrite length_map.
Qed.

(** C5. If, after [k ≤ 4] answers of 202, the commit-activity endpoint
    answers with a status outside 200..299, [fetchCommitActivity52W]
    returns at once: an error, an empty weekly sequence, pending false,
    that request being its last ([k + 1] requests, [k] sleeps). *)
Theorem fetchCommitActivity52W_fails_at_once w k resp status :
  let url := activityURL fullName in
  let fetched := fetchCommitActivity52W token fullName w in
  (k ≤ 4)%nat →
  computingFor k (server w url) = true →
  server w url !! k = Some resp →
  statusOf resp = Some status →
  ¬ 200 ≤ status < 300 →
  (∃ err, fetched.1 = ([], false, Some err))
  ∧ (∀ body, resp = Answer status body →
       fetched.1 = ([], false, Some (Errorf "commit_activity error %d" status)))
  ∧ requests fetched.2 = requests w ++ replicate (S k) (request url token)
  ∧ slept fetched.2 = slept w ++ take k backoffs.
Proof.
  intros url fetched Hk Hcomp Hnext Hstatus Hbad. subst fetched url.
  rewrite (fetch_after_retries k w) by done.
  destruct (retried_next k w _ Hcomp Hnext) as [rest Hrest].
  assert (H202 : status ≠ 202) by lia.
  assert (Hworld :
    (activityLoop (S (4 - k)) (activityURL fullName) token (Z.of_nat k)
       (retried k (activityURL fullName) token 0 w)).2
    = (doGET (activityURL fullName) token
         (retried k (activityURL fullName) token 0 w)).2).
  { apply activityLoop_stop; [lia|].
    intros body rest' Hr. rewrite Hr in Hrest.
    injection Hrest as <- _. simpl in Hstatus. congruence. }
  rewrite Hworld.
  assert (Hresult : ∀ body, resp = Answer status body →
    (activityLoop (S (4 - k)) (activityURL fullName) token (Z.of_nat k)
       (retried k (activityURL fullName) token 0 w)).1
    = ([], false, Some (Errorf "commit_activity error %d" status))).
  { intros body ->. cbn [activityLoop].
    replace (Z.of_nat k <=? len backoffs) with true
      by (symmetry; apply Z.leb_le; unfold len; simpl; lia).
    unfold mbind, M_bind. rewrite (doGET_answered _ _ _ _ _ _ Hrest).
    replace (status =? 202) with false by (symmetry; by apply Z.eqb_neq).
    by rewrite status_bad. }
  split; [|split; [done|split]].
  - destruct resp as [e|e|status' e|status' body]; simpl in Hstatus;
      [done|done| |].
    + exists e. cbn [activityLoop].
      replace (Z.of_nat k <=? len backoffs) with true
        by (symmetry; apply Z.leb_le; unfold len; simpl; lia).
      unfold mbind, M_bind, doGET. by rewrite Hrest.
    + injection Hstatus as ->. eauto.
  - rewrite doGET_requests, retried_requests, <- app_assoc.
    by rewrite <- replicate_S_end.
  - destruct (doGET_quiet (activityURL fullName) token
      (retried k (activityURL fullName) token 0 w)) as (-> & _).
    by rewrite retried_slept, naps_0.
Qed.

End ActivityResults.

(** ** The earlier revision behaves alike *)

Section Rev1Facts.
Variable unmarshalCommits : string → error + list Rev1.commitListItem.
Variable unmarshalWeeks : string → error + list Rev1.weeklyStat.
Variables token fullName : string.

Lemma rev1_totals weeks : ∀ acc,
  fold_left (λ out w, out ++ [Rev1.Total w]) weeks acc =
  acc ++ map Rev1.Total weeks.
Proof.
  induction weeks as [|w weeks IH]; intros acc; simpl.
  - by rewrite app_nil_r.
  - by rewrite IH, <- app_assoc.
Qed.

Lemma rev1_activityLoop_retry n : ∀ fuel attempt w,
  computingFor n (server w (activityURL fullName)) = true →
  0 ≤ attempt → attempt + Z.of_nat n ≤ 4 →
  Rev1.activityLoop unmarshalWeeks (n + fuel) (activityURL fullName) token
    attempt w =
  Rev1.activityLoop unmarshalWeeks fuel (activityURL fullName) token
    (attempt + Z.of_nat n) (retried n (activityURL fullName) token attempt w).
Proof.
  induction n as [|n IH]; intros fuel attempt w Hn Ha Hle.
  - simpl. by rewrite Z.add_0_r.
  - apply computingFor_cons in Hn as (body & rs & Hrs & Hn).
    change (S n + fuel)%nat with (S (n + fuel)).
    cbn [Rev1.activityLoop retried].
    replace (attempt <=? len backoffs) with true
      by (symmetry; apply Z.leb_le; unfold len; simpl; lia).
    unfold mbind at 1, M_bind at 1.
    rewrite (doGET_answered _ _ _ _ _ _ Hrs).
    change (202 =? 202) with true. cbv iota.
    replace (attempt =? len backoffs) with false
      by (symmetry; apply Z.eqb_neq; unfold len; simpl; lia).
    unfold mbind, M_bind. cbn [Sleep].
    rewrite IH.
    + f_equal. lia.
    + simpl. by rewrite doGET_server_same, Hrs.
    + lia.
    + lia.
Qed.

(** The terminal shapes, as for the later revision. *)
Lemma rev1_activity_terminal w :
  let '(weekly, pending, err) :=
    (Rev1.fetchCommitActivity52W unmarshalWeeks token fullName w).1 in
  (pending = true → weekly = [] ∧ err = None)
  ∧ (err ≠ None → pending = false).
Proof.
  unfold Rev1.fetchCommitActivity52W. fold (activityURL fullName).
  generalize (S (length backoffs)) as fuel, 0 as attempt. intros fuel.
  revert w. induction fuel as [|fuel IH]; intros w attempt; simpl; [done|].
  destruct (attempt <=? len backoffs); [|done].
  unfold mbind, M_bind.
  destruct (doGET (activityURL fullName) token w)
    as [[[status body] [e|]] w']; [done|].
  destruct (status =? 202).
  - destruct (attempt =? len backoffs); [done|]. simpl. apply IH.
  - destruct ((status <? 200) || (status >=? 300)); [done|].
    by destruct (unmarshalWeeks body).
Qed.

(** Five answers of 202: pending, no weekly data, no error. *)
Lemma rev1_activity_pending w :
  computingFor 5 (server w (activityURL fullName)) = true →
  (Rev1.fetchCommitActivity52W unmarshalWeeks token fullName w).1
  = ([], true, None).
Proof.
  intros Hcomp. destruct (computingFor_drop 4 1 _ Hcomp) as [H4 H1].
  apply computingFor_cons in H1 as (body & rest & Hnext & _).
  unfold Rev1.fetchCommitActivity52W. fold (activityURL fullName).
  change (S (length backoffs)) with (4 + 1)%nat.
  rewrite rev1_activityLoop_retry by (done || lia).
  assert (Hsrv :
    server (retried 4 (activityURL fullName) token 0 w)
      (activityURL fullName) = Answer 202 body :: rest)
    by (by rewrite retried_server, String.eqb_refl by done).
  cbn [Rev1.activityLoop].
  change (0 + Z.of_nat 4 <=? len backoffs) with true. cbv iota.
  unfold mbind, M_bind. by rewrite (doGET_answered _ _ _ _ _ _ Hsrv).
Qed.

(** After [k ≤ 4] answers of 202, a ready answer gives the weekly totals
    and an answer outside 200..299 an error, pending false either way. *)
Lemma rev1_activity_settled w k status body :
  (k ≤ 4)%nat →
  computingFor k (server w (activityURL fullName)) = true →
  server w (activityURL fullName) !! k = Some (Answer status body) →
  status ≠ 202 →
  (200 ≤ status < 300 →
   ∀ weeks, unmarshalWeeks body = inr weeks →
     (Rev1.fetchCommitActivity52W unmarshalWeeks token fullName w).1
     = (map Rev1.Total weeks, false, None))
  ∧ (¬ 200 ≤ status < 300 →
     (Rev1.fetchCommitActivity52W unmarshalWeeks token fullName w).1
     = ([], false,
        Some (ErrorfBody "commit_activity error %d: %s" status body))).
Proof.
  intros Hk Hcomp Hnext H202.
  unfold Rev1.fetchCommitActivity52W. fold (activityURL fullName).
  replace (S (length backoffs)) with (k + S (4 - k))%nat by (simpl; lia).
  rewrite rev1_activityLoop_retry by (done || lia).
  assert (Hsrv : ∃ rest,
    server (retried k (activityURL fullName) token 0 w) (activityURL fullName)
    = Answer status body :: rest).
  { rewrite retried_server, String.eqb_refl by done.
    exists (drop (S k) (server w (activityURL fullName))). by apply drop_S. }
  destruct Hsrv as [rest Hsrv].
  cbn [Rev1.activityLoop].
  replace (0 + Z.of_nat k <=? len backoffs) with true
    by (symmetry; apply Z.leb_le; unfold len; simpl; lia).
  unfold mbind, M_bind. rewrite (doGET_answered _ _ _ _ _ _ Hsrv).
  replace (status =? 202) with false by (symmetry; by apply Z.eqb_neq).
  split.
  - intros Hok weeks Hweeks. rewrite status_ok, Hweeks by done.
    by rewrite rev1_totals.
  - intros Hbad. by rewrite status_bad.
Qed.

(** No commits: an empty date and no error. *)
Lemma rev1_no_commits w status body rest :
  server w (commitsURL fullName) = Answer status body :: rest →
  200 ≤ status < 300 →
  unmarshalCommits body = inr [] →
  (Rev1.fetchLastCommitAt unmarshalCommits token fullName w).1 = ("", None).
Proof.
  intros Hserver Hstatus Hbody.
  unfold Rev1.fetchLastCommitAt. fold (commitsURL fullName).
  unfold mbind, M_bind. rewrite (doGET_answered _ _ _ _ _ _ Hserver).
  by rewrite status_ok, Hbody.
Qed.

End Rev1Facts.

(** ** The aggregator: sums and counts *)

Lemma count_cons {A} (f : A → bool) x l :
  count f (x :: l) = (if f x then 1 else 0) + count f l.
Proof.
  unfold count. rewrite filter_cons.
  destruct (decide (f x = true)) as [Hx|Hx]; destruct (f x); try done.
  simpl. lia.
Qed.

Lemma count_range {A} (f : A → bool) l : 0 ≤ count f l ≤ len l.
Proof.
  unfold count, len. pose proof (length_filter (λ x, f x = true) l). lia.
Qed.

Lemma fold_add {A} (f : A → Z) l : ∀ x,
  inRange x →
  fold_left (λ x r, add x (f r)) l x = wrap (x + total (map f l)).
Proof.
  induction l as [|r l IH]; intros x Hx; simpl.
  - by rewrite Z.add_0_r, wrap_id.
  - rewrite IH by apply wrap_range. unfold add.
    rewrite wrap_add_l. f_equal. lia.
Qed.

Lemma fold_incrIf {A} (f : A → bool) l : ∀ x,
  inRange x →
  fold_left (λ x r, if f r then incr x else x) l x = wrap (x + count f l).
Proof.
  induction l as [|r l IH]; intros x Hx.
  - simpl. unfold count. simpl. by rewrite Z.add_0_r, wrap_id.
  - cbn [fold_left]. rewrite count_cons. destruct (f r).
    + rewrite IH by apply wrap_range. unfold incr, add.
      rewrite wrap_add_l. f_equal. lia.
    + rewrite IH by done. f_equal.
Qed.

Lemma inRange_0 : inRange 0.
Proof. unfold inRange, MinInt, MaxInt. lia. Qed.

Lemma fold_bump (key : outRepo → string) k l : ∀ m : gmap string Z,
  k ≠ "" →
  inRange (default 0 (m !! k)) →
  default 0
    (fold_left (λ m r, if negb (String.eqb (key r) "")
                       then bump (key r) m else m) l m !! k)
  = wrap (default 0 (m !! k) + count (λ r, String.eqb (key r) k) l).
Proof.
  induction l as [|r l IH]; intros m Hk Hm.
  - simpl. unfold count. simpl. by rewrite Z.add_0_r, wrap_id.
  - cbn [fold_left]. rewrite count_cons.
    destruct (String.eqb_spec (key r) "") as [Hempty|Hfull]; cbn [negb].
    + rewrite IH by done.
      destruct (String.eqb_spec (key r) k) as [Heq|Hne]; [congruence|done].
    + destruct (String.eqb_spec (key r) k) as [Heq|Hne].
      * rewrite IH; [|done|].
        -- unfold bump. rewrite Heq, lookup_insert_eq. simpl.
           unfold incr, add. rewrite wrap_add_l. f_equal. lia.
        -- unfold bump. rewrite Heq, lookup_insert_eq. apply wrap_range.
      * rewrite IH; [|done|].
        -- unfold bump. by rewrite lookup_insert_ne.
        -- unfold bump. by rewrite lookup_insert_ne.
Qed.

Section AggregatorFacts.
Context `{Library}.

Lemma fold_TotalCommits out : ∀ a,
  Sum.TotalCommits (Sum.Engagement (sum (fold_left aggStep out a))) =
  fold_left (λ x r, add x (TotalCommits r)) out
    (Sum.TotalCommits (Sum.Engagement (sum a))).
Proof. induction out as [|r out IH]; intros a; [done|]. simpl. by rewrite IH. Qed.

Lemma fold_Languages out : ∀ a,
  Sum.Languages (sum (fold_left aggStep out a)) =
  fold_left (λ m r, if negb (String.eqb (Language r) "")
                    then bump (Language r) m else m) out
    (Sum.Languages (sum a)).
Proof. induction out as [|r out IH]; intros a; [done|]. simpl. by rewrite IH. Qed.

Lemma fold_Total out : ∀ a,
  Sum.Total (Sum.RepoCounts (sum (fold_left aggStep out a))) =
  fold_left (λ x r, if true then incr x else x) out
    (Sum.Total (Sum.RepoCounts (sum a))).
Proof. induction out as [|r out IH]; intros a; [done|]. simpl. by rewrite IH. Qed.

Lemma fold_ReposWithStats52W out : ∀ a,
  Sum.ReposWithStats52W (Sum.Enrichment (sum (fold_left aggStep out a))) =
  fold_left (λ x r, if hasStats52W r then incr x else x) out
    (Sum.ReposWithStats52W (Sum.Enrichment (sum a))).
Proof. induction out as [|r out IH]; intros a; [done|]. simpl. by rewrite IH. Qed.

Lemma fold_ReposStatsPending out : ∀ a,
  Sum.ReposStatsPending (Sum.Enrichment (sum (fold_left aggStep out a))) =
  fold_left (λ x r, if isPending r then incr x else x) out
    (Sum.ReposStatsPending (Sum.Enrichment (sum a))).
Proof. induction out as [|r out IH]; intros a; [done|]. simpl. by rewrite IH. Qed.

(** The sums and counts of the summary, in Go's arithmetic. *)
Lemma summary_totals_wrapped now out :
  Sum.TotalCommits (Sum.Engagement (buildSummary now out))
    = wrap (total (map TotalCommits out))
  ∧ ∀ k, k ≠ "" →
      default 0 (Sum.Languages (buildSummary now out) !! k)
      = wrap (count (λ r, String.eqb (Language r) k) out).
Proof.
  split.
  - unfold buildSummary. cbn [Sum.Engagement].
    rewrite fold_TotalCommits, fold_add by apply inRange_0. done.
  - intros k Hk. unfold buildSummary. cbn [Sum.Languages].
    rewrite fold_Languages, fold_bump; [done|done|].
    simpl. rewrite lookup_empty. apply inRange_0.
Qed.

(** C3. The summary's [Engagement.TotalCommits] is the sum of the
    records' [TotalCommits], and for every non-empty language [k] the
    summary's [Languages[k]] is the number of records whose [Language]
    is [k] (an absent key reads as zero). Both are computed in Go's
    [int], so they are the sum and the number reduced to 64 bits: the sum
    and the number themselves as long as the sum fits in an int, and the
    number of records does, as the length of a slice always does. *)
Theorem summary_totals now out :
  Sum.TotalCommits (Sum.Engagement (buildSummary now out))
    = wrap (total (map TotalCommits out))
  ∧ (inRange (total (map TotalCommits out)) →
     Sum.TotalCommits (Sum.Engagement (buildSummary now out))
       = total (map TotalCommits out))
  ∧ ∀ k, k ≠ "" →
      default 0 (Sum.Languages (buildSummary now out) !! k)
        = wrap (count (λ r, String.eqb (Language r) k) out)
      ∧ (len out ≤ MaxInt →
         default 0 (Sum.Languages (buildSummary now out) !! k)
           = count (λ r, String.eqb (Language r) k) out).
Proof.
  destruct (summary_totals_wrapped now out) as [Hcommits Hlangs].
  split; [done|]. split.
  - intros Hsum. by rewrite Hcommits, wrap_id.
  - intros k Hk. split; [by apply Hlangs|].
    intros Hlen. rewrite Hlangs by done. apply wrap_id.
    pose proof (count_range (λ r, String.eqb (Language r) k) out).
    unfold inRange, MinInt, MaxInt in *. lia.
Qed.

End AggregatorFacts.

(** ** The aggregator: timestamps *)

Lemma fold_max_ge ts : ∀ t, t ≤ fold_left Z.max ts t.
Proof.
  induction ts as [|u ts IH]; intros t; simpl; [lia|].
  specialize (IH (Z.max t u)). lia.
Qed.

Lemma fold_max_in ts : ∀ t,
  fold_left Z.max ts t ∈ t :: ts ∧ ∀ u, u ∈ ts → u ≤ fold_left Z.max ts t.
Proof.
  induction ts as [|v ts IH]; intros t; simpl.
  - split; [apply list_elem_of_here|]. by intros u ?%elem_of_nil.
  - destruct (IH (Z.max t v)) as [Hin Hle]. split.
    + apply elem_of_cons in Hin as [Heq|Hin].
      * rewrite Heq. destruct (Z.max_spec t v) as [[_ ->]|[_ ->]].
        -- apply list_elem_of_further, list_elem_of_here.
        -- apply list_elem_of_here.
      * by do 2 apply list_elem_of_further.
    + intros u [->|Hu]%elem_of_cons; [|auto].
      pose proof (fold_max_ge ts (Z.max t v)). lia.
Qed.

Lemma fold_min_le ts : ∀ t, fold_left Z.min ts t ≤ t.
Proof.
  induction ts as [|u ts IH]; intros t; simpl; [lia|].
  specialize (IH (Z.min t u)). lia.
Qed.

Lemma fold_min_in ts : ∀ t,
  fold_left Z.min ts t ∈ t :: ts ∧ ∀ u, u ∈ ts → fold_left Z.min ts t ≤ u.
Proof.
  induction ts as [|v ts IH]; intros t; simpl.
  - split; [apply list_elem_of_here|]. by intros u ?%elem_of_nil.
  - destruct (IH (Z.min t v)) as [Hin Hle]. split.
    + apply elem_of_cons in Hin as [Heq|Hin].
      * rewrite Heq. destruct (Z.min_spec t v) as [[_ ->]|[_ ->]].
        -- apply list_elem_of_here.
        -- apply list_elem_of_further, list_elem_of_here.
      * by do 2 apply list_elem_of_further.
    + intros u [->|Hu]%elem_of_cons; [|auto].
      pose proof (fold_min_le ts (Z.min t v)). lia.
Qed.

(** [latest] is the greatest element, [earliest] the least; they are
    missing exactly for the empty list. *)
Lemma latest_spec l m :
  latest l = Some m → m ∈ l ∧ ∀ t, t ∈ l → t ≤ m.
Proof.
  destruct l as [|t ts]; [done|]. intros [= <-].
  destruct (fold_max_in ts t) as [Hin Hle]. split; [done|].
  intros u [->|Hu]%elem_of_cons; [apply fold_max_ge|auto].
Qed.

Lemma earliest_spec l m :
  earliest l = Some m → m ∈ l ∧ ∀ t, t ∈ l → m ≤ t.
Proof.
  destruct l as [|t ts]; [done|]. intros [= <-].
  destruct (fold_min_in ts t) as [Hin Hle]. split; [done|].
  intros u [->|Hu]%elem_of_cons; [apply fold_min_le|auto].
Qed.

Section Timestamps.
Context `{Library}.

Lemma fold_newer_set {A} (f : A → option Z) l : ∀ cur,
  fold_left (λ st r, newer st.2 st.1 (f r)) l (cur, true) =
  (fold_left Z.max (omap f l) cur, true).
Proof.
  induction l as [|r l IH]; intros cur; [done|].
  cbn [fold_left omap list_omap]. unfold newer at 2. cbn [fst snd negb orb].
  destruct (f r) as [t|]; [|apply IH].
  destruct (Z.gtb_spec t cur).
  - rewrite IH. cbn [fold_left]. by rewrite Z.max_r by lia.
  - rewrite IH. cbn [fold_left]. by rewrite Z.max_l by lia.
Qed.

Lemma fold_newer {A} (f : A → option Z) l : ∀ cur,
  fold_left (λ st r, newer st.2 st.1 (f r)) l (cur, false) =
  match latest (omap f l) with
  | Some t => (t, true)
  | None => (cur, false)
  end.
Proof.
  induction l as [|r l IH]; intros cur; [done|].
  cbn [fold_left omap list_omap]. unfold newer at 2. cbn [fst snd negb orb].
  destruct (f r) as [t|]; [|apply IH].
  by rewrite fold_newer_set.
Qed.

Lemma fold_older_set {A} (f : A → option Z) l : ∀ cur,
  fold_left (λ st r, older st.2 st.1 (f r)) l (cur, true) =
  (fold_left Z.min (omap f l) cur, true).
Proof.
  induction l as [|r l IH]; intros cur; [done|].
  cbn [fold_left omap list_omap]. unfold older at 2. cbn [fst snd negb orb].
  destruct (f r) as [t|]; [|apply IH].
  destruct (Z.ltb_spec t cur).
  - rewrite IH. cbn [fold_left]. by rewrite Z.min_r by lia.
  - rewrite IH. cbn [fold_left]. by rewrite Z.min_l by lia.
Qed.

Lemma fold_older {A} (f : A → option Z) l : ∀ cur,
  fold_left (λ st r, older st.2 st.1 (f r)) l (cur, false) =
  match earliest (omap f l) with
  | Some t => (t, true)
  | None => (cur, false)
  end.
Proof.
  induction l as [|r l IH]; intros cur; [done|].
  cbn [fold_left omap list_omap]. unfold older at 2. cbn [fst snd negb orb].
  destruct (f r) as [t|]; [|apply IH].
  by rewrite fold_older_set.
Qed.

Lemma fold_newestUpdate out : ∀ a,
  (newestUpdate (fold_left aggStep out a), hasUpdate (fold_left aggStep out a))
  = fold_left (λ st r, newer st.2 st.1 (parseRFC3339 (UpdatedAt r))) out
      (newestUpdate a, hasUpdate a).
Proof.
  induction out as [|r out IH]; intros a; [done|].
  cbn [fold_left]. rewrite IH. f_equal. cbn [aggStep newestUpdate hasUpdate].
  symmetry. apply surjective_pairing.
Qed.

Lemma fold_newestPush out : ∀ a,
  (newestPush (fold_left aggStep out a), hasPush (fold_left aggStep out a))
  = fold_left (λ st r, newer st.2 st.1 (parseRFC3339 (PushedAt r))) out
      (newestPush a, hasPush a).
Proof.
  induction out as [|r out IH]; intros a; [done|].
  cbn [fold_left]. rewrite IH. f_equal. cbn [aggStep newestPush hasPush].
  symmetry. apply surjective_pairing.
Qed.

Lemma fold_oldestCreated out : ∀ a,
  (oldestCreated (fold_left aggStep out a), hasCreated (fold_left aggStep out a))
  = fold_left (λ st r, older st.2 st.1 (parseRFC3339 (CreatedAt r))) out
      (oldestCreated a, hasCreated a).
Proof.
  induction out as [|r out IH]; intros a; [done|].
  cbn [fold_left]. rewrite IH. f_equal. cbn [aggStep oldestCreated hasCreated].
  symmetry. apply surjective_pairing.
Qed.

Lemma fold_oldestUpdate out : ∀ a,
  (oldestUpdate (fold_left aggStep out a), hasOldUpdate (fold_left aggStep out a))
  = fold_left (λ st r, older st.2 st.1 (parseRFC3339 (UpdatedAt r))) out
      (oldestUpdate a, hasOldUpdate a).
Proof.
  induction out as [|r out IH]; intros a; [done|].
  cbn [fold_left]. rewrite IH. f_equal. cbn [aggStep oldestUpdate hasOldUpdate].
  symmetry. apply surjective_pairing.
Qed.

(** The summary under construction does not look at the timestamps. *)
Lemma aggStep_sum_untimed a a' r created updated pushed :
  sum a = sum a' →
  sum (aggStep a (withTimestamps created updated pushed r)) = sum (aggStep a' r).
Proof. intros Hsum. unfold aggStep. cbn [sum]. by rewrite Hsum. Qed.

Lemma fold_sum_untimed (created updated pushed : outRepo → string) out :
  ∀ a a',
  sum a = sum a' →
  sum (fold_left aggStep
         (map (λ r, withTimestamps (created r) (updated r) (pushed r) r) out) a)
  = sum (fold_left aggStep out a').
Proof.
  induction out as [|r out IH]; intros a a' Hsum; [done|].
  cbn [map fold_left]. apply IH. by apply aggStep_sum_untimed.
Qed.

(** C8. Each of the four activity stamps of the summary is taken over
    the records whose timestamp parses, and over them only: the latest
    parsed [UpdatedAt], the latest parsed [PushedAt], the earliest
    parsed [CreatedAt], the earliest parsed [UpdatedAt], or the empty
    string when no record's timestamp parses. A record whose timestamp
    does not parse is left out of that stamp, and every other field of
    the summary is what it would be had the timestamps been any other
    strings. *)
Theorem summary_activity_over_parsed now out :
  let s := buildSummary now out in
  Sum.MostRecentUpdate (Sum.Activity s) = stampOf (latest (parsed UpdatedAt out))
  ∧ Sum.MostRecentPush (Sum.Activity s) = stampOf (latest (parsed PushedAt out))
  ∧ Sum.OldestCreated (Sum.Activity s) = stampOf (earliest (parsed CreatedAt out))
  ∧ Sum.OldestUpdate (Sum.Activity s) = stampOf (earliest (parsed UpdatedAt out))
  ∧ (∀ before r after,
       out = before ++ r :: after →
       (parseRFC3339 (UpdatedAt r) = None →
          parsed UpdatedAt out = parsed UpdatedAt (before ++ after))
       ∧ (parseRFC3339 (PushedAt r) = None →
          parsed PushedAt out = parsed PushedAt (before ++ after))
       ∧ (parseRFC3339 (CreatedAt r) = None →
          parsed CreatedAt out = parsed CreatedAt (before ++ after)))
  ∧ (∀ created updated pushed : outRepo → string,
       untimed (buildSummary now
         (map (λ r, withTimestamps (created r) (updated r) (pushed r) r) out))
       = untimed s).
Proof.
  cbv zeta. unfold buildSummary.
  cbn [Sum.Activity Sum.MostRecentUpdate Sum.MostRecentPush
       Sum.OldestCreated Sum.OldestUpdate].
  pose proof (fold_newestUpdate out (aggInit now)) as Hnu.
  pose proof (fold_newestPush out (aggInit now)) as Hnp.
  pose proof (fold_oldestCreated out (aggInit now)) as Hoc.
  pose proof (fold_oldestUpdate out (aggInit now)) as Hou.
  cbn [aggInit newestUpdate hasUpdate newestPush hasPush oldestCreated
       hasCreated oldestUpdate hasOldUpdate] in Hnu, Hnp, Hoc, Hou.
  rewrite fold_newer in Hnu, Hnp. rewrite fold_older in Hoc, Hou.
  unfold parsed, stampOf.
  repeat split.
  - revert Hnu.
    destruct (latest (omap (λ r, parseRFC3339 (UpdatedAt r)) out));
      intros [= -> ->]; done.
  - revert Hnp.
    destruct (latest (omap (λ r, parseRFC3339 (PushedAt r)) out));
      intros [= -> ->]; done.
  - revert Hoc.
    destruct (earliest (omap (λ r, parseRFC3339 (CreatedAt r)) out));
      intros [= -> ->]; done.
  - revert Hou.
    destruct (earliest (omap (λ r, parseRFC3339 (UpdatedAt r)) out));
      intros [= -> ->]; done.
  - intros Hbad. subst out. rewrite !omap_app. simpl. by rewrite Hbad.
  - intros Hbad. subst out. rewrite !omap_app. simpl. by rewrite Hbad.
  - intros Hbad. subst out. rewrite !omap_app. simpl. by rewrite Hbad.
  - intros created updated pushed. unfold untimed.
    cbn [Sum.GeneratedAt Sum.RepoCounts Sum.Size Sum.Engagement
         Sum.Languages Sum.Topics Sum.Licenses Sum.Enrichment].
    by rewrite (fold_sum_untimed created updated pushed out
                  (aggInit now) (aggInit now)).
Qed.

End Timestamps.

(** ** The worker pool: every schedule fills the records alike *)

Lemma lookup_insert_worker (ws : list Worker) w x w' y :
  <[w := x]> ws !! w' = Some y →
  (w' = w ∧ y = x) ∨ (w' ≠ w ∧ ws !! w' = Some y).
Proof.
  destruct (decide (w' = w)) as [->|Hne].
  - intros Hl. left. split; [done|].
    assert (w < length ws)%nat as Hw.
    { apply lookup_lt_Some in Hl. by rewrite length_insert in Hl. }
    rewrite list_lookup_insert_eq in Hl by done. congruence.
  - rewrite list_lookup_insert_ne by done. auto.
Qed.

Section PoolFacts.
Variable res : nat → JobResults.
Variable out0 : list outRepo.

Lemma startPool_inv nworkers :
  PoolInv res out0 (startPool nworkers out0) (λ _, 0%nat).
Proof.
  split; simpl.
  - done.
  - done.
  - intros i [_ Hi]%elem_of_seq. repeat split; [lia|].
    intros w pc [? _]%lookup_replicate. done.
  - apply NoDup_seq.
  - intros w i pc [? _]%lookup_replicate. done.
  - intros w1 w2 i pc1 pc2 [? _]%lookup_replicate. done.
  - intros i Hi Hnot. exfalso. apply Hnot, elem_of_seq. lia.
Qed.

Lemma take_job_inv p prog w i rest :
  PoolInv res out0 p prog →
  workers p !! w = Some Idle →
  jobs p = i :: rest →
  PoolInv res out0
    {| jobs := rest; workers := <[w := Busy i 0]> (workers p); out := out p |}
    prog.
Proof.
  intros [Hout Hlen Hjobs Hnodup Hbusy Howner Hdone] Hw Hq.
  rewrite Hq in Hjobs, Hnodup, Hdone.
  apply NoDup_cons in Hnodup as [Hfresh Hnodup].
  destruct (Hjobs i) as (Hp0 & HiN & Hfree); [apply list_elem_of_here|].
  assert (Hlt : (w < length (workers p))%nat) by by eapply lookup_lt_Some.
  split; simpl.
  - done.
  - done.
  - intros j Hj.
    destruct (Hjobs j) as (? & ? & Hnone); [by apply list_elem_of_further|].
    repeat split; [done..|].
    intros w' pc [[-> [= -> ->]]|[_ Hold]]%lookup_insert_worker;
      [done|by eapply Hnone].
  - done.
  - intros w' j pc [[-> [= -> ->]]|[_ Hold]]%lookup_insert_worker.
    + repeat split; [done|lia|done].
    + by eapply Hbusy.
  - intros w1 w2 j pc1 pc2 H1%lookup_insert_worker H2%lookup_insert_worker.
    destruct H1 as [[-> Heq1]|[Hn1 Hold1]], H2 as [[-> Heq2]|[Hn2 Hold2]];
      simplify_eq; try done.
    + by destruct (Hfree _ _ Hold2).
    + by destruct (Hfree _ _ Hold1).
    + by eapply Howner.
  - intros j Hj Hnotin Hnone.
    destruct (decide (j = i)) as [->|Hji].
    + destruct (Hnone w 0%nat). by apply list_lookup_insert_eq.
    + apply Hdone; [done| |].
      * by intros [?|?]%elem_of_cons.
      * intros w' pc Hold. destruct (decide (w' = w)) as [->|Hne];
          [congruence|].
        apply (Hnone w' pc). by rewrite list_lookup_insert_ne.
Qed.

Lemma write_inv p prog w i pc r :
  PoolInv res out0 p prog →
  workers p !! w = Some (Busy i pc) →
  out p !! i = Some r →
  PoolInv res out0
    {| jobs := jobs p;
       workers := <[w := if (pc <? 3)%nat then Busy i (S pc) else Idle]>
                    (workers p);
       out := <[i := storeStep res pc i r]> (out p) |}
    (λ j, if decide (j = i) then S pc else prog j).
Proof.
  intros [Hout Hlen Hjobs Hnodup Hbusy Howner Hdone] Hw Hr.
  destruct (Hbusy _ _ _ Hw) as (Hpi & Hpc & HiN).
  assert (Hlt : (w < length (workers p))%nat) by by eapply lookup_lt_Some.
  assert (Hqueue : ∀ j, j ∈ jobs p → j ≠ i).
  { intros j Hj ->. destruct (Hjobs i Hj) as (_ & _ & Hnone).
    by destruct (Hnone _ _ Hw). }
  split; simpl.
  - intros j r0 Hj. destruct (decide (j = i)) as [->|Hji].
    + rewrite list_lookup_insert_eq by (rewrite Hlen; done).
      specialize (Hout _ _ Hj). rewrite Hr, Hpi in Hout.
      injection Hout as ->. done.
    + rewrite list_lookup_insert_ne by done. auto.
  - by rewrite length_insert.
  - intros j Hj. destruct (Hjobs j Hj) as (Hp0 & HjN & Hnone).
    rewrite decide_False by auto. repeat split; [done..|].
    intros w' pc' [[-> Heq]|[_ Hold]]%lookup_insert_worker.
    + destruct (pc <? 3)%nat; [|done]. injection Heq as -> ->.
      by apply (Hqueue i).
    + by eapply Hnone.
  - done.
  - intros w' j pc' [[-> Heq]|[Hne Hold]]%lookup_insert_worker.
    + destruct (Nat.ltb_spec pc 3); [|done]. injection Heq as -> ->.
      rewrite decide_True by done. repeat split; [lia|done].
    + destruct (decide (j = i)) as [->|Hji].
      * by destruct Hne; eapply Howner.
      * by eapply Hbusy.
  - intros w1 w2 j pc1 pc2
      [[-> Heq1]|[Hn1 Hold1]]%lookup_insert_worker
      [[-> Heq2]|[Hn2 Hold2]]%lookup_insert_worker; try done.
    + destruct (pc <? 3)%nat; [|done]. injection Heq1 as -> ->.
      by destruct Hn2; eapply Howner.
    + destruct (pc <? 3)%nat; [|done]. injection Heq2 as -> ->.
      by destruct Hn1; eapply Howner.
    + by eapply Howner.
  - intros j Hj Hnotin Hnone. destruct (decide (j = i)) as [->|Hji].
    + destruct (Nat.ltb_spec pc 3) as [Hless|Hlast]; [|lia].
      destruct (Hnone w (S pc)).
      rewrite list_lookup_insert_eq by done.
      by replace (pc <? 3)%nat with true by (symmetry; by apply Nat.ltb_lt).
    + apply Hdone; [done..|].
      intros w' pc' Hold. destruct (decide (w' = w)) as [->|Hne];
        [congruence|].
      apply (Hnone w' pc'). by rewrite list_lookup_insert_ne.
Qed.

Lemma workerStep_inv p prog w :
  PoolInv res out0 p prog →
  ∃ prog', PoolInv res out0 (workerStep res p w) prog'.
Proof.
  intros Hinv. unfold workerStep.
  destruct (workers p !! w) as [[|i pc]|] eqn:Hw.
  - destruct (jobs p) as [|i rest] eqn:Hq; [by exists prog|].
    exists prog. by apply take_job_inv.
  - destruct (out p !! i) as [r|] eqn:Hr; [|by exists prog].
    eexists. by apply write_inv.
  - by exists prog.
Qed.

Lemma runPool_inv sched : ∀ p prog,
  PoolInv res out0 p prog →
  ∃ prog', PoolInv res out0 (runPool res sched p) prog'.
Proof.
  induction sched as [|w sched IH]; intros p prog Hinv; [by exists prog|].
  destruct (workerStep_inv p prog w Hinv) as [prog' Hinv'].
  simpl. by eapply IH.
Qed.

Lemma finished_idle p w i pc :
  finished p = true → workers p !! w ≠ Some (Busy i pc).
Proof.
  unfold finished. destruct (jobs p); [|done].
  intros Hall Hw. rewrite forallb_forall in Hall.
  specialize (Hall (Busy i pc)). simpl in Hall.
  assert (false = true) as Habs; [|done].
  apply Hall, list_elem_of_In. by eapply list_elem_of_lookup_2.
Qed.

(** When [wg.Wait()] returns, every record holds the four writes of its
    own job, whatever the number of workers and the order of their
    moves. *)
Lemma pool_fills_records nworkers sched :
  finished (runPool res sched (startPool nworkers out0)) = true →
  out (runPool res sched (startPool nworkers out0)) = enriched res out0.
Proof.
  intros Hfin.
  destruct (runPool_inv sched _ _ (startPool_inv nworkers)) as [prog Hinv].
  set (p := runPool res sched (startPool nworkers out0)) in *.
  destruct Hinv as [Hout Hlen Hjobs Hnodup Hbusy Howner Hdone].
  apply list_eq. intros i. unfold enriched. rewrite list_lookup_imap.
  destruct (out0 !! i) as [r0|] eqn:Hi; simpl.
  - rewrite (Hout _ _ Hi). rewrite Hdone; [done| | |].
    + by eapply lookup_lt_Some.
    + unfold finished in Hfin. destruct (jobs p); [|done].
      apply not_elem_of_nil.
    + intros w pc. by apply finished_idle.
  - apply lookup_ge_None. rewrite Hlen. by apply lookup_ge_None.
Qed.

End PoolFacts.

(** ** The worker pool: some schedule finishes *)

Section PoolProgress.
Variable res : nat → JobResults.

Lemma write_by_worker0 q ws o i pc r :
  o !! i = Some r →
  workerStep res {| jobs := q; workers := Busy i pc :: ws; out := o |} 0 =
  {| jobs := q;
     workers := (if (pc <? 3)%nat then Busy i (S pc) else Idle) :: ws;
     out := <[i := storeStep res pc i r]> o |}.
Proof. intros Hr. unfold workerStep. simpl. by rewrite Hr. Qed.

Lemma job_by_worker0 q ws o i :
  (i < length o)%nat →
  ∃ o', length o' = length o
        ∧ runPool res [0; 0; 0; 0; 0]%nat
            {| jobs := i :: q; workers := Idle :: ws; out := o |}
          = {| jobs := q; workers := Idle :: ws; out := o' |}.
Proof.
  intros Hi. unfold runPool. cbn [fold_left].
  change (workerStep res {| jobs := i :: q; workers := Idle :: ws; out := o |} 0)
    with {| jobs := q; workers := Busy i 0 :: ws; out := o |}.
  destruct (lookup_lt_is_Some_2 o i Hi) as [r0 Hr0].
  rewrite (write_by_worker0 _ _ _ _ _ _ Hr0). cbn [Nat.ltb Nat.leb].
  set (o1 := <[i := storeStep res 0 i r0]> o).
  assert (Hr1 : o1 !! i = Some (storeStep res 0 i r0))
    by by apply list_lookup_insert_eq.
  rewrite (write_by_worker0 _ _ _ _ _ _ Hr1). cbn [Nat.ltb Nat.leb].
  set (o2 := <[i := storeStep res 1 i (storeStep res 0 i r0)]> o1).
  assert (Hr2 : o2 !! i = Some (storeStep res 1 i (storeStep res 0 i r0))).
  { apply list_lookup_insert_eq. unfold o1. by rewrite length_insert. }
  rewrite (write_by_worker0 _ _ _ _ _ _ Hr2). cbn [Nat.ltb Nat.leb].
  set (o3 := <[i := storeStep res 2 i
                      (storeStep res 1 i (storeStep res 0 i r0))]> o2).
  assert (Hr3 : o3 !! i = Some (storeStep res 2 i
                  (storeStep res 1 i (storeStep res 0 i r0)))).
  { apply list_lookup_insert_eq. unfold o2, o1. by rewrite !length_insert. }
  rewrite (write_by_worker0 _ _ _ _ _ _ Hr3). cbn [Nat.ltb Nat.leb].
  eexists. split; [|reflexivity].
  unfold o3, o2, o1. by rewrite !length_insert.
Qed.

Lemma drain_by_worker0 q : ∀ ws o,
  (∀ i, i ∈ q → (i < length o)%nat) →
  forallb isIdle ws = true →
  ∃ sched,
    finished (runPool res sched
                {| jobs := q; workers := Idle :: ws; out := o |}) = true.
Proof.
  induction q as [|i q IH]; intros ws o Hq Hws.
  - by exists [].
  - destruct (job_by_worker0 q ws o i) as (o' & Hlen & Hrun).
    { apply Hq, list_elem_of_here. }
    destruct (IH ws o') as [sched Hfin]; [|done|].
    { intros j Hj. rewrite Hlen. by apply Hq, list_elem_of_further. }
    exists ([0; 0; 0; 0; 0]%nat ++ sched).
    unfold runPool in *. by rewrite fold_left_app, Hrun.
Qed.

(** With at least one worker, [wg.Wait()] can return. *)
Lemma pool_can_finish nworkers out0 :
  (0 < nworkers)%nat →
  ∃ sched, finished (runPool res sched (startPool nworkers out0)) = true.
Proof.
  intros Hn. destruct nworkers as [|n]; [lia|]. clear Hn.
  unfold startPool. cbn [replicate]. apply drain_by_worker0.
  - by intros i [_ ?]%elem_of_seq.
  - induction n as [|n IH]; [done|]. simpl. exact IH.
Qed.

End PoolProgress.

(** ** The summary and the clock *)

Lemma summary_eq (s1 s2 : Sum.summary) :
  Sum.GeneratedAt s1 = Sum.GeneratedAt s2 → figures s1 = figures s2 → s1 = s2.
Proof.
  destruct s1, s2. unfold figures. simpl. intros -> [= -> -> -> -> -> -> -> ->].
  done.
Qed.

Section Clock.
Context `{Library}.

Lemma aggStep_restamp g a r :
  aggStep (restamp g a) r = restamp g (aggStep a r).
Proof. reflexivity. Qed.

Lemma fold_restamp g out : ∀ a,
  fold_left aggStep out (restamp g a) = restamp g (fold_left aggStep out a).
Proof.
  induction out as [|r out IH]; intros a; [done|].
  cbn [fold_left]. by rewrite aggStep_restamp, IH.
Qed.

Lemma buildSummary_GeneratedAt now out :
  Sum.GeneratedAt (buildSummary now out) = formatRFC3339 now.
Proof.
  unfold buildSummary. cbn [Sum.GeneratedAt].
  change (aggInit now) with (restamp (formatRFC3339 now) (aggInit now)).
  by rewrite fold_restamp.
Qed.

(** The clock reaches the summary through [GeneratedAt] alone. *)
Lemma buildSummary_figures now1 now2 out :
  figures (buildSummary now1 out) = figures (buildSummary now2 out).
Proof.
  unfold buildSummary.
  change (aggInit now1) with (restamp (formatRFC3339 now1) (aggInit now2)).
  by rewrite fold_restamp.
Qed.

(** C2, amended. For a fixed record list and fixed answers of the
    enrichers for every record, any two runs of the pool that reach
    [wg.Wait()], with any numbers of workers and any orders of their
    moves, leave the same records, and the summaries built from them
    agree on every field but [GeneratedAt], which is the time at which
    the summary was built; they agree on it too when the clock reads
    the same. *)
Theorem summary_independent_of_schedule
    res out0 nworkers1 nworkers2 sched1 sched2 now1 now2 :
  let p1 := runPool res sched1 (startPool nworkers1 out0) in
  let p2 := runPool res sched2 (startPool nworkers2 out0) in
  finished p1 = true →
  finished p2 = true →
  out p1 = enriched res out0
  ∧ out p2 = enriched res out0
  ∧ figures (buildSummary now1 (out p1)) = figures (buildSummary now2 (out p2))
  ∧ (formatRFC3339 now1 = formatRFC3339 now2 →
     buildSummary now1 (out p1) = buildSummary now2 (out p2)).
Proof.
  intros p1 p2 Hfin1 Hfin2. subst p1 p2.
  rewrite (pool_fills_records res out0 nworkers1 sched1 Hfin1).
  rewrite (pool_fills_records res out0 nworkers2 sched2 Hfin2).
  repeat split; [apply buildSummary_figures|].
  intros Hclock. apply summary_eq; [|apply buildSummary_figures].
  by rewrite !buildSummary_GeneratedAt.
Qed.

End Clock.

(** ** The enrichment job: one enricher does not disturb another *)

Lemma urls_differ fullName (a b : string) :
  a ≠ b →
  "https://api.github.com/repos/" +:+ fullName +:+ a ≠
  "https://api.github.com/repos/" +:+ fullName +:+ b.
Proof. intros Hab Heq. by apply Hab, (append_inj_l fullName), (append_inj_l _ _ _ Heq). Qed.

Section JobFacts.
Context `{Library}.
Variables token fullName : string.

Lemma fetchLastCommit_world w :
  (fetchLastCommit token fullName w).2 =
  (doGET (commitsURL fullName) token w).2.
Proof.
  unfold fetchLastCommit. fold (commitsURL fullName). unfold mbind, M_bind.
  destruct (doGET (commitsURL fullName) token w) as [[[status body] [e|]] w'];
    [done|].
  destruct ((status <? 200) || (status >=? 300)); [done|].
  by destruct (unmarshalCommits body) as [|[|]].
Qed.

Lemma fetchLanguages_world w :
  (fetchLanguages token fullName w).2 =
  (doGET (languagesURL fullName) token w).2.
Proof.
  unfold fetchLanguages. fold (languagesURL fullName). unfold mbind, M_bind.
  destruct (doGET (languagesURL fullName) token w) as [[[status body] [e|]] w'];
    [done|].
  destruct ((status <? 200) || (status >=? 300)); [done|].
  by destruct (unmarshalLanguages body).
Qed.

Lemma fetchContributors_world w :
  (fetchContributors token fullName w).2 =
  (doGET (contributorsURL fullName) token w).2.
Proof.
  unfold fetchContributors. fold (contributorsURL fullName).
  unfold mbind, M_bind.
  destruct (doGET (contributorsURL fullName) token w)
    as [[[status body] [e|]] w']; [done|].
  destruct ((status <? 200) || (status >=? 300)); [done|].
  by destruct (unmarshalContributors body).
Qed.

Lemma fetchLanguages_ext w1 w2 :
  server w1 (languagesURL fullName) = server w2 (languagesURL fullName) →
  (fetchLanguages token fullName w1).1 = (fetchLanguages token fullName w2).1.
Proof.
  intros Hsame. unfold fetchLanguages. fold (languagesURL fullName).
  unfold mbind, M_bind.
  pose proof (doGET_ext (languagesURL fullName) token w1 w2 Hsame) as Hres.
  destruct (doGET (languagesURL fullName) token w1) as [[[status body] e] w1'].
  destruct (doGET (languagesURL fullName) token w2) as [[[status2 body2] e2] w2'].
  simpl in Hres. injection Hres as <- <- <-.
  destruct e; [done|].
  destruct ((status <? 200) || (status >=? 300)); [done|].
  by destruct (unmarshalLanguages body).
Qed.

Lemma fetchContributors_ext w1 w2 :
  server w1 (contributorsURL fullName) = server w2 (contributorsURL fullName) →
  (fetchContributors token fullName w1).1 =
  (fetchContributors token fullName w2).1.
Proof.
  intros Hsame. unfold fetchContributors. fold (contributorsURL fullName).
  unfold mbind, M_bind.
  pose proof (doGET_ext (contributorsURL fullName) token w1 w2 Hsame) as Hres.
  destruct (doGET (contributorsURL fullName) token w1)
    as [[[status body] e] w1'].
  destruct (doGET (contributorsURL fullName) token w2)
    as [[[status2 body2] e2] w2'].
  simpl in Hres. injection Hres as <- <- <-.
  destruct e; [done|].
  destruct ((status <? 200) || (status >=? 300)); [done|].
  by destruct (unmarshalContributors body).
Qed.

Lemma fetchCommitActivity52W_ext w1 w2 :
  server w1 (activityURL fullName) = server w2 (activityURL fullName) →
  (fetchCommitActivity52W token fullName w1).1 =
  (fetchCommitActivity52W token fullName w2).1.
Proof. apply activityLoop_ext. Qed.

Lemma fetchCommitActivity52W_footprint w :
  let w' := (fetchCommitActivity52W token fullName w).2 in
  (∀ u, u ≠ activityURL fullName → server w' u = server w u)
  ∧ stdout w' = stdout w
  ∧ completed w' = completed w
  ∧ ∃ n, (1 ≤ n ≤ 5)%nat
         ∧ requests w' =
           requests w ++ replicate n (request (activityURL fullName) token).
Proof. by apply (activityLoop_footprint (activityURL fullName) token 5 0 w). Qed.

(** The terminal shapes of [fetchCommitActivity52W]. *)
Lemma fetchCommitActivity52W_terminal w :
  let '(weeks, pending, err) := (fetchCommitActivity52W token fullName w).1 in
  (pending = true → weeks = [] ∧ err = None)
  ∧ (err ≠ None → pending = false).
Proof. apply activityLoop_terminal. Qed.

End JobFacts.

(** What each write of the job leaves alone. *)

Lemma storeLastCommit_keeps res r :
  let r' := storeLastCommit res r in
  WeeklyCommits52W r' = WeeklyCommits52W r
  ∧ WeeklyStats52W r' = WeeklyStats52W r
  ∧ TotalCommits r' = TotalCommits r
  ∧ StatsCachePending r' = StatsCachePending r
  ∧ LanguageBreakdown r' = LanguageBreakdown r
  ∧ TopContributors r' = TopContributors r
  ∧ ContributorCount r' = ContributorCount r.
Proof. by destruct res as [[date msg] [e|]]. Qed.

Lemma storeActivity_keeps res r :
  let r' := storeActivity res r in
  LastCommitAt r' = LastCommitAt r
  ∧ LastCommitMessage r' = LastCommitMessage r
  ∧ LanguageBreakdown r' = LanguageBreakdown r
  ∧ TopContributors r' = TopContributors r
  ∧ ContributorCount r' = ContributorCount r.
Proof.
  destruct res as [[weeks pending] [e|]]; [done|].
  unfold storeActivity. by rewrite extractTotals_0.
Qed.

Lemma storeLanguages_keeps res r :
  let r' := storeLanguages res r in
  LastCommitAt r' = LastCommitAt r
  ∧ LastCommitMessage r' = LastCommitMessage r
  ∧ WeeklyCommits52W r' = WeeklyCommits52W r
  ∧ WeeklyStats52W r' = WeeklyStats52W r
  ∧ TotalCommits r' = TotalCommits r
  ∧ StatsCachePending r' = StatsCachePending r
  ∧ TopContributors r' = TopContributors r
  ∧ ContributorCount r' = ContributorCount r.
Proof.
  destruct res as [langs [e|]]; [done|]. unfold storeLanguages.
  by destruct (Z.of_nat (size langs) >? 0).
Qed.

Lemma storeContributors_keeps res r :
  let r' := storeContributors res r in
  LastCommitAt r' = LastCommitAt r
  ∧ LastCommitMessage r' = LastCommitMessage r
  ∧ WeeklyCommits52W r' = WeeklyCommits52W r
  ∧ WeeklyStats52W r' = WeeklyStats52W r
  ∧ TotalCommits r' = TotalCommits r
  ∧ StatsCachePending r' = StatsCachePending r
  ∧ LanguageBreakdown r' = LanguageBreakdown r.
Proof. by destruct res as [[contribs n] [e|]]. Qed.

Section JobIsolation.
Context `{Library}.
Variable token : string.
Variable total : Z.

(** The job is its four fetches, each answered as it would be on its
    own, and its four writes. *)
Lemma enrichJob_unfolded r w :
  let full := FullName r in
  let res1 := (fetchLastCommit token full w).1 in
  let res2 := (fetchCommitActivity52W token full w).1 in
  let res3 := (fetchLanguages token full w).1 in
  let res4 := (fetchContributors token full w).1 in
  let w' := (enrichJob token total r w).2 in
  (enrichJob token total r w).1 =
    storeContributors res4
      (storeLanguages res3 (storeActivity res2 (storeLastCommit res1 r)))
  ∧ (∃ n, (1 ≤ n ≤ 5)%nat
          ∧ requests w' =
            requests w ++ [request (commitsURL full) token]
            ++ replicate n (request (activityURL full) token)
            ++ [request (languagesURL full) token;
                request (contributorsURL full) token])
  ∧ (stdout w' = stdout w
     ∨ stdout w' = stdout w ++ [progressLine (incr (completed w)) total]).
Proof.
  cbv zeta. unfold enrichJob. set (full := FullName r).
  unfold mbind, M_bind.
  pose proof (fetchLastCommit_world token full w) as Hw1.
  destruct (fetchLastCommit token full w) as [res1 w1]. cbn [fst snd] in *.
  pose proof (doGET_requests (commitsURL full) token w) as Hq1.
  pose proof (doGET_quiet (commitsURL full) token w) as (_ & Ho1 & Hc1).
  pose proof (doGET_server_other (commitsURL full) token w) as Hs1.
  rewrite <- Hw1 in Hq1, Ho1, Hc1, Hs1. clear Hw1.
  pose proof (fetchCommitActivity52W_footprint token full w1)
    as (Hs2 & Ho2 & Hc2 & n & Hn & Hq2).
  pose proof (fetchCommitActivity52W_ext token full w1 w) as He2.
  rewrite Hs1 in He2 by (by apply urls_differ). specialize (He2 eq_refl).
  destruct (fetchCommitActivity52W token full w1) as [res2 w2].
  cbn [fst snd] in *. subst res2.
  pose proof (fetchLanguages_world token full w2) as Hw3.
  pose proof (fetchLanguages_ext token full w2 w) as He3.
  rewrite Hs2, Hs1 in He3 by (by apply urls_differ). specialize (He3 eq_refl).
  destruct (fetchLanguages token full w2) as [res3 w3].
  cbn [fst snd] in *. subst res3.
  pose proof (doGET_requests (languagesURL full) token w2) as Hq3.
  pose proof (doGET_quiet (languagesURL full) token w2) as (_ & Ho3 & Hc3).
  pose proof (doGET_server_other (languagesURL full) token w2) as Hs3.
  rewrite <- Hw3 in Hq3, Ho3, Hc3, Hs3. clear Hw3.
  pose proof (fetchContributors_world token full w3) as Hw4.
  pose proof (fetchContributors_ext token full w3 w) as He4.
  rewrite Hs3, Hs2, Hs1 in He4 by (by apply urls_differ).
  specialize (He4 eq_refl).
  destruct (fetchContributors token full w3) as [res4 w4].
  cbn [fst snd] in *. subst res4.
  pose proof (doGET_requests (contributorsURL full) token w3) as Hq4.
  pose proof (doGET_quiet (contributorsURL full) token w3) as (_ & Ho4 & Hc4).
  rewrite <- Hw4 in Hq4, Ho4, Hc4. clear Hw4.
  assert (Hreq : requests w4 =
    requests w ++ [request (commitsURL full) token]
    ++ replicate n (request (activityURL full) token)
    ++ [request (languagesURL full) token;
        request (contributorsURL full) token]).
  { rewrite Hq4, Hq3, Hq2, Hq1. by rewrite <- !app_assoc. }
  assert (Hout : stdout w4 = stdout w) by congruence.
  assert (Hdone : completed w4 = completed w) by congruence.
  unfold bumpCompleted. rewrite Hdone.
  destruct ((Z.rem (incr (completed w)) 5 =? 0)
            || (incr (completed w) =? total)); simpl.
  - split; [done|]. split; [by exists n|]. right. by rewrite Hout.
  - split; [done|]. split; [by exists n|]. by left.
Qed.

(** C4, amended. Whatever the four enrichers answer, the job calls all
    four, in order; each enricher's fields of the record are decided by
    that enricher's own answer; the fields of an enricher that returned
    an error keep their zero values; and the error itself is dropped:
    the job prints nothing but, at most, its progress line. *)
Theorem enrichJob_isolates_failures (g : GH.ghRepo) w :
  let r := baseRecord g in
  let full := FullName r in
  let res1 := (fetchLastCommit token full w).1 in
  let res2 := (fetchCommitActivity52W token full w).1 in
  let res3 := (fetchLanguages token full w).1 in
  let res4 := (fetchContributors token full w).1 in
  let r' := (enrichJob token total r w).1 in
  let w' := (enrichJob token total r w).2 in
  (∃ n, (1 ≤ n ≤ 5)%nat
        ∧ requests w' =
          requests w ++ [request (commitsURL full) token]
          ++ replicate n (request (activityURL full) token)
          ++ [request (languagesURL full) token;
              request (contributorsURL full) token])
  ∧ r' = storeContributors res4
           (storeLanguages res3 (storeActivity res2 (storeLastCommit res1 r)))
  ∧ (res1.2 ≠ None → LastCommitAt r' = "" ∧ LastCommitMessage r' = "")
  ∧ (res2.2 ≠ None →
     WeeklyStats52W r' = [] ∧ WeeklyCommits52W r' = []
     ∧ TotalCommits r' = 0 ∧ StatsCachePending r' = false)
  ∧ (res3.2 ≠ None → LanguageBreakdown r' = ∅)
  ∧ (res4.2 ≠ None → TopContributors r' = [] ∧ ContributorCount r' = 0)
  ∧ (stdout w' = stdout w
     ∨ stdout w' = stdout w ++ [progressLine (incr (completed w)) total]).
Proof.
  intros r full res1 res2 res3 res4 r' w'.
  destruct (enrichJob_unfolded r w) as (Hr' & Hreq & Hout).
  fold full res1 res2 res3 res4 in Hr'. fold r' in Hr'.
  split; [done|]. split; [done|].
  clearbody res1 res2 res3 res4 r'.
  pose proof (storeContributors_keeps res4
    (storeLanguages res3 (storeActivity res2 (storeLastCommit res1 r))))
    as (K41 & K42 & K43 & K44 & K45 & K46 & K47).
  pose proof (storeLanguages_keeps res3
    (storeActivity res2 (storeLastCommit res1 r)))
    as (K31 & K32 & K33 & K34 & K35 & K36 & K37 & K38).
  pose proof (storeActivity_keeps res2 (storeLastCommit res1 r))
    as (K21 & K22 & K23 & K24 & K25).
  pose proof (storeLastCommit_keeps res1 r)
    as (K11 & K12 & K13 & K14 & K15 & K16 & K17).
  rewrite <- Hr' in K41, K42, K43, K44, K45, K46, K47.
  split; [|split; [|split; [|split]]]; [| | | |done].
  - intros Hfail. rewrite K41, K31, K21, K42, K32, K22.
    destruct res1 as [[date msg] [e|]]; [done|by destruct Hfail].
  - intros Hfail. rewrite K44, K34, K43, K33, K45, K35, K46, K36.
    destruct res2 as [[weeks pending] [e|]]; [|by destruct Hfail].
    by rewrite storeActivity_failed, K12, K11, K13, K14.
  - intros Hfail. rewrite K47.
    destruct res3 as [langs [e|]]; [|by destruct Hfail].
    cbn [storeLanguages]. by rewrite K23, K15.
  - intros Hfail. rewrite Hr'.
    destruct res4 as [[contribs n] [e|]]; [|by destruct Hfail].
    cbn [storeContributors]. by rewrite K37, K24, K16, K38, K25, K17.
Qed.

End JobIsolation.

(** ** Pending records carry no weekly data *)

Lemma count_disjoint {A} (f g : A → bool) l :
  Forall (λ x, ¬ (f x = true ∧ g x = true)) l →
  count f l + count g l ≤ len l.
Proof.
  induction 1 as [|x l Hx _ IH].
  - done.
  - rewrite !count_cons. unfold len in *. cbn [length].
    destruct (f x), (g x); try lia; by destruct Hx.
Qed.

Section Pending.
Context `{Library}.

Lemma storeAll_activity res i r :
  StatsCachePending (storeAll res i r) =
    StatsCachePending (storeActivity (resActivity (res i)) r)
  ∧ WeeklyCommits52W (storeAll res i r) =
    WeeklyCommits52W (storeActivity (resActivity (res i)) r).
Proof.
  unfold storeAll, storeStep.
  destruct (storeContributors_keeps (resContributors (res i))
    (storeLanguages (resLanguages (res i))
      (storeActivity (resActivity (res i))
        (storeLastCommit (resLastCommit (res i)) r))))
    as (_ & _ & -> & _ & _ & -> & _).
  destruct (storeLanguages_keeps (resLanguages (res i))
    (storeActivity (resActivity (res i))
      (storeLastCommit (resLastCommit (res i)) r)))
    as (_ & _ & -> & _ & _ & -> & _).
  destruct (storeLastCommit_keeps (resLastCommit (res i)) r)
    as (Hw & Hs & Ht & Hp & _).
  destruct (resActivity (res i)) as [[weeks pending] [e|]].
  - by rewrite !storeActivity_failed.
  - destruct (storeActivity_ok weeks pending
      (storeLastCommit (resLastCommit (res i)) r)) as (_ & -> & -> & _).
    by destruct (storeActivity_ok weeks pending r) as (_ & -> & -> & _).
Qed.

Lemma enriched_not_both res (g : GH.ghRepo) i :
  (∃ token fullName w,
     resActivity (res i) = (fetchCommitActivity52W token fullName w).1) →
  let r := storeAll res i (baseRecord g) in
  StatsCachePending r = true → WeeklyCommits52W r = [].
Proof.
  intros (token & fullName & w & Hres) r. subst r.
  destruct (storeAll_activity res i (baseRecord g)) as [-> ->].
  pose proof (fetchCommitActivity52W_terminal token fullName w) as Hterm.
  rewrite <- Hres in Hterm.
  destruct (resActivity (res i)) as [[weeks pending] [e|]].
  - by rewrite storeActivity_failed.
  - destruct (storeActivity_ok weeks pending (baseRecord g))
      as (_ & -> & -> & _).
    intros ->. by destruct Hterm as [[-> _] _].
Qed.

(** C10. Every result of [fetchCommitActivity52W] has one of the
    terminal shapes: pending true comes with an empty weekly sequence
    and a nil error, and an error comes with pending false. So, once
    the pool has run the jobs over the base records, a record with
    [StatsCachePending] true has an empty [WeeklyCommits52W]; no record
    passes both the test of [ReposWithStats52W] and the test of
    [ReposStatsPending], and the two counters count disjoint sets of
    records. *)
Theorem pending_excludes_weekly_data :
  (∀ token fullName w,
     let '(weeks, pending, err) :=
       (fetchCommitActivity52W token fullName w).1 in
     (pending = true → weeks = [] ∧ err = None)
     ∧ (err ≠ None → pending = false))
  ∧ (∀ res (gs : list GH.ghRepo) nworkers sched now,
       (∀ i, ∃ token fullName w,
          resActivity (res i) = (fetchCommitActivity52W token fullName w).1) →
       let p := runPool res sched (startPool nworkers (map baseRecord gs)) in
       finished p = true →
       Forall (λ r, StatsCachePending r = true → WeeklyCommits52W r = [])
         (out p)
       ∧ Forall (λ r, ¬ (hasStats52W r = true ∧ isPending r = true)) (out p)
       ∧ Sum.ReposWithStats52W (Sum.Enrichment (buildSummary now (out p)))
         = wrap (count hasStats52W (out p))
       ∧ Sum.ReposStatsPending (Sum.Enrichment (buildSummary now (out p)))
         = wrap (count isPending (out p))
       ∧ count hasStats52W (out p) + count isPending (out p) ≤ len (out p)).
Proof.
  split; [apply fetchCommitActivity52W_terminal|].
  intros res gs nworkers sched now Hres p Hfin.
  assert (Hrecords :
    Forall (λ r, StatsCachePending r = true → WeeklyCommits52W r = []) (out p)).
  { subst p. rewrite (pool_fills_records _ _ _ _ Hfin).
    apply Forall_lookup. intros i r. unfold enriched.
    rewrite list_lookup_imap, list_lookup_fmap.
    destruct (gs !! i) as [g|]; [|done]. intros [= <-].
    by apply enriched_not_both. }
  assert (Hnot :
    Forall (λ r, ¬ (hasStats52W r = true ∧ isPending r = true)) (out p)).
  { eapply Forall_impl; [exact Hrecords|].
    intros r Hr [Hstats Hpending]. unfold hasStats52W, isPending in *.
    rewrite (Hr Hpending) in Hstats. done. }
  split; [done|]. split; [done|].
  unfold buildSummary. cbn [Sum.Enrichment].
  rewrite fold_ReposWithStats52W, fold_ReposStatsPending.
  rewrite !fold_incrIf by apply inRange_0.
  split; [done|]. split; [done|]. by apply count_disjoint.
Qed.

End Pending.

(** ** The statements on the scenarios *)

Lemma fetchLastCommit_no_commits_witness :
  (@fetchLastCommit Demo.library "t" Scenario.full Scenario.emptyRepoWorld).1
  = ("", "", None).
Proof.
  apply (@fetchLastCommit_no_commits Demo.library "t" Scenario.full
           Scenario.emptyRepoWorld 200 "[]" []).
  - reflexivity.
  - lia.
  - reflexivity.
Defined.

Lemma fetchLastCommit_truncates_witness :
  ∃ msg,
    (@fetchLastCommit Demo.library "t" Scenario.full Scenario.longWorld).1
    = ("2025-03-02T10:00:00Z", msg, None)
    ∧ ((String.length Demo.longMessage > 100)%nat →
       ∃ head dropped,
         Demo.longMessage = head +:+ dropped
         ∧ String.length head = 100%nat ∧ msg = head +:+ "...")
    ∧ ((String.length Demo.longMessage ≤ 100)%nat → msg = Demo.longMessage).
Proof.
  apply (@fetchLastCommit_truncates Demo.library "t" Scenario.full
           Scenario.longWorld 200 "[long]" []
           (Demo.commit "2025-03-02T10:00:00Z" Demo.longMessage) []).
  - reflexivity.
  - lia.
  - reflexivity.
Defined.

Lemma fetchContributors_counts_the_page_witness :
  (@fetchContributors Demo.library "t" Scenario.full Scenario.fullPageWorld).1
  = (Demo.people 10, 10, None).
Proof.
  destruct (@fetchContributors_counts_the_page Demo.library "t" Scenario.full)
    as (_ & _ & Hpage).
  destruct (Hpage Scenario.fullPageWorld 200 "[10]" [] (Demo.people 10))
    as [_ Hfull].
  - reflexivity.
  - lia.
  - reflexivity.
  - apply Hfull. reflexivity.
Defined.

Lemma fetchCommitActivity52W_pending_or_ready_witness :
  (@fetchCommitActivity52W Demo.library "t" Scenario.full
     Scenario.pendingWorld).1 = ([], true, None)
  ∧ (@fetchCommitActivity52W Demo.library "t" Scenario.full
       Scenario.readyWorld).1
    = ([Demo.week 3; Demo.week 0; Demo.week 4], false, None)
  ∧ (@fetchCommitActivity52W Demo.library "t" Scenario.full
       Edge.noContentWorld).1
    = ([], false, Some (UnmarshalError "unexpected end of JSON input")).
Proof.
  split; [|split].
  - pose proof (@fetchCommitActivity52W_pending_or_ready Demo.library "t"
                  Scenario.full Scenario.pendingWorld) as Hthm.
    cbv zeta in Hthm. destruct Hthm as [Hpending _].
    destruct Hpending as (Hres & _); [reflexivity|]. exact Hres.
  - pose proof (@fetchCommitActivity52W_pending_or_ready Demo.library "t"
                  Scenario.full Scenario.readyWorld) as Hthm.
    cbv zeta in Hthm. destruct Hthm as [_ Hready].
    destruct (Hready 2%nat 200 "[3,0,4]") as (_ & _ & _ & Hres & _).
    + lia.
    + reflexivity.
    + reflexivity.
    + lia.
    + lia.
    + exact Hres.
  - pose proof (@fetchCommitActivity52W_pending_or_ready Demo.library "t"
                  Scenario.full Edge.noContentWorld) as Hthm.
    cbv zeta in Hthm. destruct Hthm as [_ Hready].
    destruct (Hready 0%nat 204 "") as (_ & _ & _ & Hres & _).
    + lia.
    + reflexivity.
    + reflexivity.
    + lia.
    + lia.
    + exact Hres.
Defined.

Lemma fetchCommitActivity52W_fails_at_once_witness :
  (@fetchCommitActivity52W Demo.library "t" Scenario.full
     Scenario.brokenWorld).1
  = ([], false, Some (Errorf "commit_activity error %d" 500))
  ∧ length (requests (@fetchCommitActivity52W Demo.library "t" Scenario.full
                        Scenario.brokenWorld).2) = 3%nat.
Proof.
  pose proof (@fetchCommitActivity52W_fails_at_once Demo.library "t"
                Scenario.full Scenario.brokenWorld 2%nat
                (Answer 500 "server error") 500) as Hthm.
  cbv zeta in Hthm. destruct Hthm as (_ & Hres & Hreq & _).
  - lia.
  - reflexivity.
  - reflexivity.
  - reflexivity.
  - lia.
  - split; [by apply (Hres "server error")|]. by rewrite Hreq.
Defined.

Lemma summary_totals_witness :
  Sum.TotalCommits (Sum.Engagement
    (@buildSummary Demo.library 0 Scenario.enrichedRecords)) = 14
  ∧ default 0 (Sum.Languages
      (@buildSummary Demo.library 0 Scenario.enrichedRecords) !! "Go") = 2.
Proof.
  destruct (@summary_totals Demo.library 0 Scenario.enrichedRecords)
    as (_ & Hcommits & Hlangs).
  split.
  - apply Hcommits. unfold inRange, MinInt, MaxInt.
    change (total (map TotalCommits Scenario.enrichedRecords)) with 14. lia.
  - destruct (Hlangs "Go") as [_ Hgo]; [done|].
    apply Hgo. unfold MaxInt. change (len Scenario.enrichedRecords) with 3. lia.
Defined.

Lemma summary_activity_over_parsed_witness :
  Sum.MostRecentPush (Sum.Activity
    (@buildSummary Demo.library 0 Scenario.enrichedRecords)) = ""
  ∧ Sum.MostRecentUpdate (Sum.Activity
      (@buildSummary Demo.library 0 Scenario.enrichedRecords))
    = "2025-03-01T10:00:00Z"
  ∧ @parsed Demo.library PushedAt Scenario.enrichedRecords
    = @parsed Demo.library PushedAt (tail Scenario.enrichedRecords).
Proof.
  pose proof (@summary_activity_over_parsed Demo.library 0
                Scenario.enrichedRecords) as Hthm.
  cbv zeta in Hthm. destruct Hthm as (Hupdate & Hpush & _ & _ & Hskip & _).
  split; [exact Hpush|]. split; [exact Hupdate|].
  destruct Scenario.enrichedRecords as [|r after] eqn:Hrecords;
    [discriminate Hrecords|].
  destruct (Hskip [] r after eq_refl) as (_ & Hpushed & _).
  apply Hpushed. injection Hrecords as <- _. reflexivity.
Defined.

Lemma summary_independent_of_schedule_witness :
  out (runPool Scenario.answers Scenario.alone (startPool 1 Scenario.base))
  = Scenario.enrichedRecords
  ∧ out (runPool Scenario.answers Scenario.inTurns (startPool 3 Scenario.base))
    = Scenario.enrichedRecords
  ∧ figures (@buildSummary Demo.library 0
      (out (runPool Scenario.answers Scenario.alone
              (startPool 1 Scenario.base))))
    = figures (@buildSummary Demo.library 7000000000
        (out (runPool Scenario.answers Scenario.inTurns
                (startPool 3 Scenario.base)))).
Proof.
  pose proof (@summary_independent_of_schedule Demo.library Scenario.answers
                Scenario.base 1 3 Scenario.alone Scenario.inTurns
                0 7000000000) as Hthm.
  cbv zeta in Hthm. destruct Hthm as (H1 & H2 & Hfig & _).
  - reflexivity.
  - reflexivity.
  - split; [exact H1|]. split; [exact H2|exact Hfig].
Defined.

(** C2 as stated fails: the same records, filled by one worker or by
    three, give two summaries that differ, in [GeneratedAt], when the
    clock has moved on by the time the second is built. *)
Lemma summary_depends_on_clock :
  let p1 := runPool Scenario.answers Scenario.alone
              (startPool 1 Scenario.base) in
  let p3 := runPool Scenario.answers Scenario.inTurns
              (startPool 3 Scenario.base) in
  finished p1 = true ∧ finished p3 = true ∧ out p1 = out p3
  ∧ @buildSummary Demo.library 0 (out p1)
    ≠ @buildSummary Demo.library 7000000000 (out p3).
Proof.
  cbv zeta. split; [reflexivity|]. split; [reflexivity|].
  split; [vm_compute; reflexivity|].
  intros Hsame. apply (f_equal Sum.GeneratedAt) in Hsame.
  vm_compute in Hsame. discriminate Hsame.
Qed.

Lemma pending_excludes_weekly_data_witness :
  let p := runPool Scenario.answers Scenario.inTurns
             (startPool 3 Scenario.base) in
  Forall (λ r, StatsCachePending r = true → WeeklyCommits52W r = []) (out p)
  ∧ count hasStats52W (out p) + count isPending (out p) ≤ len (out p).
Proof.
  destruct (@pending_excludes_weekly_data Demo.library) as [_ Hpool].
  destruct (Hpool Scenario.answers Scenario.listed 3%nat Scenario.inTurns 0)
    as (Hrecords & _ & _ & _ & Hcount).
  - intros [|i].
    + exists "t", Scenario.full, Scenario.pendingWorld. reflexivity.
    + exists "t", Scenario.full, Scenario.readyWorld. reflexivity.
  - reflexivity.
  - split; [exact Hrecords|exact Hcount].
Defined.

Lemma enrichJob_isolates_failures_witness :
  let r' := (@enrichJob Demo.library "t" 1
               (@baseRecord Demo.library (Demo.repo "o/a" "Go"))
               Scenario.failingWorld).1 in
  LastCommitAt r' = "" ∧ LastCommitMessage r' = ""
  ∧ WeeklyCommits52W r' = [3; 0; 4]
  ∧ ContributorCount r' = 3.
Proof.
  pose proof (@enrichJob_isolates_failures Demo.library "t" 1
                (Demo.repo "o/a" "Go") Scenario.failingWorld) as Hthm.
  cbv zeta in *. destruct Hthm as (_ & Hr' & Hlast & _).
  destruct Hlast as [Hat Hmsg].
  - vm_compute. discriminate.
  - split; [exact Hat|]. split; [exact Hmsg|].
    rewrite Hr'. split; reflexivity.
Defined.

(** C4 as stated fails where it has the job record or log the failure: a
    job whose last-commit call fails with status 500 ends with the same
    record, the same printed output (its progress line), the same
    requests and the same sleeps as a job whose call succeeded on a
    repository without commits. *)
Lemma enrichJob_failure_leaves_no_trace :
  let r := @baseRecord Demo.library (Demo.repo "o/a" "Go") in
  let failed := @enrichJob Demo.library "t" 1 r Scenario.failingWorld in
  let succeeded := @enrichJob Demo.library "t" 1 r Scenario.emptyRepoWorld in
  (@fetchLastCommit Demo.library "t" "o/a" Scenario.failingWorld).1
    = ("", "", Some (Errorf "commits list error %d" 500))
  ∧ (@fetchLastCommit Demo.library "t" "o/a" Scenario.emptyRepoWorld).1
    = ("", "", None)
  ∧ failed.1 = succeeded.1
  ∧ stdout failed.2 = [progressLine 1 1]
  ∧ stdout failed.2 = stdout succeeded.2
  ∧ requests failed.2 = requests succeeded.2
  ∧ slept failed.2 = slept succeeded.2
  ∧ completed failed.2 = completed succeeded.2.
Proof. cbv zeta. repeat split; vm_compute; reflexivity. Qed.

(** C1 as stated fails where it has every success answer end in a
    parsed weekly sequence: the endpoint of a repository without content
    answers 204 with no body; the function returns pending false, but no
    weeks and the decoder's error, and the job leaves the record without
    weekly data. Nor is there an expected length: a body of three weeks
    gives three, not fifty-two. *)
Lemma ready_answer_need_not_decode :
  let url := activityURL Scenario.full in
  let fetched := @fetchCommitActivity52W Demo.library "t" Scenario.full
                   Edge.noContentWorld in
  let r := @baseRecord Demo.library (Demo.repo Scenario.full "Go") in
  server Edge.noContentWorld url = [Answer 204 ""]
  ∧ fetched.1 = ([], false, Some (UnmarshalError "unexpected end of JSON input"))
  ∧ sent fetched.2 = [request url "t"]
  ∧ storeActivity fetched.1 r = r
  ∧ WeeklyCommits52W (storeActivity fetched.1 r) = []
  ∧ length (@fetchCommitActivity52W Demo.library "t" Scenario.full
              Scenario.readyWorld).1.1.1 = 3%nat.
Proof. cbv zeta. repeat split; vm_compute; reflexivity. Qed.

(** C6 as stated fails where it counts characters: a message of 61
    characters, under the cap, is cut all the same, because it takes 121
    bytes; what is returned is its first 100 bytes and the marker, and
    the hundredth byte is the first half of a two-byte character. *)
Lemma fetchLastCommit_cuts_bytes :
  let returned := (@fetchLastCommit Demo.library "t" "o/a"
                     Edge.accentsWorld).1.1.2 in
  characters Demo.accented = 61%nat
  ∧ String.length Demo.accented = 121%nat
  ∧ returned ≠ Demo.accented
  ∧ returned = String.substring 0 100 Demo.accented +:+ "..."
  ∧ String.length returned = 103%nat
  ∧ String.get 99 returned = Some (Ascii.ascii_of_nat 195)
  ∧ isContinuation (Ascii.ascii_of_nat 195) = false.
Proof.
  cbv zeta. split; [vm_compute; reflexivity|]. split; [vm_compute; reflexivity|].
  split; [vm_compute; discriminate|]. repeat split; vm_compute; reflexivity.
Qed.

(** * Further properties of the program *)

(** ** The listing of the repositories *)

Lemma length_append s t :
  String.length (s +:+ t) = (String.length s + String.length t)%nat.
Proof.
  induction s as [|c s IH]; [done|].
  change (S (String.length (s +:+ t)) = S (String.length s + String.length t)).
  by rewrite IH.
Qed.

Lemma append_inj_r t : ∀ s1 s2, s1 +:+ t = s2 +:+ t → s1 = s2.
Proof.
  induction s1 as [|c s1 IH]; intros [|d s2] Heq; [done| | |].
  - apply (f_equal String.length) in Heq.
    change (String d s2 +:+ t) with (String d (s2 +:+ t)) in Heq.
    change ("" +:+ t) with t in Heq.
    simpl in Heq. rewrite length_append in Heq. lia.
  - apply (f_equal String.length) in Heq.
    change (String c s1 +:+ t) with (String c (s1 +:+ t)) in Heq.
    change ("" +:+ t) with t in Heq.
    simpl in Heq. rewrite length_append in Heq. lia.
  - change (String c (s1 +:+ t) = String d (s2 +:+ t)) in Heq.
    injection Heq as -> Heq. f_equal. by apply IH.
Qed.

Lemma listURL_inj p q : listURL p = listURL q → p = q.
Proof.
  unfold listURL. intros Heq.
  do 3 apply append_inj_l in Heq.
  apply append_inj_r in Heq. by apply (inj pretty).
Qed.

Section ListingFacts.
Context {Repo : Type}.
Variable unmarshalRepos : string → error + list Repo.
Variable token : string.

Lemma listPages_good fuel page all w status body rest repos :
  server w (listURL page) = Answer status body :: rest →
  200 ≤ status < 300 →
  unmarshalRepos body = inr repos →
  listPages unmarshalRepos (S fuel) token page all w =
  if len repos =? 0
  then (Some (all, None), (doGET (listURL page) token w).2)
  else listPages unmarshalRepos fuel token (incr page) (all ++ repos)
         (doGET (listURL page) token w).2.
Proof.
  intros Hserver Hstatus Hbody. cbn [listPages]. cbv zeta.
  fold (listURL page). unfold mbind, M_bind.
  rewrite (doGET_answered _ _ _ _ _ _ Hserver).
  rewrite status_ok, Hbody by done. by destruct (len repos =? 0).
Qed.

Lemma listPages_bad fuel page all w e :
  pageError unmarshalRepos (server w (listURL page)) = Some e →
  listPages unmarshalRepos (S fuel) token page all w =
  (Some ([], Some e), (doGET (listURL page) token w).2).
Proof.
  intros Hbad. cbn [listPages]. cbv zeta.
  fold (listURL page). unfold mbind, M_bind, doGET.
  destruct (server w (listURL page)) as [|[e'|e'|status e'|status body] rest];
    simpl in Hbad; try by injection Hbad as ->.
  destruct ((status <? 200) || (status >=? 300)); [by injection Hbad as ->|].
  destruct (unmarshalRepos body); [by injection Hbad as ->|done].
Qed.

(** While the pages are good and not empty, the loop takes them in and
    asks for the next. *)
Lemma listPages_prefix pages : ∀ j all fuel w,
  (∀ k page, pages !! k = Some page →
     page ≠ [] ∧ goodPage unmarshalRepos w (j + k) page) →
  Z.of_nat (j + length pages) < MaxInt →
  ∃ w',
    listPages unmarshalRepos (length pages + fuel) token (Z.of_nat j + 1) all w
    = listPages unmarshalRepos fuel token
        (Z.of_nat (j + length pages) + 1) (all ++ concat pages) w'
    ∧ requests w' =
      requests w ++ map (λ k, request (listURL (Z.of_nat k + 1)) token)
                        (seq j (length pages))
    ∧ (∀ q, Z.of_nat (j + length pages) + 1 ≤ q →
         server w' (listURL q) = server w (listURL q))
    ∧ slept w' = slept w ∧ stdout w' = stdout w.
Proof.
  induction pages as [|page pages IH]; intros j all fuel w Hgood Hmax.
  - exists w. simpl. rewrite Nat.add_0_r, !app_nil_r. done.
  - destruct (Hgood 0%nat page eq_refl)
      as (Hfull & status & body & rest & Hserver & Hstatus & Hbody).
    rewrite Nat.add_0_r in Hserver.
    cbn [length] in *. change (S (length pages) + fuel)%nat
      with (S (length pages + fuel)).
    rewrite (listPages_good _ _ _ _ _ _ _ _ Hserver Hstatus Hbody).
    replace (len page =? 0) with false.
    2:{ symmetry. apply Z.eqb_neq. unfold len. destruct page; [done|].
        simpl. lia. }
    replace (incr (Z.of_nat j + 1)) with (Z.of_nat (S j) + 1).
    2:{ unfold incr, add. rewrite wrap_id; [lia|].
        unfold inRange, MinInt, MaxInt in *. lia. }
    set (w1 := (doGET (listURL (Z.of_nat j + 1)) token w).2).
    destruct (IH (S j) (all ++ page) fuel w1) as (w' & Hrun & Hreq & Hsrv & Hsl & Hout).
    { intros k page' Hk.
      destruct (Hgood (S k) page' Hk)
        as (Hfull' & status' & body' & rest' & Hserver' & Hstatus' & Hbody').
      split; [done|]. exists status', body', rest'.
      split; [|done]. unfold w1. rewrite doGET_server_other.
      - by replace (S j + k)%nat with (j + S k)%nat by lia.
      - intros Heq%listURL_inj. lia. }
    { lia. }
    exists w'. replace (j + S (length pages))%nat with (S j + length pages)%nat by lia.
    rewrite Hrun, Hreq. simpl. rewrite <- !app_assoc.
    destruct (doGET_quiet (listURL (Z.of_nat j + 1)) token w) as (Hs1 & Ho1 & _).
    repeat split.
    + unfold w1. by rewrite doGET_requests, <- app_assoc.
    + intros q Hq. rewrite Hsrv by done. unfold w1.
      apply doGET_server_other. intros Heq%listURL_inj. lia.
    + by rewrite Hsl.
    + by rewrite Hout.
Qed.

(** X1. If the first [n] pages of the listing ([n] below the largest
    int) are answered with success and decode to non-empty lists, and
    page [n + 1] to an empty one,
    [fetchAllAccessibleRepos] returns the pages' repositories in page
    order and a nil error, having asked for pages 1 to [n + 1], once
    each and in order, and for no other. *)
Theorem fetchAllAccessibleRepos_collects pages fuel w :
  (∀ k page, pages !! k = Some page →
     page ≠ [] ∧ goodPage unmarshalRepos w k page) →
  goodPage unmarshalRepos w (length pages) [] →
  (length pages < fuel)%nat →
  Z.of_nat (length pages) < MaxInt →
  (fetchAllAccessibleRepos unmarshalRepos fuel token w).1
    = Some (concat pages, None)
  ∧ requests (fetchAllAccessibleRepos unmarshalRepos fuel token w).2
    = requests w ++ map (λ k, request (listURL (Z.of_nat k + 1)) token)
                        (seq 0 (S (length pages))).
Proof.
  intros Hgood (status & body & rest & Hserver & Hstatus & Hbody) Hfuel Hmax.
  unfold fetchAllAccessibleRepos.
  replace fuel with (length pages + S (fuel - S (length pages)))%nat by lia.
  destruct (listPages_prefix pages 0 [] (S (fuel - S (length pages))) w)
    as (w' & Hrun & Hreq & Hsrv & _); [done|done|].
  change (Z.of_nat 0 + 1) with 1 in Hrun. rewrite Hrun. cbn [Nat.add app] in *.
  rewrite <- Hsrv in Hserver by lia.
  rewrite (listPages_good _ _ _ _ _ _ _ _ Hserver Hstatus Hbody).
  change (len [] =? 0) with true. cbv iota. cbn [fst snd].
  split; [done|].
  rewrite doGET_requests, Hreq, seq_S, map_app, <- app_assoc. done.
Qed.

(** X2. If the first [n] pages ([n] below the largest int) are good
    and not empty and page [n + 1] is not good (a request that cannot be
    made, no connection, a failed read, a status outside 200..299, or a
    body that does not decode), [fetchAllAccessibleRepos] returns that
    page's error and no repository at all: what the earlier pages listed
    is dropped, and no further page is asked for. *)
Theorem fetchAllAccessibleRepos_fails pages fuel w e :
  (∀ k page, pages !! k = Some page →
     page ≠ [] ∧ goodPage unmarshalRepos w k page) →
  pageError unmarshalRepos
    (server w (listURL (Z.of_nat (length pages) + 1))) = Some e →
  (length pages < fuel)%nat →
  Z.of_nat (length pages) < MaxInt →
  (fetchAllAccessibleRepos unmarshalRepos fuel token w).1 = Some ([], Some e)
  ∧ length (requests (fetchAllAccessibleRepos unmarshalRepos fuel token w).2)
    = (length (requests w) + S (length pages))%nat.
Proof.
  intros Hgood Hbad Hfuel Hmax.
  unfold fetchAllAccessibleRepos.
  replace fuel with (length pages + S (fuel - S (length pages)))%nat by lia.
  destruct (listPages_prefix pages 0 [] (S (fuel - S (length pages))) w)
    as (w' & Hrun & Hreq & Hsrv & _); [done|done|].
  change (Z.of_nat 0 + 1) with 1 in Hrun. rewrite Hrun. cbn [Nat.add app] in *.
  rewrite <- Hsrv in Hbad by lia.
  rewrite (listPages_bad _ _ _ _ _ Hbad). cbn [fst snd].
  split; [done|].
  rewrite doGET_requests, Hreq, !length_app, length_map, length_seq.
  simpl. lia.
Qed.

End ListingFacts.

(** ** The worker pool at any moment *)

Lemma storeStep_baseOf res pc i r : baseOf (storeStep res pc i r) = baseOf r.
Proof.
  unfold storeStep. destruct pc as [|[|[|pc]]].
  - by destruct (resLastCommit (res i)) as [[date msg] [e|]].
  - destruct (resActivity (res i)) as [[weeks pending] [e|]]; [done|].
    unfold storeActivity. by rewrite extractTotals_0.
  - destruct (resLanguages (res i)) as [langs [e|]]; [done|].
    unfold storeLanguages. by destruct (Z.of_nat (size langs) >? 0).
  - by destruct (resContributors (res i)) as [[contribs n] [e|]].
Qed.

Lemma storeUpTo_baseOf res k i r : baseOf (storeUpTo res k i r) = baseOf r.
Proof.
  induction k as [|k IH]; [done|]. simpl. by rewrite storeStep_baseOf.
Qed.

Lemma PoolInv_progress res out0 p prog i :
  PoolInv res out0 p prog → (i < length out0)%nat →
  (prog i ≤ 4)%nat ∧ (i ∈ jobs p → prog i = 0%nat).
Proof.
  intros [Hout Hlen Hjobs Hnodup Hbusy Howner Hdone] Hi.
  split; [|intros Hin; by destruct (Hjobs i Hin) as (? & _)].
  destruct (decide (i ∈ jobs p)) as [Hin|Hnotin].
  { destruct (Hjobs i Hin) as (-> & _). lia. }
  destruct (existsb (λ x, match x with Busy j _ => Nat.eqb j i | Idle => false end)
              (workers p)) eqn:Hheld.
  - apply existsb_exists in Hheld as ([|j pc] & Hx & Hj); [done|].
    apply Nat.eqb_eq in Hj as ->.
    apply list_elem_of_In, list_elem_of_lookup_1 in Hx as [w Hw].
    destruct (Hbusy _ _ _ Hw) as (-> & ? & _). lia.
  - rewrite Hdone; [lia|done..|].
    intros w pc Hw.
    assert (existsb (λ x, match x with Busy j _ => Nat.eqb j i | Idle => false end)
              (workers p) = true) as Habs; [|congruence].
    apply existsb_exists. exists (Busy i pc). split.
    + by eapply list_elem_of_In, list_elem_of_lookup_2.
    + apply Nat.eqb_refl.
Qed.

Section PoolAtAnyMoment.
Variable res : nat → JobResults.
Variable out0 : list outRepo.
Variable nworkers : nat.
Variable sched : list nat.

(** X3. After any moves of any number of workers, finished or not: the
    record list has its length; no two workers hold the same index; an
    index in hand is in range, has left the channel and has at most its
    fourth write to come; the channel holds no index twice; and every
    record is its initial record with the first [k ≤ 4] writes of its own
    job, none while its index is still in the channel. *)
Theorem pool_owns_records :
  let p := runPool res sched (startPool nworkers out0) in
  length (out p) = length out0
  ∧ (∀ w1 w2 i pc1 pc2,
       workers p !! w1 = Some (Busy i pc1) →
       workers p !! w2 = Some (Busy i pc2) → w1 = w2)
  ∧ (∀ w i pc, workers p !! w = Some (Busy i pc) →
       (i < length out0)%nat ∧ (i ∉ jobs p) ∧ (pc ≤ 3)%nat)
  ∧ NoDup (jobs p)
  ∧ (∀ i r0, out0 !! i = Some r0 →
       ∃ k, (k ≤ 4)%nat
            ∧ out p !! i = Some (storeUpTo res k i r0)
            ∧ (i ∈ jobs p → k = 0%nat)).
Proof.
  intros p.
  destruct (runPool_inv res out0 sched _ _ (startPool_inv res out0 nworkers))
    as [prog Hinv].
  fold p in Hinv.
  pose proof Hinv as [Hout Hlen Hjobs Hnodup Hbusy Howner Hdone].
  split; [done|]. split; [done|]. split; [|split; [done|]].
  - intros w i pc Hw. destruct (Hbusy _ _ _ Hw) as (_ & Hpc & Hi).
    repeat split; [done| |done].
    intros (_ & _ & Hnone)%Hjobs. by destruct (Hnone _ _ Hw).
  - intros i r0 Hi. exists (prog i).
    destruct (PoolInv_progress res out0 p prog i Hinv) as [Hle Hzero].
    { by eapply lookup_lt_Some. }
    auto.
Qed.

(** X4. After any moves of any number of workers, every attribute of a
    record that came from the listing is what it was: the jobs write
    enrichment fields only, and a record never changes place. *)
Theorem pool_keeps_base_attributes i r0 r :
  out0 !! i = Some r0 →
  out (runPool res sched (startPool nworkers out0)) !! i = Some r →
  baseOf r = baseOf r0.
Proof.
  intros Hi Hr.
  destruct (runPool_inv res out0 sched _ _ (startPool_inv res out0 nworkers))
    as [prog [Hout _ _ _ _ _ _]].
  rewrite (Hout _ _ Hi) in Hr. injection Hr as <-. apply storeUpTo_baseOf.
Qed.

End PoolAtAnyMoment.

Lemma all_idle n : forallb isIdle (replicate n Idle) = true.
Proof. induction n as [|n IH]; [done|]. simpl. exact IH. Qed.

Section PoolBarrier.
Variable res : nat → JobResults.

Lemma finished_stable p w : finished p = true → workerStep res p w = p.
Proof.
  intros Hfin. unfold workerStep.
  destruct (workers p !! w) as [[|i pc]|] eqn:Hw; [| |done].
  - unfold finished in Hfin. by destruct (jobs p).
  - by destruct (finished_idle p w i pc Hfin).
Qed.

Lemma drain_in_5n q : ∀ ws o,
  (∀ i, i ∈ q → (i < length o)%nat) →
  forallb isIdle ws = true →
  finished (runPool res (replicate (5 * length q) 0%nat)
              {| jobs := q; workers := Idle :: ws; out := o |}) = true.
Proof.
  induction q as [|i q IH]; intros ws o Hq Hws; [done|].
  destruct (job_by_worker0 res q ws o i) as (o' & Hlen & Hrun).
  { apply Hq, list_elem_of_here. }
  replace (5 * length (i :: q))%nat with (5 + 5 * length q)%nat
    by (simpl; lia).
  rewrite replicate_add. unfold runPool in *.
  rewrite fold_left_app. change (replicate 5 0%nat) with [0; 0; 0; 0; 0]%nat.
  rewrite Hrun. apply IH; [|done].
  intros j Hj. rewrite Hlen. by apply Hq, list_elem_of_further.
Qed.

(** X5. With at least one worker the barrier is reached: five moves per
    record, all by the first worker, drain the channel and leave every
    worker idle; and once the barrier is reached no further move of any
    worker changes anything. *)
Theorem pool_reaches_barrier nworkers out0 more :
  (0 < nworkers)%nat →
  let sched := replicate (5 * length out0) 0%nat in
  finished (runPool res sched (startPool nworkers out0)) = true
  ∧ runPool res (sched ++ more) (startPool nworkers out0)
    = runPool res sched (startPool nworkers out0).
Proof.
  intros Hn sched.
  assert (Hfin : finished (runPool res sched (startPool nworkers out0)) = true).
  { destruct nworkers as [|n]; [lia|]. clear Hn.
    unfold startPool, sched. cbn [replicate].
    pose proof (drain_in_5n (seq 0 (length out0)) (replicate n Idle) out0)
      as Hdrain.
    rewrite length_seq in Hdrain. apply Hdrain.
    - by intros i [_ ?]%elem_of_seq.
    - apply all_idle. }
  split; [done|].
  unfold runPool in *. rewrite fold_left_app.
  induction more as [|w more IH]; [done|].
  cbn [fold_left]. by rewrite finished_stable.
Qed.

End PoolBarrier.

(** ** What the enrichers return, whatever the server does *)

Lemma length_substring_le n : ∀ s,
  (String.length (String.substring 0 n s) ≤ n)%nat.
Proof.
  induction n as [|n IH]; intros [|c s]; simpl; try lia.
  specialize (IH s). lia.
Qed.

Section ResultShapes.
Context `{Library}.
Variables token fullName : string.

Lemma fetchLastCommit_shape w :
  let '(date, msg, err) := (fetchLastCommit token fullName w).1 in
  (err ≠ None → date = "" ∧ msg = "")
  ∧ (String.length msg ≤ 103)%nat.
Proof.
  unfold fetchLastCommit. unfold mbind, M_bind.
  destruct (doGET _ token w) as [[[status body] [e|]] w'];
    [simpl; split; [done|lia]|].
  destruct ((status <? 200) || (status >=? 300)); [simpl; split; [done|lia]|].
  destruct (unmarshalCommits body) as [e|[|c cs]];
    [simpl; split; [done|lia]..|].
  cbn [fst snd mret M_ret]. split; [intros Hfail; by destruct Hfail|].
  unfold strlen.
  destruct (Z.gtb_spec (Z.of_nat (String.length (Commit_Message c))) 100).
  - rewrite length_append.
    pose proof (length_substring_le 100 (Commit_Message c)). simpl. lia.
  - lia.
Qed.

Lemma fetchLanguages_shape w :
  let '(langs, err) := (fetchLanguages token fullName w).1 in
  err ≠ None → langs = ∅.
Proof.
  unfold fetchLanguages. unfold mbind, M_bind.
  destruct (doGET _ token w) as [[[status body] [e|]] w']; [done|].
  destruct ((status <? 200) || (status >=? 300)); [done|].
  destruct (unmarshalLanguages body); simpl; [done|].
  intros Hfail. by destruct Hfail.
Qed.

Lemma fetchContributors_shape w :
  let '(contribs, n, err) := (fetchContributors token fullName w).1 in
  (err ≠ None → contribs = [] ∧ n = 0)
  ∧ (err = None → n = len contribs).
Proof.
  unfold fetchContributors. unfold mbind, M_bind.
  destruct (doGET _ token w) as [[[status body] [e|]] w']; [done|].
  destruct ((status <? 200) || (status >=? 300)); [done|].
  destruct (unmarshalContributors body) as [e|contribs]; [done|].
  cbn [fst snd mret M_ret]. split; [intros Hfail; by destruct Hfail|].
  intros _. by destruct (Z.eqb_spec (len contribs) 10) as [->|].
Qed.

Lemma fetchLanguages_requests w :
  requests (fetchLanguages token fullName w).2 =
  requests w ++ [request (languagesURL fullName) token].
Proof. by rewrite fetchLanguages_world, doGET_requests. Qed.

(** X6. Whatever the calls meet: each of [fetchLastCommit],
    [fetchLanguages] and [fetchContributors] calls [doGET] exactly once,
    for its own URL, and hands that one request to [client.Do], unless
    [http.NewRequest] fails for the URL: then it sends nothing. One that
    returns an error returns no data with it (empty strings, an empty
    map, an empty list and count 0); the message [fetchLastCommit]
    returns is never longer than 103 bytes; and the count
    [fetchContributors] returns without error is the length of the list
    it returns. *)
Theorem enrichers_results_are_well_formed w :
  (let '(date, msg, err) := (fetchLastCommit token fullName w).1 in
   (err ≠ None → date = "" ∧ msg = "") ∧ (String.length msg ≤ 103)%nat)
  ∧ (let '(langs, err) := (fetchLanguages token fullName w).1 in
     err ≠ None → langs = ∅)
  ∧ (let '(contribs, n, err) := (fetchContributors token fullName w).1 in
     (err ≠ None → contribs = [] ∧ n = 0) ∧ (err = None → n = len contribs))
  ∧ (let url := commitsURL fullName in
     let w' := (fetchLastCommit token fullName w).2 in
     requests w' = requests w ++ [request url token]
     ∧ sent w' = sent w ++ outgoing url token (server w url))
  ∧ (let url := languagesURL fullName in
     let w' := (fetchLanguages token fullName w).2 in
     requests w' = requests w ++ [request url token]
     ∧ sent w' = sent w ++ outgoing url token (server w url))
  ∧ (let url := contributorsURL fullName in
     let w' := (fetchContributors token fullName w).2 in
     requests w' = requests w ++ [request url token]
     ∧ sent w' = sent w ++ outgoing url token (server w url)).
Proof.
  split; [apply fetchLastCommit_shape|].
  split; [apply fetchLanguages_shape|].
  split; [apply fetchContributors_shape|].
  cbv zeta.
  rewrite fetchLastCommit_world, fetchLanguages_world, fetchContributors_world.
  by rewrite !doGET_requests, !doGET_sent.
Qed.

End ResultShapes.

(** ** The effort of the commit-activity fetch *)

Lemma take_drop_nth (l : list Z) a k :
  (a < length l)%nat →
  nth a l 0 :: take k (drop (S a) l) = take (S k) (drop a l).
Proof.
  revert a. induction l as [|x l IH]; intros [|a] Ha; simpl in *; try lia.
  - by rewrite drop_0.
  - apply IH. lia.
Qed.

Section ActivityEffort.
Context `{Library}.
Variables url token : string.

Lemma doGET_result w :
  (doGET url token w).1 =
  match server w url with
  | [] => (0, "", Some (TransportError "connection failed"))
  | NewRequestFails e :: _ => (0, "", Some e)
  | DoFails e :: _ => (0, "", Some e)
  | ReadFails status e :: _ => (status, "", Some e)
  | Answer status body :: _ => (status, body, None)
  end.
Proof. unfold doGET. by destruct (server w url) as [|[]]. Qed.

Lemma activityLoop_effort fuel : ∀ attempt w,
  0 ≤ attempt → Z.of_nat fuel = 5 - attempt → (0 < fuel)%nat →
  let run := activityLoop fuel url token attempt w in
  ∃ n, (1 ≤ n ≤ fuel)%nat
       ∧ requests run.2 = requests w ++ replicate n (request url token)
       ∧ computingFor (n - 1) (server w url) = true
       ∧ sent run.2 =
         sent w ++ replicate (n - 1) (request url token)
         ++ outgoing url token (drop (n - 1) (server w url))
       ∧ slept run.2 =
         slept w ++ take (n - 1) (drop (Z.to_nat attempt) backoffs)
       ∧ server run.2 url = leftBy (drop (n - 1) (server w url))
       ∧ (run.1.1.2 = true ↔ computingFor fuel (server w url) = true).
Proof.
  induction fuel as [|fuel IH]; intros attempt w Ha Hfuel Hpos; [lia|].
  cbn [activityLoop].
  replace (attempt <=? len backoffs) with true
    by (symmetry; apply Z.leb_le; unfold len; simpl; lia).
  cbv zeta. unfold mbind, M_bind.
  pose proof (doGET_requests url token w) as Hreq.
  pose proof (doGET_sent url token w) as Hsent.
  pose proof (doGET_quiet url token w) as (Hslept & _).
  pose proof (doGET_server_same url token w) as Hsrv.
  pose proof (doGET_result w) as Hres.
  destruct (doGET url token w) as [[[status body] e] w1].
  cbn [fst snd] in *.
  assert (Hstop : ∀ p : bool,
    (p = true ↔ computingFor (S fuel) (server w url) = true) →
    ∃ n, (1 ≤ n ≤ S fuel)%nat
         ∧ requests w1 = requests w ++ replicate n (request url token)
         ∧ computingFor (n - 1) (server w url) = true
         ∧ sent w1 =
           sent w ++ replicate (n - 1) (request url token)
           ++ outgoing url token (drop (n - 1) (server w url))
         ∧ slept w1 = slept w ++ take (n - 1) (drop (Z.to_nat attempt) backoffs)
         ∧ server w1 url = leftBy (drop (n - 1) (server w url))
         ∧ (p = true ↔ computingFor (S fuel) (server w url) = true)).
  { intros p Hp. exists 1%nat. cbn [Nat.sub take replicate drop app].
    rewrite app_nil_r, Hsrv, Hsent.
    repeat split; try lia; try tauto; try done. }
  destruct (server w url) as [|[e'|e'|status' e'|status' body'] rest]
    eqn:Hanswers;
    injection Hres as -> -> ->; cbn [fst snd mret M_ret].
  - by apply Hstop.
  - by apply Hstop.
  - by apply Hstop.
  - by apply Hstop.
  - destruct (Z.eqb_spec status' 202) as [->|Hother].
    + destruct (Z.eqb_spec attempt (len backoffs)) as [Hlast|Hmore].
      * unfold len in Hlast. simpl in Hlast.
        assert (fuel = 0%nat) as -> by lia. by apply Hstop.
      * unfold len in Hmore. simpl in Hmore.
        destruct (IH (attempt + 1)
          (Sleep (nth (Z.to_nat attempt) backoffs 0) w1).2)
          as (n & Hn & Hr & Hc & Hq & Hs & Hd & Hp); [lia|lia|lia|].
        exists (S n). cbn [Sleep fst snd] in *.
        rewrite Hr, Hq, Hs, Hd, Hp. cbn [server requests sent slept] in *.
        rewrite Hsrv in Hc. cbn [leftBy tail] in Hc.
        rewrite Hreq, Hsent, Hslept, Hsrv.
        cbn [leftBy outgoing tail].
        replace (S n - 1)%nat with (S (n - 1)) by lia.
        cbn [drop replicate computingFor]. change (202 =? 202) with true.
        cbn [andb].
        repeat split; try lia; try tauto; try done.
        -- by rewrite <- app_assoc.
        -- by rewrite <- !app_assoc.
        -- rewrite <- app_assoc. f_equal. cbn [app].
           replace (Z.to_nat (attempt + 1)) with (S (Z.to_nat attempt)) by lia.
           apply take_drop_nth. simpl. lia.
    + assert (Hno : computingFor (S fuel) (Answer status' body' :: rest) = false).
      { simpl. by replace (status' =? 202) with false
          by (symmetry; by apply Z.eqb_neq). }
      destruct ((status' <? 200) || (status' >=? 300)).
      * apply Hstop. rewrite Hno. done.
      * destruct (unmarshalWeeks body'); apply Hstop; rewrite Hno; done.
Qed.

End ActivityEffort.

Section ActivityBounded.
Context `{Library}.
Variables token fullName : string.

(** X7. Whatever the calls meet, [fetchCommitActivity52W] ends after
    [n] calls of [doGET], 1 ≤ n ≤ 5, all for the repository's
    commit-activity URL. The first [n - 1] were sent and answered 202;
    the last goes to [client.Do] too unless [http.NewRequest] fails, so
    at least [n - 1] and at most [n] requests leave, and each of them
    takes one answer of the endpoint. The function sleeps the first [n - 1]
    entries of the backoff table between the calls and nothing else,
    prints nothing, and returns pending true exactly when the first five
    calls all meet a status 202. *)
Theorem fetchCommitActivity52W_bounded w :
  let url := activityURL fullName in
  let run := fetchCommitActivity52W token fullName w in
  ∃ n, (1 ≤ n ≤ 5)%nat
       ∧ requests run.2 = requests w ++ replicate n (request url token)
       ∧ computingFor (n - 1) (server w url) = true
       ∧ sent run.2 =
         sent w ++ replicate (n - 1) (request url token)
         ++ outgoing url token (drop (n - 1) (server w url))
       ∧ slept run.2 = slept w ++ take (n - 1) backoffs
       ∧ server run.2 url = leftBy (drop (n - 1) (server w url))
       ∧ stdout run.2 = stdout w
       ∧ (run.1.1.2 = true ↔ computingFor 5 (server w url) = true).
Proof.
  intros url run.
  destruct (activityLoop_effort url token 5 0 w)
    as (n & Hn & Hr & Hc & Hq & Hs & Hd & Hp); [lia|lia|lia|].
  destruct (fetchCommitActivity52W_footprint token fullName w)
    as (_ & Hout & _).
  exists n. subst run url. unfold fetchCommitActivity52W in *.
  fold (activityURL fullName) in *. change (S (length backoffs)) with 5%nat in *.
  change (drop (Z.to_nat 0) backoffs) with backoffs in Hs.
  split; [lia|]. split; [exact Hr|]. split; [exact Hc|]. split; [exact Hq|].
  split; [exact Hs|]. split; [exact Hd|]. split; [exact Hout|exact Hp].
Qed.

End ActivityBounded.

(** ** The effects of a job *)

Section JobEffects.
Context `{Library}.
Variable token : string.
Variable nrepos : Z.

Lemma enrichJob_effects r w :
  let full := FullName r in
  let run := enrichJob token nrepos r w in
  let c := incr (completed w) in
  ∃ n, (1 ≤ n ≤ 5)%nat
       ∧ requests run.2 =
         requests w ++ [request (commitsURL full) token]
         ++ replicate n (request (activityURL full) token)
         ++ [request (languagesURL full) token;
             request (contributorsURL full) token]
       ∧ sent run.2 =
         sent w
         ++ outgoing (commitsURL full) token (server w (commitsURL full))
         ++ replicate (n - 1) (request (activityURL full) token)
         ++ outgoing (activityURL full) token
              (drop (n - 1) (server w (activityURL full)))
         ++ outgoing (languagesURL full) token (server w (languagesURL full))
         ++ outgoing (contributorsURL full) token
              (server w (contributorsURL full))
       ∧ slept run.2 = slept w ++ take (n - 1) backoffs ++ [100 * Millisecond]
       ∧ completed run.2 = c
       ∧ stdout run.2 =
         stdout w ++ (if reported nrepos c then [progressLine c nrepos] else []).
Proof.
  cbv zeta. unfold enrichJob. set (full := FullName r).
  unfold mbind, M_bind.
  pose proof (fetchLastCommit_world token full w) as Hw1.
  destruct (fetchLastCommit token full w) as [res1 w1]. cbn [fst snd] in *.
  pose proof (doGET_requests (commitsURL full) token w) as Hq1.
  pose proof (doGET_sent (commitsURL full) token w) as Hs1.
  pose proof (doGET_server_other (commitsURL full) token w) as Hv1.
  pose proof (doGET_quiet (commitsURL full) token w) as (Hl1 & Ho1 & Hc1).
  rewrite <- Hw1 in Hq1, Hs1, Hv1, Hl1, Ho1, Hc1. clear Hw1.
  pose proof (fetchCommitActivity52W_footprint token full w1)
    as (Hv2 & Ho2 & Hc2 & _).
  destruct (activityLoop_effort (activityURL full) token 5 0 w1)
    as (n & Hn & Hq2 & _ & Hs2 & Hl2 & _); [lia|lia|lia|].
  change (activityLoop 5 (activityURL full) token 0 w1)
    with (fetchCommitActivity52W token full w1) in Hq2, Hs2, Hl2.
  change (drop (Z.to_nat 0) backoffs) with backoffs in Hl2.
  destruct (fetchCommitActivity52W token full w1) as [res2 w2].
  cbn [fst snd] in *.
  pose proof (fetchLanguages_world token full w2) as Hw3.
  destruct (fetchLanguages token full w2) as [res3 w3]. cbn [fst snd] in *.
  pose proof (doGET_requests (languagesURL full) token w2) as Hq3.
  pose proof (doGET_sent (languagesURL full) token w2) as Hs3.
  pose proof (doGET_server_other (languagesURL full) token w2) as Hv3.
  pose proof (doGET_quiet (languagesURL full) token w2) as (Hl3 & Ho3 & Hc3).
  rewrite <- Hw3 in Hq3, Hs3, Hv3, Hl3, Ho3, Hc3. clear Hw3.
  pose proof (fetchContributors_world token full w3) as Hw4.
  destruct (fetchContributors token full w3) as [res4 w4]. cbn [fst snd] in *.
  pose proof (doGET_requests (contributorsURL full) token w3) as Hq4.
  pose proof (doGET_sent (contributorsURL full) token w3) as Hs4.
  pose proof (doGET_quiet (contributorsURL full) token w3) as (Hl4 & Ho4 & Hc4).
  rewrite <- Hw4 in Hq4, Hs4, Hl4, Ho4, Hc4. clear Hw4.
  assert (Hreq : requests w4 =
    requests w ++ [request (commitsURL full) token]
    ++ replicate n (request (activityURL full) token)
    ++ [request (languagesURL full) token;
        request (contributorsURL full) token]).
  { rewrite Hq4, Hq3, Hq2, Hq1. by rewrite <- !app_assoc. }
  assert (Ha : server w1 (activityURL full) = server w (activityURL full)).
  { apply Hv1. by apply urls_differ. }
  assert (Hl : server w2 (languagesURL full) = server w (languagesURL full)).
  { rewrite Hv2, Hv1; [done| |]; by apply urls_differ. }
  assert (Hk : server w3 (contributorsURL full)
               = server w (contributorsURL full)).
  { rewrite Hv3, Hv2, Hv1; [done| | |]; by apply urls_differ. }
  assert (Hsent : sent w4 =
    sent w
    ++ outgoing (commitsURL full) token (server w (commitsURL full))
    ++ replicate (n - 1) (request (activityURL full) token)
    ++ outgoing (activityURL full) token
         (drop (n - 1) (server w (activityURL full)))
    ++ outgoing (languagesURL full) token (server w (languagesURL full))
    ++ outgoing (contributorsURL full) token
         (server w (contributorsURL full))).
  { rewrite Hs4, Hs3, Hs2, Hs1, Ha, Hl, Hk. by rewrite <- !app_assoc. }
  assert (Hslept : slept w4 = slept w ++ take (n - 1) backoffs) by congruence.
  assert (Hout : stdout w4 = stdout w) by congruence.
  assert (Hdone : completed w4 = completed w) by congruence.
  exists n. unfold bumpCompleted, reported. rewrite Hdone.
  destruct ((Z.rem (incr (completed w)) 5 =? 0)
            || (incr (completed w) =? nrepos)); simpl.
  - rewrite Hreq, Hsent, Hslept, Hout, <- app_assoc. done.
  - rewrite Hreq, Hsent, Hslept, Hout, <- app_assoc, app_nil_r. done.
Qed.

Lemma length_outgoing url answers :
  (length (outgoing url token answers) ≤ 1)%nat.
Proof. unfold outgoing. destruct answers as [|[]]; simpl; lia. Qed.

Lemma outgoing_sent url answers :
  (∀ e, NewRequestFails e ∉ answers) →
  outgoing url token answers = [request url token].
Proof.
  unfold outgoing. intros Hsent. destruct answers as [|[e| | |] rest]; try done.
  destruct (Hsent e). apply list_elem_of_here.
Qed.

(** X8. Whatever the calls meet, a job calls [doGET] between 4 and 8
    times and hands at most as many requests to [client.Do]: each
    call's request, in order, except those for which [http.NewRequest]
    fails; so it sends all of them when [http.NewRequest] never
    fails. The job sleeps the backoffs of its activity fetch
    (6.9 seconds at most) and then its pacing delay of 100 ms, adds
    exactly one to the progress counter, and prints its progress line
    exactly when the new count is a multiple of 5 or equals the
    total. *)
Theorem enrichJob_effort r w :
  let full := FullName r in
  let run := enrichJob token nrepos r w in
  let c := incr (completed w) in
  ∃ n paused, (1 ≤ n ≤ 5)%nat ∧
    let calls :=
      [request (commitsURL full) token]
      ++ replicate n (request (activityURL full) token)
      ++ [request (languagesURL full) token;
          request (contributorsURL full) token] in
    let asked :=
      outgoing (commitsURL full) token (server w (commitsURL full))
      ++ replicate (n - 1) (request (activityURL full) token)
      ++ outgoing (activityURL full) token
           (drop (n - 1) (server w (activityURL full)))
      ++ outgoing (languagesURL full) token (server w (languagesURL full))
      ++ outgoing (contributorsURL full) token
           (server w (contributorsURL full)) in
    requests run.2 = requests w ++ calls
    ∧ (4 ≤ length calls ≤ 8)%nat
    ∧ sent run.2 = sent w ++ asked
    ∧ asked `sublist_of` calls
    ∧ ((∀ url e, NewRequestFails e ∉ server w url) → asked = calls)
    ∧ slept run.2 = slept w ++ paused ++ [100 * Millisecond]
    ∧ 0 ≤ total paused ≤ 6900 * Millisecond
    ∧ completed run.2 = c
    ∧ stdout run.2 =
      stdout w ++ (if reported nrepos c then [progressLine c nrepos] else []).
Proof.
  intros full run c.
  destruct (enrichJob_effects r w)
    as (n & Hn & Hreq & Hsent & Hslept & Hdone & Hout).
  exists n, (take (n - 1) backoffs). split; [exact Hn|]. cbv zeta.
  split; [exact Hreq|]. split.
  { cbn [length app]. rewrite length_app, length_replicate. simpl. lia. }
  split; [exact Hsent|].
  assert (Hlast : ∀ answers,
    replicate (n - 1) (request (activityURL full) token)
    ++ outgoing (activityURL full) token answers
    `sublist_of` replicate n (request (activityURL full) token)).
  { intros answers. replace n with (n - 1 + 1)%nat at 2 by lia.
    rewrite replicate_add. apply sublist_app; [done|].
    unfold outgoing. destruct answers as [|[]]; simpl;
      first [done | apply sublist_nil_l]. }
  split.
  { apply sublist_app.
    { unfold outgoing.
      destruct (server w (commitsURL full)) as [|[]];
        first [done | apply sublist_nil_l]. }
    rewrite app_assoc. apply sublist_app; [apply Hlast|].
    change [request (languagesURL full) token;
            request (contributorsURL full) token]
      with ([request (languagesURL full) token]
            ++ [request (contributorsURL full) token]).
    apply sublist_app; unfold outgoing.
    - destruct (server w (languagesURL full)) as [|[]];
        first [done | apply sublist_nil_l].
    - destruct (server w (contributorsURL full)) as [|[]];
        first [done | apply sublist_nil_l]. }
  split.
  { intros Hnever. rewrite !outgoing_sent.
    - replace n with (n - 1 + 1)%nat at 2 by lia.
      rewrite replicate_add. cbn [replicate]. by rewrite <- !app_assoc.
    - apply Hnever.
    - apply Hnever.
    - intros e Hin. apply (Hnever (activityURL full) e).
      rewrite <- (take_drop (n - 1) (server w (activityURL full))).
      apply elem_of_app. by right.
    - apply Hnever. }
  split; [exact Hslept|]. split; [|done].
  assert (n = 1 ∨ n = 2 ∨ n = 3 ∨ n = 4 ∨ n = 5)%nat
    as [->|[->|[->|[->| ->]]]] by lia; vm_compute; split; discriminate.
Qed.

End JobEffects.

(** ** What every enriched record satisfies *)

Lemma stores_baseOf res1 res2 res3 res4 r :
  baseOf (storeContributors res4
            (storeLanguages res3 (storeActivity res2 (storeLastCommit res1 r))))
  = baseOf r.
Proof.
  exact (storeUpTo_baseOf
           (λ _, {| resLastCommit := res1; resActivity := res2;
                    resLanguages := res3; resContributors := res4 |}) 4 0 r).
Qed.

Section RecordInvariants.
Context `{Library}.
Variable token : string.
Variable nrepos : Z.

(** X9. Whatever the server answers, the record a job makes of a base
    record keeps every attribute of the listing, and its enrichment
    fields hang together: [ContributorCount] is the length of
    [TopContributors]; [WeeklyCommits52W] holds the totals of
    [WeeklyStats52W], week by week; [TotalCommits] is their sum (in Go's
    int); [LastCommitMessage] is at most 103 bytes long; and a record
    marked pending has no weekly data and a total of zero. *)
Theorem enrichJob_record_invariants (g : GH.ghRepo) w :
  let r := baseRecord g in
  let r' := (enrichJob token nrepos r w).1 in
  baseOf r' = baseOf r
  ∧ ContributorCount r' = len (TopContributors r')
  ∧ WeeklyCommits52W r' = map Total (WeeklyStats52W r')
  ∧ TotalCommits r' = wrap (total (WeeklyCommits52W r'))
  ∧ (String.length (LastCommitMessage r') ≤ 103)%nat
  ∧ (StatsCachePending r' = true → WeeklyStats52W r' = [] ∧ TotalCommits r' = 0).
Proof.
  intros r r'.
  destruct (enrichJob_unfolded token nrepos r w) as (Hr' & _).
  cbv zeta in Hr'. fold r' in Hr'.
  set (full := FullName r) in *.
  pose proof (fetchLastCommit_shape token full w) as S1.
  pose proof (fetchCommitActivity52W_terminal token full w) as S2.
  pose proof (fetchContributors_shape token full w) as S4.
  set (res1 := (fetchLastCommit token full w).1) in *.
  set (res2 := (fetchCommitActivity52W token full w).1) in *.
  set (res3 := (fetchLanguages token full w).1) in *.
  set (res4 := (fetchContributors token full w).1) in *.
  clearbody res1 res2 res3 res4 r'. subst r'.
  split; [apply stores_baseOf|].
  pose proof (storeContributors_keeps res4
    (storeLanguages res3 (storeActivity res2 (storeLastCommit res1 r))))
    as (K41 & K42 & K43 & K44 & K45 & K46 & K47).
  pose proof (storeLanguages_keeps res3
    (storeActivity res2 (storeLastCommit res1 r)))
    as (K31 & K32 & K33 & K34 & K35 & K36 & K37 & K38).
  pose proof (storeActivity_keeps res2 (storeLastCommit res1 r))
    as (K21 & K22 & K23 & K24 & K25).
  pose proof (storeLastCommit_keeps res1 r)
    as (K11 & K12 & K13 & K14 & K15 & K16 & K17).
  cbv zeta in *.
  rewrite K42, K32, K22, K43, K33, K44, K34, K45, K35, K46, K36.
  split.
  { destruct res4 as [[contribs n] [e|]]; cbn [storeContributors].
    - by rewrite K37, K24, K16, K38, K25, K17.
    - destruct S4 as [_ ->]; done. }
  assert (Hweekly :
    WeeklyCommits52W (storeActivity res2 (storeLastCommit res1 r))
      = map Total (WeeklyStats52W (storeActivity res2 (storeLastCommit res1 r)))
    ∧ TotalCommits (storeActivity res2 (storeLastCommit res1 r))
      = wrap (total (WeeklyCommits52W
                       (storeActivity res2 (storeLastCommit res1 r))))
    ∧ (StatsCachePending (storeActivity res2 (storeLastCommit res1 r)) = true →
       WeeklyStats52W (storeActivity res2 (storeLastCommit res1 r)) = []
       ∧ TotalCommits (storeActivity res2 (storeLastCommit res1 r)) = 0)).
  { destruct res2 as [[weeks pending] [e|]].
    - rewrite storeActivity_failed, K11, K12, K13, K14. done.
    - destruct (storeActivity_ok weeks pending (storeLastCommit res1 r))
        as (-> & -> & -> & ->).
      split; [done|]. split; [done|].
      intros ->. by destruct S2 as [[-> _] _]. }
  destruct Hweekly as (Hw1 & Hw2 & Hw3).
  split; [done|]. split; [done|]. split; [|done].
  destruct res1 as [[date msg] [e|]]; cbn [storeLastCommit].
  - simpl. lia.
  - by destruct S1 as [_ ?].
Qed.

End RecordInvariants.

(** ** The progress lines of a run *)

Section Progress.
Context `{Library}.
Variable token : string.
Variable nrepos : Z.

Lemma enrichInOrder_progress records : ∀ w,
  0 ≤ completed w →
  completed w + len records ≤ MaxInt →
  let run := enrichInOrder token nrepos records w in
  completed run.2 = completed w + len records
  ∧ stdout run.2 =
    stdout w ++ map (λ c, progressLine c nrepos)
                    (filter (λ c, reported nrepos c = true)
                       (seqZ (completed w + 1) (len records)))
  ∧ map baseOf run.1 = map baseOf records.
Proof.
  induction records as [|r records IH]; intros w Hc Hmax.
  - simpl. rewrite Z.add_0_r, app_nil_r. done.
  - cbv zeta. cbn [enrichInOrder]. unfold mbind, M_bind.
    destruct (enrichJob_effects token nrepos r w)
      as (n & _ & _ & _ & _ & Hdone & Hout).
    destruct (enrichJob_unfolded token nrepos r w) as (Hr' & _).
    cbv zeta in *.
    destruct (enrichJob token nrepos r w) as [r' w1]. cbn [fst snd] in *.
    assert (Hlen : len (r :: records) = len records + 1)
      by (unfold len; simpl; lia).
    rewrite Hlen in *.
    assert (Hnext : incr (completed w) = completed w + 1).
    { unfold incr, add. apply wrap_id.
      pose proof (count_range (λ _ : outRepo, true) records).
      unfold inRange, MinInt, MaxInt in *. unfold len in *. lia. }
    rewrite Hnext in *.
    destruct (IH w1) as (IHc & IHo & IHb).
    { lia. } { unfold len in *. lia. }
    destruct (enrichInOrder token nrepos records w1) as [rest' w2].
    cbn [fst snd mret M_ret] in *.
    split; [lia|]. split.
    + rewrite IHo, Hout, Hdone, <- app_assoc. f_equal.
      rewrite (seqZ_cons (completed w + 1)) by (unfold len; lia).
      rewrite filter_cons.
      replace (Z.succ (completed w + 1)) with (completed w + 1 + 1) by lia.
      replace (Z.pred (len records + 1)) with (len records) by lia.
      destruct (decide (reported nrepos (completed w + 1) = true)) as [Hrep|Hrep].
      * by rewrite Hrep.
      * by destruct (reported nrepos (completed w + 1)).
    + cbn [map]. f_equal; [|done]. rewrite Hr'. apply stores_baseOf.
Qed.

(** X10. When one worker runs the jobs of [n] records in order, from a
    progress counter at zero and with the total [n]: the counter ends at
    [n]; the lines printed are the progress lines of the counts from 1
    to [n] that are multiples of 5 or equal [n], in increasing order,
    and nothing else; so the last line, when there is a record at all,
    reports [n] of [n]; and the records come out in the order they went
    in, with the attributes of the listing unchanged. *)
Theorem enrichInOrder_reports_progress records w :
  completed w = 0 →
  nrepos = len records →
  len records ≤ MaxInt →
  let run := enrichInOrder token nrepos records w in
  completed run.2 = nrepos
  ∧ stdout run.2 =
    stdout w ++ map (λ c, progressLine c nrepos)
                    (filter (λ c, reported nrepos c = true) (seqZ 1 nrepos))
  ∧ (records ≠ [] → last (stdout run.2) = Some (progressLine nrepos nrepos))
  ∧ map baseOf run.1 = map baseOf records.
Proof.
  intros Hzero Hn Hmax run.
  destruct (enrichInOrder_progress records w) as (Hc & Ho & Hb); [lia|lia|].
  fold run in Hc, Ho, Hb. rewrite Hzero in *.
  split; [lia|]. split; [by rewrite Ho, Hn|]. split; [|done].
  intros Hsome. rewrite Ho, Hn. clear Ho Hc Hb Hn run.
  destruct records as [|r rs]; [done|].
  unfold len. cbn [length]. rewrite seqZ_S, filter_app, map_app, app_assoc.
  rewrite filter_cons, decide_True.
  - cbn [filter list_filter map]. rewrite last_snoc. do 2 f_equal. lia.
  - unfold reported.
    replace (0 + 1 + Z.of_nat (length rs) =? Z.of_nat (S (length rs)))
      with true by (symmetry; apply Z.eqb_eq; lia).
    apply orb_true_r.
Qed.

End Progress.

(** ** The aggregator: every counter, sum and tally *)

Lemma count_negb {A} (f : A → bool) l :
  count f l + count (λ x, negb (f x)) l = len l.
Proof.
  induction l as [|x l IH]; [done|].
  rewrite !count_cons. unfold len in *. cbn [length].
  destruct (f x); simpl; lia.
Qed.

Lemma count_all {A} (l : list A) : count (λ _, true) l = len l.
Proof.
  induction l as [|x l IH]; [done|].
  rewrite count_cons, IH. unfold len. cbn [length]. lia.
Qed.

Lemma count_app {A} (f : A → bool) l1 l2 :
  count f (l1 ++ l2) = count f l1 + count f l2.
Proof. unfold count. rewrite filter_app, length_app. lia. Qed.

Lemma bump_lookup k t (m : gmap string Z) :
  default 0 (bump t m !! k) =
  if String.eqb t k then incr (default 0 (m !! k)) else default 0 (m !! k).
Proof.
  unfold bump. destruct (String.eqb_spec t k) as [->|Hne].
  - by rewrite lookup_insert_eq.
  - by rewrite lookup_insert_ne.
Qed.

Lemma fold_bump_all k ts : ∀ m : gmap string Z,
  inRange (default 0 (m !! k)) →
  default 0 (fold_left (λ m t, bump t m) ts m !! k)
  = wrap (default 0 (m !! k) + count (λ t, String.eqb t k) ts).
Proof.
  induction ts as [|t ts IH]; intros m Hm.
  - simpl. unfold count. simpl. by rewrite Z.add_0_r, wrap_id.
  - cbn [fold_left]. rewrite count_cons, IH.
    + rewrite bump_lookup. destruct (String.eqb t k); [|done].
      unfold incr, add. rewrite wrap_add_l. f_equal. lia.
    + rewrite bump_lookup. destruct (String.eqb t k); [apply wrap_range|done].
Qed.

Lemma fold_bump_keys (key : outRepo → string) k l : ∀ m : gmap string Z,
  fold_left (λ m r, if negb (String.eqb (key r) "")
                    then bump (key r) m else m) l m !! k = None
  ↔ m !! k = None ∧ (k = "" ∨ ∀ r, r ∈ l → key r ≠ k).
Proof.
  induction l as [|r l IH]; intros m.
  - simpl. split; [|tauto]. intros Hk. split; [done|]. right.
    by intros r ?%elem_of_nil.
  - cbn [fold_left]. rewrite IH.
    destruct (String.eqb_spec (key r) "") as [Hempty|Hfull]; cbn [negb].
    + split.
      * intros [Hm Hk]. split; [done|].
        destruct (decide (k = "")) as [|Hne]; [by left|]. right.
        destruct Hk as [|Hk]; [done|].
        intros r' [->|Hr']%elem_of_cons; [congruence|auto].
      * intros [Hm Hk]. split; [done|].
        destruct Hk as [|Hk]; [by left|]. right.
        intros r' Hr'. apply Hk. by apply list_elem_of_further.
    + unfold bump. rewrite lookup_insert_None. split.
      * intros [[Hm Hne] Hk]. split; [done|].
        destruct Hk as [|Hk]; [by left|]. right.
        intros r' [->|Hr']%elem_of_cons; auto.
      * intros [Hm Hk]. destruct Hk as [->|Hk].
        -- split; [split; [done|exact Hfull]|by left].
        -- split; [split; [done|]|right].
           ++ apply Hk, list_elem_of_here.
           ++ intros r' Hr'. apply Hk. by apply list_elem_of_further.
Qed.

Section Counters.
Context `{Library}.

Lemma fold_counter (field : AggState → Z) (f : outRepo → bool) :
  (∀ a r, field (aggStep a r) = if f r then incr (field a) else field a) →
  ∀ out a, inRange (field a) →
    field (fold_left aggStep out a) = wrap (field a + count f out).
Proof.
  intros Hstep out. induction out as [|r out IH]; intros a Ha.
  - simpl. unfold count. simpl. by rewrite Z.add_0_r, wrap_id.
  - cbn [fold_left]. rewrite count_cons, IH, Hstep.
    + destruct (f r); [|done]. unfold incr, add.
      rewrite wrap_add_l. f_equal. lia.
    + rewrite Hstep. destruct (f r); [apply wrap_range|done].
Qed.

Lemma fold_summed (field : AggState → Z) (g : outRepo → Z) :
  (∀ a r, field (aggStep a r) = add (field a) (g r)) →
  ∀ out a, inRange (field a) →
    field (fold_left aggStep out a) = wrap (field a + total (map g out)).
Proof.
  intros Hstep out. induction out as [|r out IH]; intros a Ha.
  - simpl. by rewrite Z.add_0_r, wrap_id.
  - cbn [fold_left]. rewrite IH, Hstep by (rewrite Hstep; apply wrap_range).
    unfold add, total. simpl. rewrite wrap_add_l. f_equal. lia.
Qed.

Lemma fold_Topics out : ∀ a,
  Sum.Topics (sum (fold_left aggStep out a)) =
  fold_left (λ m t, bump t m) (concat (map Topics out)) (Sum.Topics (sum a)).
Proof.
  induction out as [|r out IH]; intros a; [done|].
  cbn [fold_left map concat]. rewrite fold_left_app, IH. done.
Qed.

Lemma fold_Licenses out : ∀ a,
  Sum.Licenses (sum (fold_left aggStep out a)) =
  fold_left (λ m r, if negb (String.eqb (License r) "")
                    then bump (License r) m else m) out
    (Sum.Licenses (sum a)).
Proof. induction out as [|r out IH]; intros a; [done|]. simpl. by rewrite IH. Qed.

(** X11. The repository counts of the summary: [Total] is the number
    of records; [Public] and [Private] split it, and so do [Org] (owner
    type exactly ["Organization"]) and [User] (any other owner type);
    [Archived] and [Forks] count the records so flagged. Exact as long
    as the number of records fits in an int. *)
Theorem summary_repo_counts now out :
  len out ≤ MaxInt →
  let rc := Sum.RepoCounts (buildSummary now out) in
  Sum.Total rc = len out
  ∧ Sum.Private rc = count Private out
  ∧ Sum.Public rc + Sum.Private rc = Sum.Total rc
  ∧ Sum.Org rc = count (λ r, String.eqb (OwnerType r) "Organization") out
  ∧ Sum.Org rc + Sum.User rc = Sum.Total rc
  ∧ Sum.Archived rc = count Archived out
  ∧ Sum.Forks rc = count Fork out.
Proof.
  intros Hlen rc. subst rc. unfold buildSummary. cbn [Sum.RepoCounts].
  assert (Hfit : ∀ f : outRepo → bool, wrap (0 + count f out) = count f out).
  { intros f. apply wrap_id. pose proof (count_range f out).
    unfold inRange, MinInt, MaxInt in *. lia. }
  pose proof (fold_counter (λ a, Sum.Total (Sum.RepoCounts (sum a)))
    (λ _, true) (λ _ _, eq_refl) out (aggInit now) inRange_0) as HT.
  pose proof (fold_counter (λ a, Sum.Public (Sum.RepoCounts (sum a)))
    (λ r, negb (Private r)) (λ _ _, eq_refl) out (aggInit now) inRange_0) as HPu.
  pose proof (fold_counter (λ a, Sum.Private (Sum.RepoCounts (sum a)))
    Private (λ _ _, eq_refl) out (aggInit now) inRange_0) as HPr.
  pose proof (fold_counter (λ a, Sum.Org (Sum.RepoCounts (sum a)))
    (λ r, String.eqb (OwnerType r) "Organization") (λ _ _, eq_refl)
    out (aggInit now) inRange_0) as HO.
  pose proof (fold_counter (λ a, Sum.User (Sum.RepoCounts (sum a)))
    (λ r, negb (String.eqb (OwnerType r) "Organization")) (λ _ _, eq_refl)
    out (aggInit now) inRange_0) as HU.
  pose proof (fold_counter (λ a, Sum.Archived (Sum.RepoCounts (sum a)))
    Archived (λ _ _, eq_refl) out (aggInit now) inRange_0) as HA.
  pose proof (fold_counter (λ a, Sum.Forks (Sum.RepoCounts (sum a)))
    Fork (λ _ _, eq_refl) out (aggInit now) inRange_0) as HF.
  cbn beta in *. rewrite HT, HPu, HPr, HO, HU, HA, HF.
  cbn [aggInit sum Sum.RepoCounts Sum.Total Sum.Public Sum.Private Sum.Org
       Sum.User Sum.Archived Sum.Forks].
  rewrite !Hfit.
  rewrite (count_all out).
  split; [done|]. split; [done|]. split.
  { rewrite Z.add_comm. apply count_negb. }
  split; [done|]. split; [|done].
  apply (count_negb (λ r, String.eqb (OwnerType r) "Organization")).
Qed.

(** X12. The coverage counters of the summary: each is the number of
    records that carry the field (a non-empty last commit date, at least
    one weekly total, at least one language, at least one contributor,
    the pending flag), so none exceeds [Total]. Exact as long as the
    number of records fits in an int. *)
Theorem summary_coverage now out :
  len out ≤ MaxInt →
  let ec := Sum.Enrichment (buildSummary now out) in
  Sum.ReposWithLastCommit ec
    = count (λ r, negb (String.eqb (LastCommitAt r) "")) out
  ∧ Sum.ReposWithStats52W ec = count hasStats52W out
  ∧ Sum.ReposWithLanguages ec
    = count (λ r, Z.of_nat (size (LanguageBreakdown r)) >? 0) out
  ∧ Sum.ReposWithContributors ec
    = count (λ r, len (TopContributors r) >? 0) out
  ∧ Sum.ReposStatsPending ec = count isPending out
  ∧ (∀ counter,
       counter ∈ [Sum.ReposWithLastCommit ec; Sum.ReposWithStats52W ec;
                  Sum.ReposWithLanguages ec; Sum.ReposWithContributors ec;
                  Sum.ReposStatsPending ec] →
       0 ≤ counter ≤ Sum.Total (Sum.RepoCounts (buildSummary now out))).
Proof.
  intros Hlen ec. subst ec. unfold buildSummary.
  cbn [Sum.Enrichment Sum.RepoCounts].
  assert (Hfit : ∀ f : outRepo → bool, wrap (0 + count f out) = count f out).
  { intros f. apply wrap_id. pose proof (count_range f out).
    unfold inRange, MinInt, MaxInt in *. lia. }
  pose proof (fold_counter (λ a, Sum.Total (Sum.RepoCounts (sum a)))
    (λ _, true) (λ _ _, eq_refl) out (aggInit now) inRange_0) as HT.
  pose proof (fold_counter (λ a, Sum.ReposWithLastCommit (Sum.Enrichment (sum a)))
    (λ r, negb (String.eqb (LastCommitAt r) "")) (λ _ _, eq_refl)
    out (aggInit now) inRange_0) as H1.
  pose proof (fold_counter (λ a, Sum.ReposWithStats52W (Sum.Enrichment (sum a)))
    hasStats52W (λ _ _, eq_refl) out (aggInit now) inRange_0) as H2.
  pose proof (fold_counter (λ a, Sum.ReposWithLanguages (Sum.Enrichment (sum a)))
    (λ r, Z.of_nat (size (LanguageBreakdown r)) >? 0) (λ _ _, eq_refl)
    out (aggInit now) inRange_0) as H3.
  pose proof (fold_counter (λ a, Sum.ReposWithContributors (Sum.Enrichment (sum a)))
    (λ r, len (TopContributors r) >? 0) (λ _ _, eq_refl)
    out (aggInit now) inRange_0) as H4.
  pose proof (fold_counter (λ a, Sum.ReposStatsPending (Sum.Enrichment (sum a)))
    isPending (λ _ _, eq_refl) out (aggInit now) inRange_0) as H5.
  cbn beta in *. rewrite HT, H1, H2, H3, H4, H5.
  cbn [aggInit sum Sum.RepoCounts Sum.Total Sum.Enrichment
       Sum.ReposWithLastCommit Sum.ReposWithStats52W Sum.ReposWithLanguages
       Sum.ReposWithContributors Sum.ReposStatsPending].
  rewrite !Hfit.
  pose proof (count_all out) as Hall.
  rewrite Hall. do 5 (split; [done|]).
  intros counter Hin. repeat (apply elem_of_cons in Hin as [->|Hin]);
    [apply count_range..|by apply elem_of_nil in Hin].
Qed.

(** X13. The sums of the summary: [Size.TotalKB] and the stars, forks
    and watchers of [Engagement] are the sums of the records' fields in
    Go's int, hence the sums themselves when these fit, and
    [Size.Human] is [humanSizeFromKB] of [Size.TotalKB]. *)
Theorem summary_sums now out :
  let s := buildSummary now out in
  Sum.TotalKB (Sum.Size s) = wrap (total (map SizeKB out))
  ∧ Sum.Human (Sum.Size s) = humanSizeFromKB (Sum.TotalKB (Sum.Size s))
  ∧ Sum.TotalStars (Sum.Engagement s) = wrap (total (map Stars out))
  ∧ Sum.TotalForks (Sum.Engagement s) = wrap (total (map Forks out))
  ∧ Sum.TotalWatchers (Sum.Engagement s) = wrap (total (map Watchers out))
  ∧ (inRange (total (map SizeKB out)) →
     Sum.TotalKB (Sum.Size s) = total (map SizeKB out))
  ∧ (inRange (total (map Stars out)) →
     Sum.TotalStars (Sum.Engagement s) = total (map Stars out)).
Proof.
  intros s. subst s. unfold buildSummary. cbn [Sum.Size Sum.Engagement Sum.TotalKB Sum.Human].
  pose proof (fold_summed (λ a, Sum.TotalKB (Sum.Size (sum a))) SizeKB
    (λ _ _, eq_refl) out (aggInit now) inRange_0) as HK.
  pose proof (fold_summed (λ a, Sum.TotalStars (Sum.Engagement (sum a))) Stars
    (λ _ _, eq_refl) out (aggInit now) inRange_0) as HS.
  pose proof (fold_summed (λ a, Sum.TotalForks (Sum.Engagement (sum a))) Forks
    (λ _ _, eq_refl) out (aggInit now) inRange_0) as HF.
  pose proof (fold_summed (λ a, Sum.TotalWatchers (Sum.Engagement (sum a)))
    Watchers (λ _ _, eq_refl) out (aggInit now) inRange_0) as HW.
  cbn beta in *. rewrite HK, HS, HF, HW.
  cbn [aggInit sum Sum.Size Sum.TotalKB Sum.Engagement Sum.TotalStars
       Sum.TotalForks Sum.TotalWatchers].
  repeat split; try done; intros Hfit; by rewrite wrap_id.
Qed.

(** X14. The tallies of the summary. [Topics[t]] is the number of times
    [t] occurs in the topic lists of all records, repeated occurrences
    and the empty string included; [Licenses[k]], for a non-empty [k], is
    the number of records whose [License] is [k] (in Go's int; an absent
    key reads as zero). The empty string is never a key of [Languages] or
    [Licenses], and a language or license is a key exactly when some
    record carries it. *)
Theorem summary_tallies now out :
  let s := buildSummary now out in
  (∀ t, default 0 (Sum.Topics s !! t)
        = wrap (count (λ x, String.eqb x t) (concat (map Topics out))))
  ∧ (∀ k, k ≠ "" →
       default 0 (Sum.Licenses s !! k)
       = wrap (count (λ r, String.eqb (License r) k) out))
  ∧ (∀ k, Sum.Languages s !! k = None
          ↔ k = "" ∨ ∀ r, r ∈ out → Language r ≠ k)
  ∧ (∀ k, Sum.Licenses s !! k = None
          ↔ k = "" ∨ ∀ r, r ∈ out → License r ≠ k).
Proof.
  intros s. subst s. unfold buildSummary.
  cbn [Sum.Topics Sum.Licenses Sum.Languages].
  rewrite fold_Topics, fold_Licenses, fold_Languages.
  cbn [aggInit sum Sum.Topics Sum.Licenses Sum.Languages].
  split; [|split; [|split]].
  - intros t. rewrite fold_bump_all; [done|].
    rewrite lookup_empty. apply inRange_0.
  - intros k Hk. rewrite fold_bump; [done|done|].
    rewrite lookup_empty. apply inRange_0.
  - intros k. rewrite fold_bump_keys, lookup_empty. tauto.
  - intros k. rewrite fold_bump_keys, lookup_empty. tauto.
Qed.

End Counters.

(** ** The aggregator: the order of the records *)

Lemma add_swap x a b : add (add x a) b = add (add x b) a.
Proof. unfold add. rewrite !wrap_add_l. f_equal. lia. Qed.

Lemma incrIf_swap c1 c2 x : incrIf c1 (incrIf c2 x) = incrIf c2 (incrIf c1 x).
Proof. by destruct c1, c2. Qed.

Lemma bump_swap t1 t2 (m : gmap string Z) :
  bump t1 (bump t2 m) = bump t2 (bump t1 m).
Proof.
  unfold bump. destruct (decide (t1 = t2)) as [->|Hne]; [done|].
  rewrite !lookup_insert_ne by done. by apply insert_insert_ne.
Qed.

Lemma bump_fold_swap t ts : ∀ m : gmap string Z,
  bump t (fold_left (λ m x, bump x m) ts m)
  = fold_left (λ m x, bump x m) ts (bump t m).
Proof.
  induction ts as [|u ts IH]; intros m; [done|].
  cbn [fold_left]. by rewrite IH, bump_swap.
Qed.

Lemma fold_bump_swap ts1 ts2 : ∀ m : gmap string Z,
  fold_left (λ m x, bump x m) ts1 (fold_left (λ m x, bump x m) ts2 m)
  = fold_left (λ m x, bump x m) ts2 (fold_left (λ m x, bump x m) ts1 m).
Proof.
  induction ts1 as [|t ts1 IH]; intros m; [done|].
  cbn [fold_left]. by rewrite bump_fold_swap, IH.
Qed.

Lemma bumpIf_swap (c1 c2 : bool) t1 t2 (m : gmap string Z) :
  (if c1 then bump t1 (if c2 then bump t2 m else m)
   else if c2 then bump t2 m else m)
  = (if c2 then bump t2 (if c1 then bump t1 m else m)
     else if c1 then bump t1 m else m).
Proof. destruct c1, c2; try done. apply bump_swap. Qed.

Lemma newer_swap has cur p1 p2 :
  newer (newer has cur p1).2 (newer has cur p1).1 p2
  = newer (newer has cur p2).2 (newer has cur p2).1 p1.
Proof.
  destruct p1 as [t1|], p2 as [t2|], has; unfold newer; cbn [negb orb fst snd];
    try done;
    repeat (match goal with
            | |- context [?a >? ?b] => destruct (Z.gtb_spec a b)
            end; cbn [negb orb fst snd]);
    try done; f_equal; lia.
Qed.

Lemma older_swap has cur p1 p2 :
  older (older has cur p1).2 (older has cur p1).1 p2
  = older (older has cur p2).2 (older has cur p2).1 p1.
Proof.
  destruct p1 as [t1|], p2 as [t2|], has; unfold older; cbn [negb orb fst snd];
    try done;
    repeat (match goal with
            | |- context [?a <? ?b] => destruct (Z.ltb_spec a b)
            end; cbn [negb orb fst snd]);
    try done; f_equal; lia.
Qed.

Section Order.
Context `{Library}.

Lemma aggStep_swap a x y :
  aggStep (aggStep a x) y = aggStep (aggStep a y) x.
Proof.
  unfold aggStep. cbv zeta.
  cbn [sum newestUpdate newestPush oldestCreated oldestUpdate hasUpdate
       hasPush hasCreated hasOldUpdate Sum.GeneratedAt Sum.RepoCounts
       Sum.Size Sum.Engagement Sum.Languages Sum.Topics Sum.Licenses
       Sum.Activity Sum.Enrichment Sum.Total Sum.Public Sum.Private
       Sum.Archived Sum.Forks Sum.Org Sum.User Sum.TotalKB Sum.Human
       Sum.TotalStars Sum.TotalForks Sum.TotalWatchers Sum.TotalCommits
       Sum.ReposWithLastCommit Sum.ReposWithStats52W Sum.ReposWithLanguages
       Sum.ReposWithContributors Sum.ReposStatsPending].
  f_equal;
    try first [ apply newer_swap | apply older_swap
              | f_equal; apply newer_swap | f_equal; apply older_swap ].
  f_equal;
    try first [ reflexivity | apply bumpIf_swap | apply fold_bump_swap ];
    f_equal; first [ reflexivity | apply incrIf_swap | apply add_swap ].
Qed.

Lemma fold_aggStep_perm out1 out2 :
  out1 ≡ₚ out2 → ∀ a, fold_left aggStep out1 a = fold_left aggStep out2 a.
Proof.
  induction 1 as [|r l1 l2 _ IH|r1 r2 l|l1 l2 l3 _ IH1 _ IH2]; intros a.
  - done.
  - cbn [fold_left]. apply IH.
  - cbn [fold_left]. by rewrite aggStep_swap.
  - by rewrite IH1, IH2.
Qed.

(** X15. The summary does not depend on the order of the records: two
    lists that hold the same records the same number of times give the
    same summary, in every field. *)
Theorem summary_ignores_order now out1 out2 :
  out1 ≡ₚ out2 → buildSummary now out1 = buildSummary now out2.
Proof.
  intros Hperm. unfold buildSummary.
  by rewrite (fold_aggStep_perm out1 out2 Hperm).
Qed.

End Order.

(** ** From the listing to the summary *)

Lemma count_ext {A} (f g : A → bool) l :
  (∀ x, f x = g x) → count f l = count g l.
Proof.
  intros Hfg. induction l as [|x l IH]; [done|].
  by rewrite !count_cons, IH, Hfg.
Qed.

Lemma count_map {A B} (f : B → bool) (g : A → B) l :
  count f (map g l) = count (λ x, f (g x)) l.
Proof.
  induction l as [|x l IH]; [done|].
  cbn [map]. by rewrite !count_cons, IH.
Qed.

Lemma pool_baseOf res sched nworkers out0 :
  map baseOf (out (runPool res sched (startPool nworkers out0)))
  = map baseOf out0.
Proof.
  destruct (runPool_inv res out0 sched _ _ (startPool_inv res out0 nworkers))
    as [prog [Hout Hlen _ _ _ _ _]].
  apply list_eq. intros i. rewrite !list_lookup_fmap.
  destruct (out0 !! i) as [r0|] eqn:Hi.
  - rewrite (Hout _ _ Hi). simpl. by rewrite storeUpTo_baseOf.
  - apply lookup_ge_None in Hi.
    rewrite (proj2 (lookup_ge_None _ _)) by lia. done.
Qed.

Section Pipeline.
Context `{Library}.

Lemma aggStep_base a a' r r' :
  aggBase a = aggBase a' → baseOf r = baseOf r' →
  aggBase (aggStep a r) = aggBase (aggStep a' r').
Proof.
  unfold aggBase, baseOf. intros Ha Hr.
  injection Ha as Ha1 Ha2 Ha3 Ha4 Ha5 Ha6 Ha7 Ha8 Ha9 Ha10 Ha11 Ha12 Ha13 Ha14
    Ha15 Ha16 Ha17 Ha18.
  injection Hr; intros; clear Hr.
  unfold aggStep. cbv zeta.
  cbn [sum newestUpdate newestPush oldestCreated oldestUpdate hasUpdate
       hasPush hasCreated hasOldUpdate Sum.GeneratedAt Sum.RepoCounts
       Sum.Size Sum.Engagement Sum.Languages Sum.Topics Sum.Licenses
       Sum.Activity Sum.TotalStars Sum.TotalForks Sum.TotalWatchers].
  repeat match goal with
         | Heq : _ = _ |- _ => try rewrite Heq; clear Heq
         end.
  reflexivity.
Qed.

Lemma fold_aggStep_base l1 : ∀ l2 a a',
  map baseOf l1 = map baseOf l2 → aggBase a = aggBase a' →
  aggBase (fold_left aggStep l1 a) = aggBase (fold_left aggStep l2 a').
Proof.
  induction l1 as [|r l1 IH]; intros [|r' l2] a a' Hl Ha; try done.
  cbn [map] in Hl.
  pose proof (f_equal head Hl) as Hr. pose proof (f_equal tail Hl) as Hl'.
  cbn [head tail] in Hr, Hl'. cbn [fold_left].
  apply IH; [done|]. apply aggStep_base; congruence.
Qed.

Lemma buildSummary_base now l1 l2 :
  map baseOf l1 = map baseOf l2 →
  summaryBase (buildSummary now l1) = summaryBase (buildSummary now l2).
Proof.
  intros Hl.
  pose proof (fold_aggStep_base l1 l2 (aggInit now) (aggInit now) Hl eq_refl)
    as Hb.
  unfold aggBase in Hb. injection Hb; intros; clear Hb.
  unfold summaryBase, buildSummary.
  cbn [Sum.GeneratedAt Sum.RepoCounts Sum.Size Sum.Engagement Sum.Languages
       Sum.Topics Sum.Licenses Sum.Activity Sum.TotalStars Sum.TotalForks
       Sum.TotalWatchers].
  repeat match goal with
         | Heq : _ = _ |- _ => try rewrite Heq; clear Heq
         end.
  reflexivity.
Qed.

(** X16. What the enrichment cannot change. Whatever the jobs were
    answered and however far the pool has run, the summary built from
    the pool's records agrees with the summary built from the bare base
    records of the listing in [GeneratedAt], the repository counts, the
    size, the stars, forks and watchers, the three tallies and the four
    activity stamps: only [Engagement.TotalCommits] and the [Enrichment]
    counters depend on the jobs. In particular [Total] is the length of
    the listing, and [Licenses[k]] counts the listed repositories with a
    non-empty license key whose license name is [k]. *)
Theorem summary_listing_part gs res sched nworkers now :
  let out0 := map baseRecord gs in
  let records := out (runPool res sched (startPool nworkers out0)) in
  summaryBase (buildSummary now records) = summaryBase (buildSummary now out0)
  ∧ Sum.Total (Sum.RepoCounts (buildSummary now records)) = wrap (len gs)
  ∧ ∀ k, k ≠ "" →
      default 0 (Sum.Licenses (buildSummary now records) !! k)
      = wrap (count (λ g, negb (String.eqb (GH.License_Key g) "")
                          && String.eqb (GH.License_Name g) k) gs).
Proof.
  intros out0 records.
  pose proof (buildSummary_base now records out0
                (pool_baseOf res sched nworkers out0)) as Hbase.
  split; [exact Hbase|].
  unfold summaryBase in Hbase. injection Hbase; intros; clear Hbase.
  split.
  - replace (Sum.RepoCounts (buildSummary now records))
      with (Sum.RepoCounts (buildSummary now out0)) by done.
    unfold buildSummary. cbn [Sum.RepoCounts].
    rewrite (fold_counter (λ a, Sum.Total (Sum.RepoCounts (sum a)))
               (λ _, true) (λ _ _, eq_refl) out0 (aggInit now) inRange_0).
    cbn [aggInit sum Sum.RepoCounts Sum.Total].
    rewrite count_all. unfold out0, len. by rewrite length_map.
  - intros k Hk.
    replace (Sum.Licenses (buildSummary now records))
      with (Sum.Licenses (buildSummary now out0)) by done.
    unfold buildSummary. cbn [Sum.Licenses].
    rewrite fold_Licenses, fold_bump; [|done|].
    2:{ cbn [aggInit sum Sum.Licenses]. rewrite lookup_empty. apply inRange_0. }
    cbn [aggInit sum Sum.Licenses]. rewrite lookup_empty. cbn [default].
    unfold out0. rewrite count_map. f_equal. rewrite Z.add_0_l.
    apply count_ext. intros g. unfold baseRecord. cbn [License].
    destruct (String.eqb (GH.License_Key g) ""); cbn [negb andb]; [|done].
    apply String.eqb_neq. congruence.
Qed.

End Pipeline.

(** ** The listing has no bound of its own *)

Section ListingUnbounded.
Context {Repo : Type}.
Variable unmarshalRepos : string → error + list Repo.
Variable token : string.

(** X17. [fetchAllAccessibleRepos] stops at the first empty page or the
    first failure and at nothing else: as long as every page asked for
    is answered with success and decodes to a non-empty list, the loop
    has not returned, whatever the number of pages (below the largest
    int, where the page counter would wrap), and it has asked for one
    page per turn. *)
Theorem fetchAllAccessibleRepos_keeps_asking (pageOf : nat → list Repo) n w :
  (∀ k, (k < n)%nat →
     pageOf k ≠ [] ∧ goodPage unmarshalRepos w k (pageOf k)) →
  Z.of_nat n < MaxInt →
  (fetchAllAccessibleRepos unmarshalRepos n token w).1 = None
  ∧ requests (fetchAllAccessibleRepos unmarshalRepos n token w).2
    = requests w ++ map (λ k, request (listURL (Z.of_nat k + 1)) token)
                        (seq 0 n).
Proof.
  intros Hgood Hmax. unfold fetchAllAccessibleRepos.
  destruct (listPages_prefix unmarshalRepos token (map pageOf (seq 0 n))
              0 [] 0 w) as (w' & Hrun & Hreq & _).
  - intros k page Hk. rewrite list_lookup_fmap in Hk.
    destruct (seq 0 n !! k) as [j|] eqn:Hj; [|done].
    apply lookup_seq in Hj as [-> Hlt]. injection Hk as <-.
    by apply Hgood.
  - rewrite length_map, length_seq. lia.
  - rewrite length_map, length_seq, Nat.add_0_r in *.
    change (Z.of_nat 0 + 1) with 1 in Hrun. by rewrite Hrun.
Qed.

End ListingUnbounded.

(** ** The further properties on the examples *)

Lemma pages_are_good w :
  server w (listURL 1) = [Answer 200 "[a,b]"] →
  server w (listURL 2) = [Answer 200 "[c]"] →
  ∀ k page, Pages.pages !! k = Some page →
    page ≠ [] ∧ goodPage Pages.unmarshalRepos w k page.
Proof.
  intros H1 H2 [|[|k]] page Hk; [| |done]; injection Hk as <-.
  - split; [done|]. exists 200, "[a,b]", [].
    split; [exact H1|]. split; [lia|reflexivity].
  - split; [done|]. exists 200, "[c]", [].
    split; [exact H2|]. split; [lia|reflexivity].
Qed.

Lemma fetchAllAccessibleRepos_collects_witness :
  (fetchAllAccessibleRepos Pages.unmarshalRepos 5 "t" Pages.complete).1
  = Some (Scenario.listed, None).
Proof.
  apply (fetchAllAccessibleRepos_collects Pages.unmarshalRepos "t"
           Pages.pages 5 Pages.complete).
  - apply pages_are_good; reflexivity.
  - exists 200, "[]", []. split; [reflexivity|]. split; [lia|reflexivity].
  - simpl. lia.
  - unfold MaxInt. simpl. lia.
Defined.

Lemma fetchAllAccessibleRepos_fails_witness :
  (fetchAllAccessibleRepos Pages.unmarshalRepos 5 "t" Pages.refused).1
  = Some ([], Some (ErrorfBody "github api error %d: %s" 403 "rate limited")).
Proof.
  apply (fetchAllAccessibleRepos_fails Pages.unmarshalRepos "t"
           Pages.pages 5 Pages.refused).
  - apply pages_are_good; reflexivity.
  - reflexivity.
  - simpl. lia.
  - unfold MaxInt. simpl. lia.
Defined.

Lemma fetchAllAccessibleRepos_keeps_asking_witness :
  (fetchAllAccessibleRepos Pages.unmarshalRepos 2 "t" Pages.complete).1 = None.
Proof.
  apply (fetchAllAccessibleRepos_keeps_asking Pages.unmarshalRepos "t"
           (λ k, default [] (Pages.pages !! k)) 2 Pages.complete).
  - intros k Hk. apply (pages_are_good Pages.complete); [reflexivity..|].
    destruct k as [|[|k]]; [reflexivity|reflexivity|lia].
  - unfold MaxInt. simpl. lia.
Defined.

Lemma pool_owns_records_witness :
  length (out (runPool Scenario.answers Scenario.inTurns
                 (startPool 3 Scenario.base))) = 3%nat
  ∧ ∃ k, (k ≤ 4)%nat
         ∧ out (runPool Scenario.answers Scenario.inTurns
                  (startPool 3 Scenario.base)) !! 0%nat
           = Some (storeUpTo Scenario.answers k 0 Pages.recordA).
Proof.
  destruct (pool_owns_records Scenario.answers Scenario.base 3 Scenario.inTurns)
    as (Hlen & _ & _ & _ & Hrec).
  split; [exact Hlen|].
  destruct (Hrec 0%nat Pages.recordA eq_refl) as (k & Hk & Hout & _).
  exists k. exact (conj Hk Hout).
Defined.

Lemma pool_keeps_base_attributes_witness :
  baseOf (default Pages.recordC
            (out (runPool Scenario.answers Scenario.inTurns
                    (startPool 3 Scenario.base)) !! 0%nat))
  = baseOf Pages.recordA.
Proof.
  apply (pool_keeps_base_attributes Scenario.answers Scenario.base 3
           Scenario.inTurns 0).
  - reflexivity.
  - vm_compute. reflexivity.
Defined.

Lemma pool_reaches_barrier_witness :
  finished (runPool Scenario.answers (replicate 15 0%nat)
              (startPool 3 Scenario.base)) = true
  ∧ runPool Scenario.answers (replicate 15 0%nat ++ [1; 2; 0]%nat)
      (startPool 3 Scenario.base)
    = runPool Scenario.answers (replicate 15 0%nat) (startPool 3 Scenario.base).
Proof.
  apply (pool_reaches_barrier Scenario.answers 3 Scenario.base [1; 2; 0]%nat).
  lia.
Defined.

Lemma enrichers_results_are_well_formed_witness :
  (@fetchLastCommit Demo.library "t" Malformed.full Malformed.world).1.1
  = ("", "")
  ∧ sent (@fetchLastCommit Demo.library "t" Malformed.full Malformed.world).2
    = []
  ∧ sent (@fetchLastCommit Demo.library "t" Scenario.full
            Scenario.failingWorld).2
    = [request (commitsURL Scenario.full) "t"].
Proof.
  destruct (@enrichers_results_are_well_formed Demo.library "t" Malformed.full
              Malformed.world) as (Hlast & _ & _ & (_ & Hsent) & _).
  destruct (@enrichers_results_are_well_formed Demo.library "t" Scenario.full
              Scenario.failingWorld) as (_ & _ & _ & (_ & Hsent') & _).
  split; [|split; [exact Hsent|exact Hsent']].
  destruct (@fetchLastCommit Demo.library "t" Malformed.full
              Malformed.world).1 as [[date msg] err] eqn:Hres.
  assert (Herr : err ≠ None).
  { vm_compute in Hres. intros ->. discriminate Hres. }
  destruct Hlast as [Hzero _]. destruct (Hzero Herr) as [-> ->]. reflexivity.
Defined.

Lemma fetchCommitActivity52W_bounded_witness :
  ∃ n, (1 ≤ n ≤ 5)%nat
       ∧ length (requests (@fetchCommitActivity52W Demo.library "t"
                             Scenario.full Scenario.readyWorld).2) = n.
Proof.
  destruct (@fetchCommitActivity52W_bounded Demo.library "t" Scenario.full
              Scenario.readyWorld) as (n & Hn & Hreq & _).
  exists n. split; [exact Hn|].
  rewrite Hreq. simpl. by rewrite length_replicate.
Defined.

Lemma enrichJob_effort_witness :
  completed (@enrichJob Demo.library "t" 3 Pages.recordA
               Scenario.threeRepos).2 = 1.
Proof.
  destruct (@enrichJob_effort Demo.library "t" 3 Pages.recordA
              Scenario.threeRepos)
    as (n & paused & _ & _ & _ & _ & _ & _ & _ & _ & Hc & _).
  exact Hc.
Defined.

Lemma enrichJob_record_invariants_witness :
  StatsCachePending (@enrichJob Demo.library "t" 3 Pages.recordA
                       Scenario.threeRepos).1 = true
  ∧ TotalCommits (@enrichJob Demo.library "t" 3 Pages.recordA
                    Scenario.threeRepos).1 = 0.
Proof.
  destruct (@enrichJob_record_invariants Demo.library "t" 3
              (Demo.repo "o/a" "Go") Scenario.threeRepos)
    as (_ & _ & _ & _ & _ & Hpending).
  assert (Hp : StatsCachePending (@enrichJob Demo.library "t" 3 Pages.recordA
                                    Scenario.threeRepos).1 = true)
    by (vm_compute; reflexivity).
  split; [exact Hp|]. by destruct (Hpending Hp).
Defined.

Lemma enrichInOrder_reports_progress_witness :
  completed (@enrichInOrder Demo.library "t" 3 Scenario.base
               Scenario.threeRepos).2 = 3
  ∧ last (stdout (@enrichInOrder Demo.library "t" 3 Scenario.base
                    Scenario.threeRepos).2)
    = Some (progressLine 3 3).
Proof.
  destruct (@enrichInOrder_reports_progress Demo.library "t" 3 Scenario.base
              Scenario.threeRepos) as (Hc & _ & Hlast & _).
  - reflexivity.
  - reflexivity.
  - unfold MaxInt. change (len Scenario.base) with 3. lia.
  - split; [exact Hc|]. by apply Hlast.
Defined.

Lemma summary_repo_counts_witness :
  Sum.Total (Sum.RepoCounts
    (@buildSummary Demo.library 0 Scenario.enrichedRecords)) = 3.
Proof.
  apply (@summary_repo_counts Demo.library 0 Scenario.enrichedRecords).
  unfold MaxInt. change (len Scenario.enrichedRecords) with 3. lia.
Defined.

Lemma summary_coverage_witness :
  Sum.ReposStatsPending (Sum.Enrichment
    (@buildSummary Demo.library 0 Scenario.enrichedRecords))
  = count isPending Scenario.enrichedRecords.
Proof.
  destruct (@summary_coverage Demo.library 0 Scenario.enrichedRecords)
    as (_ & _ & _ & _ & Hp & _); [|exact Hp].
  unfold MaxInt. change (len Scenario.enrichedRecords) with 3. lia.
Defined.

Lemma summary_sums_witness :
  Sum.TotalKB (Sum.Size
    (@buildSummary Demo.library 0 Scenario.enrichedRecords)) = 36.
Proof.
  destruct (@summary_sums Demo.library 0 Scenario.enrichedRecords)
    as (_ & _ & _ & _ & _ & Hkb & _).
  apply Hkb. unfold inRange, MinInt, MaxInt.
  change (total (map SizeKB Scenario.enrichedRecords)) with 36. lia.
Defined.

Lemma summary_tallies_witness :
  default 0 (Sum.Licenses
    (@buildSummary Demo.library 0 Scenario.enrichedRecords) !! "MIT License")
  = 3.
Proof.
  destruct (@summary_tallies Demo.library 0 Scenario.enrichedRecords)
    as (_ & Hlic & _).
  by rewrite Hlic.
Defined.

Lemma summary_ignores_order_witness :
  @buildSummary Demo.library 0 [Pages.recordA; Pages.recordC]
  = @buildSummary Demo.library 0 [Pages.recordC; Pages.recordA].
Proof. apply summary_ignores_order, perm_swap. Defined.

Lemma summary_listing_part_witness :
  default 0 (Sum.Licenses
    (@buildSummary Demo.library 0
       (out (runPool Scenario.answers Scenario.inTurns
               (startPool 3 Scenario.base)))) !! "MIT License")
  = 3.
Proof.
  destruct (@summary_listing_part Demo.library Scenario.listed Scenario.answers
              Scenario.inTurns 3 0) as (_ & _ & Hlic).
  fold Scenario.base in Hlic. by rewrite Hlic.
Defined.

(** ** The viewer: the validation of the file *)

Lemma pushIf (c : bool) msg (errors : list string) :
  (if c then JS.push msg errors else errors)
  = errors ++ (if c then [msg] else []).
Proof. destruct c; [done|by rewrite app_nil_r]. Qed.

Lemma checkRepo_appends errors i r :
  JS.checkRepo errors i r = errors ++ JS.checkRepo [] i r.
Proof.
  unfold JS.checkRepo. set (here := "Repo[" +:+ pretty i +:+ "]").
  clearbody here. cbv zeta.
  destruct (negb (String.eqb (JS.typeof (Some r)) "object")
            || match r with JS.Null => true | _ => false end); [done|].
  cbn [fold_left JS.required]. rewrite !pushIf.
  cbn [app]. by rewrite <- !app_assoc.
Qed.

Lemma typeof_string v :
  String.eqb (JS.typeof v) "string" = true ↔ ∃ s, v = Some (JS.Str s).
Proof.
  destruct v as [[]|]; simpl; split; try done; try (by intros [? [=]]).
  intros _. by eexists.
Qed.

Lemma typeof_number v :
  String.eqb (JS.typeof v) "number" = true ↔ ∃ x, v = Some (JS.Number x).
Proof.
  destruct v as [[]|]; simpl; split; try done; try (by intros [? [=]]).
  intros _. by eexists.
Qed.

Lemma checkRepo_object i props :
  JS.checkRepo [] i (JS.Object props) = [] ↔ wellFormed (JS.Object props).
Proof.
  unfold JS.checkRepo. set (here := "Repo[" +:+ pretty i +:+ "]").
  clearbody here. cbv zeta.
  change (negb (String.eqb (JS.typeof (Some (JS.Object props))) "object")
          || false) with false.
  cbn [fold_left JS.required]. rewrite !pushIf. cbn [app].
  unfold JS.has, JS.get. split.
  - intros Hnone.
    repeat match goal with
           | Happ : _ ++ _ = [] |- _ => apply app_nil in Happ as [? ?]
           end.
    destruct (props !! "name") as [[]|] eqn:Hname; try discriminate.
    destruct (props !! "full_name") as [[]|] eqn:Hfull; try discriminate.
    destruct (props !! "size_kb") as [[]|] eqn:Hsize; try discriminate.
    destruct (props !! "size_readable") as [[]|] eqn:Hreadable;
      try discriminate.
    destruct (props !! "updated_at") as [[]|] eqn:Hupdated; try discriminate.
    destruct (props !! "html_url") as [[]|] eqn:Hurl; try discriminate.
    exists props. split; [done|]. split; [|split].
    + intros k Hk. repeat (apply elem_of_cons in Hk as [->|Hk]); eauto.
      by apply elem_of_nil in Hk.
    + eauto.
    + intros v Hv. destruct (props !! "weekly_commits_52w") as [[]|];
        try discriminate. injection Hv as <-. eauto.
  - intros (props' & [= <-] & Hstr & [x Hsize] & Hweeks).
    destruct (Hstr "name") as [s1 ->]; [apply list_elem_of_In; simpl; tauto|].
    destruct (Hstr "full_name") as [s2 ->]; [apply list_elem_of_In; simpl; tauto|].
    destruct (Hstr "size_readable") as [s3 ->]; [apply list_elem_of_In; simpl; tauto|].
    destruct (Hstr "updated_at") as [s4 ->]; [apply list_elem_of_In; simpl; tauto|].
    destruct (Hstr "html_url") as [s5 ->]; [apply list_elem_of_In; simpl; tauto|].
    rewrite Hsize. cbn.
    destruct (props !! "weekly_commits_52w") as [v|]; [|done].
    by destruct (Hweeks v eq_refl) as [items ->].
Qed.

Lemma checkRepo_ok i r : JS.checkRepo [] i r = [] ↔ wellFormed r.
Proof.
  destruct r as [|b|x|s|items|props]; try apply checkRepo_object;
    (split; [|by intros (? & [=] & _)]); done.
Qed.

Lemma fold_checkRepo items : ∀ (f : nat → JS.value → nat * JS.value) errors,
  (∀ i r, snd (f i r) = r) →
  fold_left (λ errors ir, JS.checkRepo errors (fst ir) (snd ir))
            (imap f items) errors = []
  ↔ errors = [] ∧ Forall wellFormed items.
Proof.
  induction items as [|r items IH]; intros f errors Hf.
  - simpl. split; [by intros ->|by intros [-> _]].
  - cbn [imap fold_left]. rewrite IH by (intros i r'; apply Hf).
    rewrite Forall_cons, checkRepo_appends, Hf, app_nil, checkRepo_ok.
    tauto.
Qed.

(** X18. The validation of the viewer accepts a file exactly when it is
    an array of objects each of which has the six required fields with
    their types ([size_kb] a number, the five others strings) and, if it
    has [weekly_commits_52w] at all, has an array there; and whenever it
    rejects a file it has at least one message to show. The six checks
    for a missing field decide nothing: a record that passes the type
    checks has the fields. *)
Theorem validateRepos_accepts data :
  (JS.ok (JS.validateRepos data) = true
   ↔ ∃ items, data = JS.Array items ∧ Forall wellFormed items)
  ∧ (JS.ok (JS.validateRepos data) = false
     ↔ JS.errors (JS.validateRepos data) ≠ []).
Proof.
  unfold JS.validateRepos. cbv zeta.
  destruct data as [|b|x|s|items|props]; cbn [JS.isArray negb JS.ok JS.errors];
    try (split; [split; [done|by intros (? & [=] & _)]|done]).
  pose proof (fold_checkRepo items pair [] (λ _ _, eq_refl)) as Hfold.
  set (errors := fold_left _ _ _) in *.
  split.
  - rewrite Nat.eqb_eq, length_zero_iff_nil, Hfold. split.
    + intros [_ Hall]. by exists items.
    + intros (items' & [= <-] & Hall). done.
  - rewrite <- not_true_iff_false, Nat.eqb_eq, length_zero_iff_nil. done.
Qed.

(** ** The viewer: the colour of a language *)

Lemma toInt32_id x : - 2 ^ 31 ≤ x < 2 ^ 31 → JS.toInt32 x = x.
Proof.
  unfold JS.toInt32. intros Hx.
  change (2 ^ 32) with 4294967296 in *. change (2 ^ 31) with 2147483648 in *.
  rewrite Z.mod_small; lia.
Qed.

Lemma hashFrom_range lang : ∀ h,
  0 ≤ h < 2 ^ 32 → 0 ≤ JS.hashFrom h lang < 2 ^ 32.
Proof.
  unfold JS.hashFrom. induction lang as [|c lang IH]; intros h Hh; [done|].
  cbn [fold_left]. apply IH. unfold JS.toUint32. by apply Z.mod_pos_bound.
Qed.

Lemma band_127 a : JS.band a 0x7f = JS.toInt32 a `mod` 128.
Proof.
  unfold JS.band. rewrite (toInt32_id 127) by lia.
  change 127 with (Z.ones 7). by rewrite Z.land_ones.
Qed.

Lemma hash_bits h :
  0 ≤ h < 2 ^ 32 →
  JS.band h 0x7f = h `mod` 128
  ∧ JS.band (JS.sar h 7) 0x7f = (h `div` 2 ^ 7) `mod` 128
  ∧ JS.band (JS.sar h 14) 0x7f = (h `div` 2 ^ 14) `mod` 128.
Proof.
  intros Hh. rewrite !band_127. unfold JS.sar.
  rewrite !Z.shiftr_div_pow2 by lia. unfold JS.toInt32.
  change (2 ^ 32) with 4294967296 in *. change (2 ^ 31) with 2147483648.
  change (2 ^ 7) with 128. change (2 ^ 14) with 16384.
  repeat split; Z.div_mod_to_equations; lia.
Qed.

Lemma lor_disjoint a b n :
  0 ≤ n → 0 ≤ b < 2 ^ n → Z.lor (a * 2 ^ n) b = a * 2 ^ n + b.
Proof.
  intros Hn Hb. symmetry. apply Z.add_nocarry_lor.
  apply Z.bits_inj'. intros m Hm. rewrite Z.land_spec, Z.bits_0.
  destruct (decide (m < n)) as [Hlow|Hhigh].
  - by rewrite Z.mul_pow2_bits_low.
  - rewrite (proj1 (Z.bounded_iff_bits_nonneg' n b Hn (proj1 Hb)) Hb m) by lia.
    apply andb_false_r.
Qed.

Lemma compose_rgb r g b :
  0 ≤ r < 256 → 0 ≤ g < 256 → 0 ≤ b < 256 →
  JS.bor (JS.bor (JS.shl r 16) (JS.shl g 8)) b = r * 65536 + g * 256 + b.
Proof.
  intros Hr Hg Hb. unfold JS.shl, JS.bor.
  rewrite (toInt32_id r), (toInt32_id g), (toInt32_id b) by lia.
  rewrite !Z.shiftl_mul_pow2 by lia.
  rewrite !(toInt32_id (r * 2 ^ 16)), !(toInt32_id (g * 2 ^ 8)) by lia.
  rewrite (lor_disjoint r (g * 2 ^ 8) 16) by lia.
  rewrite (toInt32_id (r * 2 ^ 16 + g * 2 ^ 8)) by lia.
  replace (r * 2 ^ 16 + g * 2 ^ 8) with ((r * 256 + g) * 2 ^ 8) by lia.
  rewrite (lor_disjoint (r * 256 + g) b 8) by lia. lia.
Qed.

Lemma channels_rgb r g b :
  0 ≤ r < 256 → 0 ≤ g < 256 → 0 ≤ b < 256 →
  channels (r * 65536 + g * 256 + b) = (r, g, b).
Proof.
  intros Hr Hg Hb. unfold channels. change 255 with (Z.ones 8).
  rewrite !Z.land_ones, !Z.shiftr_div_pow2 by lia.
  change (2 ^ 16) with 65536. change (2 ^ 8) with 256.
  repeat f_equal; Z.div_mod_to_equations; lia.
Qed.

Lemma palette_colours name color :
  In (name, color) JS.languagePalette →
  0 ≤ color < 2 ^ 24 ∧ JS.colorForLanguage (Some name) = color.
Proof.
  unfold JS.languagePalette. cbn [In].
  intros Hin.
  repeat (destruct Hin as [[= <- <-]|Hin]; [by vm_compute|]).
  done.
Qed.

(** X19. The colour of a language is always a 24-bit value [0xRRGGBB].
    A language of the palette gets its palette colour. Any other
    non-empty name gets the colour made of three 7-bit fields of its
    32-bit hash: red is 80 plus bits 0..6, green 80 plus bits 7..13,
    blue 120 plus bits 14..20, so red and green lie in 80..207 and blue
    in 120..247. *)
Theorem colorForLanguage_rgb lang :
  let c := JS.colorForLanguage lang in
  0 ≤ c < 2 ^ 24
  ∧ (∀ name color, (name, color) ∈ JS.languagePalette →
       JS.colorForLanguage (Some name) = color)
  ∧ (∀ units, lang = Some units → units ≠ [] → JS.paletteGet units = None →
       let h := JS.hashFrom 0 units in
       0 ≤ h < 2 ^ 32
       ∧ channels c = (80 + h `mod` 128,
                       80 + (h `div` 2 ^ 7) `mod` 128,
                       120 + (h `div` 2 ^ 14) `mod` 128)).
Proof.
  intros c.
  assert (Hfallback : ∀ units,
    let h := JS.hashFrom 0 units in
    let r := 80 + h `mod` 128 in
    let g := 80 + (h `div` 2 ^ 7) `mod` 128 in
    let b := 120 + (h `div` 2 ^ 14) `mod` 128 in
    0 ≤ h < 2 ^ 32
    ∧ (0 ≤ r < 256 ∧ 0 ≤ g < 256 ∧ 0 ≤ b < 256)
    ∧ JS.bor (JS.bor (JS.shl (80 + JS.band h 0x7f) 16)
                     (JS.shl (80 + JS.band (JS.sar h 7) 0x7f) 8))
             (120 + JS.band (JS.sar h 14) 0x7f)
      = r * 65536 + g * 256 + b).
  { intros units h r g b.
    assert (Hh : 0 ≤ h < 2 ^ 32) by (apply hashFrom_range; lia).
    destruct (hash_bits h Hh) as (-> & -> & ->).
    assert (Hr : 0 ≤ r < 256) by (unfold r; Z.div_mod_to_equations; lia).
    assert (Hg : 0 ≤ g < 256) by (unfold g; Z.div_mod_to_equations; lia).
    assert (Hb : 0 ≤ b < 256) by (unfold b; Z.div_mod_to_equations; lia).
    split; [done|]. split; [done|]. by apply compose_rgb. }
  split; [|split].
  - unfold c, JS.colorForLanguage.
    destruct lang as [units|]; [|by vm_compute].
    destruct (bool_decide (units = [])); [by vm_compute|].
    destruct (JS.paletteGet units) as [color|] eqn:Hget.
    + unfold JS.paletteGet in Hget.
      destruct (find _ JS.languagePalette) as [[name color']|] eqn:Hfind;
        [|done].
      injection Hget as <-. apply find_some in Hfind as [Hin _].
      by apply palette_colours in Hin as [Hrange _].
    + cbv zeta. destruct (Hfallback units) as (_ & (Hr & Hg & Hb) & ->).
      change (2 ^ 24) with 16777216. lia.
  - intros name color Hin%list_elem_of_In. by apply palette_colours.
  - intros units -> Hunits Hnone h.
    destruct (Hfallback units) as (Hh & (Hr & Hg & Hb) & Heq).
    split; [exact Hh|].
    unfold c, JS.colorForLanguage. rewrite bool_decide_false by done.
    rewrite Hnone. cbv zeta. rewrite Heq. by apply channels_rgb.
Qed.

Example validate_sample :
  JS.validateRepos
    (JS.Array [sampleRecord (Some (JS.Number 12)); sampleRecord None; JS.Null])
  = {| JS.ok := false;
       JS.errors := ["Repo[1] missing required field: size_kb";
                     "Repo[1].size_kb must be number";
                     "Repo[2] must be an object."] |}.
Proof. vm_compute. reflexivity. Qed.

Example colour_samples :
  map (λ s, JS.colorForLanguage (Some (JS.codeUnits s)))
      ["Go"; ""; "Zig"; "Jupyter Notebook"]
  = [0x00d4ff; 0x9aa4ff; 0xc88d7d; 0x9ebb82].
Proof. vm_compute. reflexivity. Qed.

Lemma validateRepos_accepts_witness :
  JS.ok (JS.validateRepos (JS.Array [sampleRecord (Some (JS.Number 12))]))
  = true
  ∧ JS.errors (JS.validateRepos
                 (JS.Array [sampleRecord (Some (JS.Number 12));
                            sampleRecord None])) ≠ [].
Proof.
  split.
  - apply (proj2 (proj1 (validateRepos_accepts
                           (JS.Array [sampleRecord (Some (JS.Number 12))])))).
    eexists. split; [reflexivity|].
    constructor; [|constructor].
    eexists. split; [reflexivity|]. split; [|split].
    + intros k Hk. repeat (apply elem_of_cons in Hk as [->|Hk]);
        [by eexists; vm_compute..|by apply elem_of_nil in Hk].
    + eexists. by vm_compute.
    + intros v Hv. vm_compute in Hv. injection Hv as <-. by eexists.
  - apply (proj1 (proj2 (validateRepos_accepts
                           (JS.Array [sampleRecord (Some (JS.Number 12));
                                      sampleRecord None])))).
    vm_compute. reflexivity.
Defined.

Lemma colorForLanguage_rgb_witness :
  channels (JS.colorForLanguage (Some (JS.codeUnits "Zig")))
  = (80 + 89848 `mod` 128, 80 + (89848 `div` 2 ^ 7) `mod` 128,
     120 + (89848 `div` 2 ^ 14) `mod` 128).
Proof.
  destruct (colorForLanguage_rgb (Some (JS.codeUnits "Zig")))
    as (_ & _ & Hfallback).
  apply (Hfallback (JS.codeUnits "Zig") eq_refl); [done|reflexivity].
Defined.

(** ** The two revisions side by side *)

Section Revisions.
Context `{Library}.
Variable unmarshalCommits1 : string → error + list Rev1.commitListItem.
Variable unmarshalWeeks1 : string → error + list Rev1.weeklyStat.
Variables token fullName : string.

Lemma activityLoop_agrees url fuel : ∀ attempt w,
  (∀ status body, Answer status body ∈ server w url →
     200 ≤ status < 300 → status ≠ 202 →
     sameDecoding Total Rev1.Total
       (unmarshalWeeks body) (unmarshalWeeks1 body)) →
  let new := activityLoop fuel url token attempt w in
  let old := Rev1.activityLoop unmarshalWeeks1 fuel url token attempt w in
  old.1.1.1 = map Total new.1.1.1
  ∧ old.1.1.2 = new.1.1.2
  ∧ (old.1.2 = None ↔ new.1.2 = None)
  ∧ old.2 = new.2.
Proof.
  induction fuel as [|fuel IH]; intros attempt w Hweeks; [done|].
  cbn [activityLoop Rev1.activityLoop].
  destruct (attempt <=? len backoffs); [|done].
  unfold mbind, M_bind.
  pose proof (doGET_result url token w) as Hres.
  pose proof (doGET_server_same url token w) as Hsrv.
  destruct (doGET url token w) as [[[status body] e] w1].
  cbn [fst snd] in Hres, Hsrv.
  destruct (server w url) as [|[e'|e'|status' e'|status' body'] rest]
    eqn:Hanswers; injection Hres as -> -> ->; try done.
  destruct (Z.eqb_spec status' 202) as [->|H202].
  { destruct (attempt =? len backoffs); [done|]. apply IH.
    intros status body Hin. cbn [Sleep fst snd server] in Hin.
    rewrite Hsrv in Hin. cbn [leftBy tail] in Hin.
    apply Hweeks. by apply list_elem_of_further. }
  destruct ((status' <? 200) || (status' >=? 300)) eqn:Hbad; [done|].
  specialize (Hweeks status' body' (list_elem_of_here _ _)).
  unfold sameDecoding in Hweeks.
  destruct (unmarshalWeeks body') as [e|weeks],
           (unmarshalWeeks1 body') as [e1|weeks1];
    try done; try (exfalso; apply Hweeks; [lia|done]).
  cbn [mret M_ret fst snd]. rewrite rev1_totals. cbn [app].
  rewrite Hweeks by (lia || done). done.
Qed.

(** X20. The two revisions fetch alike wherever their decoders do. With
    decoders that agree on the bodies the two endpoints hold in store
    under a success status (both fail, or both decode items with the
    same commit dates, the same weekly totals), the earlier revision's
    [fetchLastCommitAt] and [fetchCommitActivity52W] return the date,
    the weekly totals and the pending flag their successors return, an
    error exactly when they do, and leave the same calls, requests,
    sleeps and answers behind. Nothing is asked of the decoders on other
    bodies, where the later structs, which have more fields, may fail
    alone. *)
Theorem revisions_fetch_alike w :
  (∀ status body, Answer status body ∈ server w (commitsURL fullName) →
     200 ≤ status < 300 →
     sameDecoding Commit_Author_Date Rev1.Commit_Author_Date
       (unmarshalCommits body) (unmarshalCommits1 body)) →
  (∀ status body, Answer status body ∈ server w (activityURL fullName) →
     200 ≤ status < 300 → status ≠ 202 →
     sameDecoding Total Rev1.Total
       (unmarshalWeeks body) (unmarshalWeeks1 body)) →
  (let new := fetchLastCommit token fullName w in
   let old := Rev1.fetchLastCommitAt unmarshalCommits1 token fullName w in
   old.1.1 = new.1.1.1
   ∧ (old.1.2 = None ↔ new.1.2 = None)
   ∧ old.2 = new.2)
  ∧ (let new := fetchCommitActivity52W token fullName w in
     let old := Rev1.fetchCommitActivity52W unmarshalWeeks1 token fullName w in
     old.1.1.1 = map Total new.1.1.1
     ∧ old.1.1.2 = new.1.1.2
     ∧ (old.1.2 = None ↔ new.1.2 = None)
     ∧ old.2 = new.2).
Proof.
  intros Hcommits Hweeks. split.
  - unfold fetchLastCommit, Rev1.fetchLastCommitAt. cbv zeta.
    fold (commitsURL fullName). unfold mbind, M_bind.
    pose proof (doGET_result (commitsURL fullName) token w) as Hres.
    destruct (doGET (commitsURL fullName) token w) as [[[status body] e] w1].
    cbn [fst snd] in Hres.
    destruct (server w (commitsURL fullName))
      as [|[e'|e'|status' e'|status' body'] rest] eqn:Hanswers;
      injection Hres as -> -> ->; try done.
    destruct ((status' <? 200) || (status' >=? 300)) eqn:Hbad; [done|].
    specialize (Hcommits status' body' (list_elem_of_here _ _)).
    unfold sameDecoding in Hcommits.
    destruct (unmarshalCommits body') as [e|[|c commits]],
             (unmarshalCommits1 body') as [e1|[|c1 commits1]];
      try done; try (exfalso; apply Hcommits; lia);
      try (by (discriminate Hcommits; lia)).
    assert (Hsame : map Commit_Author_Date (c :: commits)
                    = map Rev1.Commit_Author_Date (c1 :: commits1))
      by (apply Hcommits; lia).
    injection Hsame as Hdate _. by cbn [mret M_ret fst snd].
  - by apply activityLoop_agrees.
Qed.

End Revisions.

Lemma revisions_fetch_alike_witness :
  (Rev1.fetchCommitActivity52W Earlier.unmarshalWeeks "t" "o/a"
     Earlier.world).1.1.1
  = map Total (@fetchCommitActivity52W Demo.library "t" "o/a"
                 Earlier.world).1.1.1.
Proof.
  apply (@revisions_fetch_alike Demo.library Earlier.unmarshalCommits
           Earlier.unmarshalWeeks "t" "o/a" Earlier.world).
  - intros status body Hin _.
    apply elem_of_cons in Hin as [Hin|Hin]; [|by apply elem_of_nil in Hin].
    injection Hin as -> ->. reflexivity.
  - intros status body Hin _ H202.
    apply elem_of_cons in Hin as [Hin|Hin]; [by injection Hin as -> ->|].
    apply elem_of_cons in Hin as [Hin|Hin]; [|by apply elem_of_nil in Hin].
    injection Hin as -> ->. reflexivity.
Defined.

Example revisions_part_on_ill_typed_days :
  (Rev1.fetchCommitActivity52W Earlier.unmarshalWeeks "t" "o/a"
     Earlier.illTyped).1
  = ([3], false, None)
  ∧ (@fetchCommitActivity52W Demo.library "t" "o/a" Earlier.illTyped).1
    = ([], false, Some (UnmarshalError "invalid character")).
Proof. split; vm_compute; reflexivity. Qed.

Example malformed_name_sends_nothing :
  let run := @enrichJob Demo.library "t" 1 Malformed.record Malformed.world in
  sent run.2 = []
  ∧ length (requests run.2) = 4%nat
  ∧ slept run.2 = [100 * Millisecond]
  ∧ run.1 = Malformed.record
  ∧ server run.2 (commitsURL Malformed.full)
    = [NewRequestFails Malformed.refusal].
Proof. cbv zeta. repeat split; vm_compute; reflexivity. Qed.
